(** * og-audio-dl: the extraction worker (src/worker.js)

    A shallow embedding of the worker's safety layer (rate limiter,
    response cache, URL validator), of its filename sanitiser, of the
    meta-tag extractor and of the Suno lyrics resolver, with the
    properties the specification states about them.

    JavaScript strings are sequences of UTF-16 code units: a string is a
    [list Z] of code units.  Regular expressions are written as a small
    syntax tree and run by a backtracking matcher that returns the
    outcomes in the order in which the JavaScript matcher explores them.
    Clock reads ([Date.now()]) and platform services ([new URL], [fetch],
    [JSON.parse]) are inputs of the functions that use them. *)

From Stdlib Require Import ZArith Lia Ascii String DecimalString.
From stdpp Require Import gmap list fin_maps.

Set Warnings "-register-all,-abstract-large-number,-clear-no-such-hyp".

Open Scope Z_scope.

(** ** Strings *)

Abbreviation jsstring := (list Z).

(** A string literal of the source, as code units. *)
Fixpoint js (s : string) : list Z :=
  match s with
  | EmptyString => []
  | String a s' => Z.of_N (N_of_ascii a) :: js s'
  end.

Definition chr (s : string) : Z :=
  match s with
  | String a _ => Z.of_N (N_of_ascii a)
  | EmptyString => 0
  end.

Definition dquote : Z := 34.
Definition squote : Z := 39.
Definition newline : Z := 10.

(** Example texts are written with a backquote for each double quote. *)
Definition jsq (s : string) : jsstring :=
  (fun x => if x =? chr "`" then dquote else x) <$> js s.

(** The lines of an example text, joined by line feeds. *)
Fixpoint js_lines (ls : list string) : jsstring :=
  match ls with
  | [] => []
  | [l] => js l
  | l :: ls' => js l ++ newline :: js_lines ls'
  end.

Definition in_range (lo hi x : Z) : bool := (lo <=? x) && (x <=? hi).

(** WhiteSpace and LineTerminator of ECMAScript: what [String.prototype.trim]
    strips and what [\s] matches. *)
Definition isWhiteSpace (x : Z) : bool :=
  in_range 9 13 x || (x =? 32) || (x =? 160) || (x =? 5760)
  || in_range 8192 8202 x || (x =? 8232) || (x =? 8233) || (x =? 8239)
  || (x =? 8287) || (x =? 12288) || (x =? 65279).

Definition isUpper (x : Z) : bool := in_range 65 90 x.
Definition isLower (x : Z) : bool := in_range 97 122 x.
Definition isDigit (x : Z) : bool := in_range 48 57 x.
Definition isLetter (x : Z) : bool := isUpper x || isLower x.

(** Case folding of the matcher under the [i] flag, for patterns made of
    ASCII characters: a code unit outside ASCII never folds to an ASCII one. *)
Definition upperAscii (x : Z) : Z := if isLower x then x - 32 else x.
Definition lowerAscii (x : Z) : Z := if isUpper x then x + 32 else x.

(** [String.prototype.toLowerCase] on the ASCII strings the URL parser
    serialises host names to. *)
Definition toLowerCase (s : jsstring) : jsstring := lowerAscii <$> s.

Fixpoint dropWhile (p : Z -> bool) (s : jsstring) : jsstring :=
  match s with
  | [] => []
  | x :: xs => if p x then dropWhile p xs else s
  end.

Fixpoint takeWhile (p : Z -> bool) (s : jsstring) : jsstring :=
  match s with
  | [] => []
  | x :: xs => if p x then x :: takeWhile p xs else []
  end.

Definition dropWhileEnd (p : Z -> bool) (s : jsstring) : jsstring :=
  rev (dropWhile p (rev s)).

Definition trim (s : jsstring) : jsstring :=
  dropWhileEnd isWhiteSpace (dropWhile isWhiteSpace s).

Fixpoint startsWith (w s : jsstring) : bool :=
  match w, s with
  | [], _ => true
  | a :: w', b :: s' => (a =? b) && startsWith w' s'
  | _ :: _, [] => false
  end.

Fixpoint includes (w s : jsstring) : bool :=
  startsWith w s ||
  match s with
  | [] => false
  | _ :: s' => includes w s'
  end.

(** [s.indexOf(w, from)], [-1] when there is no occurrence; the argument
    [s] is the part of the string from index [from] on. *)
Fixpoint indexOf_from (w s : jsstring) (from : Z) : Z :=
  if startsWith w s then from
  else match s with
       | [] => -1
       | _ :: s' => indexOf_from w s' (from + 1)
       end.

Definition indexOf (w s : jsstring) (from : nat) : Z :=
  if (from <=? length s)%nat then indexOf_from w (drop from s) (Z.of_nat from)
  else indexOf_from w [] (Z.of_nat (length s)).

(** [s.split(c)] for a one-character separator: the pieces between the
    separators, always at least one. *)
Fixpoint split_at (c : Z) (cur : jsstring) (s : jsstring) : list jsstring :=
  match s with
  | [] => [rev cur]
  | x :: xs => if x =? c then rev cur :: split_at c [] xs
               else split_at c (x :: cur) xs
  end.

Definition split (c : Z) (s : jsstring) : list jsstring := split_at c [] s.

(** [s.slice(0, n)] *)
Definition slice0 (n : nat) (s : jsstring) : jsstring := take n s.

(** ** Regular expressions *)

Module Regex.

Inductive re : Type :=
| Eps
| Chr (p : Z -> bool)
| Seq (a b : re)
| Alt (a b : re)
| Star (greedy : bool) (a : re)
| Group (a : re)
| Bol
| Eol.

(** A point of the match: the index reached, the input still ahead, and
    the text of the capturing group, if it was closed. *)
Record state : Type := St { idx : nat; rest : jsstring; cap : option jsstring }.

Definition adv (st : state) : list state :=
  match rest st with
  | [] => []
  | _ :: xs => [St (S (idx st)) xs (cap st)]
  end.

Definition close (st0 st : state) : state :=
  St (idx st) (rest st) (Some (take (idx st - idx st0) (rest st0))).

(** Iteration: every round has to consume input; a greedy star tries
    one more round before it stops, a lazy one stops first. *)
Fixpoint star (greedy : bool) (step : state -> list state) (fuel : nat)
    (st : state) : list state :=
  match fuel with
  | O => [st]
  | S n =>
      let more :=
        flat_map (fun st' =>
          if (length (rest st') <? length (rest st))%nat
          then star greedy step n st' else []) (step st) in
      if greedy then more ++ [st] else st :: more
  end.

(** All the ways [r] matches from [st], in the matcher's order of
    preference: the head is what the matcher commits to when whatever
    follows succeeds on it. *)
Fixpoint run (r : re) (st : state) : list state :=
  match r with
  | Eps => [st]
  | Chr p =>
      match rest st with
      | x :: _ => if p x then adv st else []
      | [] => []
      end
  | Seq a b => flat_map (run b) (run a st)
  | Alt a b => run a st ++ run b st
  | Star g a => star g (run a) (length (rest st)) st
  | Group a => close st <$> run a st
  | Bol => if (idx st =? 0)%nat then [st] else []
  | Eol => match rest st with [] => [st] | _ => [] end
  end.

(** The leftmost match at or after index [i], where [s] is the input
    from [i] on: the start index with the end state. *)
Fixpoint exec_from (r : re) (i : nat) (s : jsstring) : option (nat * state) :=
  match run r (St i s None) with
  | st :: _ => Some (i, st)
  | [] =>
      match s with
      | [] => None
      | _ :: s' => exec_from r (S i) s'
      end
  end.

Definition exec (r : re) (s : jsstring) : option (nat * state) := exec_from r 0 s.

(** [re.test(s)] *)
Definition test (r : re) (s : jsstring) : bool :=
  match exec r s with Some _ => true | None => false end.

(** [s.match(re)[1]] for a pattern without the [g] flag. *)
Definition match1 (r : re) (s : jsstring) : option (option jsstring) :=
  match exec r s with
  | Some (_, st) => Some (cap st)
  | None => None
  end.

(** A scan with the [g] flag, from [lastIndex = 0] until no match is
    left: the code units no match covers and the matches (their end
    states), in order.  The search resumes where the last match ended,
    one code unit further after an empty match. *)
Inductive item : Type :=
| Unit (x : Z)
| Match (st : state).

Fixpoint scan (r : re) (fuel : nat) (i : nat) (s : jsstring) : list item :=
  match fuel with
  | O => []
  | S n =>
      match run r (St i s None) with
      | st :: _ =>
          if (idx st =? i)%nat then
            match s with
            | [] => [Match st]
            | x :: xs => Match st :: Unit x :: scan r n (S i) xs
            end
          else Match st :: scan r n (idx st) (rest st)
      | [] =>
          match s with
          | [] => []
          | x :: xs => Unit x :: scan r n (S i) xs
          end
      end
  end.

(** Every round of the scan moves on in the input, so its length and
    one is fuel enough. *)
Definition matches (r : re) (s : jsstring) : list item := scan r (S (length s)) 0 s.

Definition matched (its : list item) : list state :=
  omap (fun it => match it with Match st => Some st | Unit _ => None end) its.

(** [s.match(re)] with the [g] flag: the number of matches. *)
Definition match_count (r : re) (s : jsstring) : nat :=
  length (matched (matches r s)).

(** The first capture of every match of a [g] pattern, as a
    [while ((m = re.exec(s)) !== null)] loop collects them. *)
Definition captures (r : re) (s : jsstring) : list jsstring :=
  (fun st => default [] (cap st)) <$> matched (matches r s).

(** [s.replace(re, by)] with the [g] flag. *)
Definition replace_all (r : re) (by_ : jsstring) (s : jsstring) : jsstring :=
  flat_map (fun it => match it with Match _ => by_ | Unit x => [x] end) (matches r s).

(** [s.replace(re, by)] without the [g] flag: the first match only. *)
Definition replace (r : re) (by_ : jsstring) (s : jsstring) : jsstring :=
  match exec r s with
  | None => s
  | Some (j, st) => take j s ++ by_ ++ rest st
  end.

(** [w] is the input the matcher reads on its way from [st] to [st']. *)
Definition reaches (st : state) (w : jsstring) (st' : state) : Prop :=
  rest st = w ++ rest st' ∧ idx st' = (idx st + length w)%nat.

(** [w'] is [w] up to the case of ASCII letters. *)
Definition same_i (w w' : jsstring) : Prop :=
  Forall2 (fun a b => upperAscii b = upperAscii a) w w'.

(** Pattern syntax. *)
Fixpoint seq_of (rs : list re) : re :=
  match rs with
  | [] => Eps
  | [r] => r
  | r :: rs' => Seq r (seq_of rs')
  end.

Fixpoint alt_of (rs : list re) : re :=
  match rs with
  | [] => Eps
  | [r] => r
  | r :: rs' => Alt r (alt_of rs')
  end.

Definition Plus (a : re) : re := Seq a (Star true a).

Fixpoint Rep (n : nat) (a : re) : re :=
  match n with
  | O => Eps
  | S n' => Seq a (Rep n' a)
  end.

Definition eqc (c : Z) : Z -> bool := fun x => x =? c.
Definition eqc_i (c : Z) : Z -> bool := fun x => upperAscii x =? upperAscii c.
Definition one_of (cs : jsstring) : Z -> bool := fun x => existsb (Z.eqb x) cs.
Definition none_of (cs : jsstring) : Z -> bool := fun x => negb (one_of cs x).

(** A run of literal characters, and the same under the [i] flag. *)
Definition lit (w : jsstring) : re := seq_of (Chr ∘ eqc <$> w).
Definition lit_i (w : jsstring) : re := seq_of (Chr ∘ eqc_i <$> w).

End Regex.

Import Regex.

(** ** Rate limiting (per-IP, in-memory) *)

Definition RATE_LIMIT_WINDOW : Z := 60000.
Definition RATE_LIMIT_MAX : Z := 15.

Record RateEntry : Type := { start : Z; count : Z }.

(** [checkRateLimit(ip)] with the clock read [now] and the map
    [rateLimitMap] as inputs; the map is returned with the answer. *)
Definition checkRateLimit (now : Z) (ip : jsstring) (rateLimitMap : gmap (list Z) RateEntry)
    : bool * gmap (list Z) RateEntry :=
  match rateLimitMap !! ip with
  | Some entry =>
      if now - start entry >? RATE_LIMIT_WINDOW
      then (true, <[ip := {| start := now; count := 1 |}]> rateLimitMap)
      else
        let entry' := {| start := start entry; count := count entry + 1 |} in
        (count entry' <=? RATE_LIMIT_MAX, <[ip := entry']> rateLimitMap)
  | None => (true, <[ip := {| start := now; count := 1 |}]> rateLimitMap)
  end.

(** The calls of one client at the successive clock reads [times]. *)
Fixpoint checkRateLimit_calls (times : list Z) (ip : jsstring)
    (rateLimitMap : gmap (list Z) RateEntry) : list bool * gmap (list Z) RateEntry :=
  match times with
  | [] => ([], rateLimitMap)
  | now :: later =>
      let '(ok, m) := checkRateLimit now ip rateLimitMap in
      let '(oks, m') := checkRateLimit_calls later ip m in
      (ok :: oks, m')
  end.

(** ** Response cache (in-memory, 5 min TTL) *)

Definition CACHE_TTL : Z := 5 * 60000.

(** The result object of [extractAudioInfo]. *)
Record AudioInfo : Type := {
  audioUrl : jsstring;
  title : jsstring;
  artist : option jsstring;
  lyrics : option jsstring;
  filename : jsstring;
  image : option jsstring;
  sourceTag : jsstring;
  pageUrl : jsstring
}.

Record CacheEntry : Type := { data : AudioInfo; time : Z }.

(** [getCached(url)]; [now] is the clock read, made when the entry exists. *)
Definition getCached (now : Z) (url : jsstring) (cache : gmap (list Z) CacheEntry)
    : option AudioInfo * gmap (list Z) CacheEntry :=
  match cache !! url with
  | Some entry =>
      if now - time entry <? CACHE_TTL then (Some (data entry), cache)
      else (None, delete url cache)
  | None => (None, cache)
  end.

(** [setCache(url, data)]; [now] is the clock read that stamps the entry,
    [now'] the one the sweep makes after it. *)
Definition setCache (now now' : Z) (url : jsstring) (d : AudioInfo)
    (cache : gmap (list Z) CacheEntry) : gmap (list Z) CacheEntry :=
  let cache1 := <[url := {| data := d; time := now |}]> cache in
  if (200 <? size cache1)%nat
  then filter (fun kv => ¬ (now' - time kv.2 > CACHE_TTL)) cache1
  else cache1.

(** ** Meta tags *)

Definition META_TAGS : list jsstring :=
  [js "og:audio"; js "og:audio:url"; js "og:audio:secure_url"; js "twitter:player:stream"].

Definition quote_char : Z -> bool := one_of [dquote; squote].
Definition not_quote : Z -> bool := none_of [dquote; squote].
Definition not_gt : Z -> bool := none_of (js ">").

(** The two patterns of [extractMeta], both under the [i] flag.  The tag
    is pasted into the pattern text: for the tags of this file, which
    hold no pattern operator, it reads as a literal.  Below, [Q] stands
    for the class of the two quote characters and [N] for its complement. *)

(** [(?:property|name)=Q tag Q] *)
Definition attr_re (tag : jsstring) : re :=
  seq_of [Alt (lit_i (js "property")) (lit_i (js "name"));
          Chr (eqc (chr "=")); Chr quote_char; lit_i tag; Chr quote_char].

(** [content=Q(N+)Q] *)
Definition content_re : re :=
  seq_of [lit_i (js "content="); Chr quote_char;
          Group (Plus (Chr not_quote)); Chr quote_char].

(** [<meta[^>]+(?:property|name)=Q tag Q[^>]+content=Q(N+)Q] *)
Definition meta_pattern1 (tag : jsstring) : re :=
  seq_of [lit_i (js "<meta"); Plus (Chr not_gt); attr_re tag;
          Plus (Chr not_gt); content_re].

(** [<meta[^>]+content=Q(N+)Q[^>]+(?:property|name)=Q tag Q] *)
Definition meta_pattern2 (tag : jsstring) : re :=
  seq_of [lit_i (js "<meta"); Plus (Chr not_gt); content_re;
          Plus (Chr not_gt); attr_re tag].

(** [extractMeta(html, tag)]: [None] is [null]. *)
Definition extractMeta (html tag : jsstring) : option jsstring :=
  match match1 (meta_pattern1 tag) html with
  | Some group1 => group1
  | None =>
      match match1 (meta_pattern2 tag) html with
      | Some group1 => group1
      | None => None
      end
  end.

(** The loop of [extractAudioInfo] that finds the audio URL: the pair
    [(audioUrl, foundTag)], or [None] where the function returns [null]. *)
Fixpoint findAudio (html : jsstring) (tags : list jsstring) : option (jsstring * jsstring) :=
  match tags with
  | [] => None
  | tag :: tags' =>
      match extractMeta html tag with
      | Some (c :: v) => Some (c :: v, tag)
      | _ => findAudio html tags'
      end
  end.

Definition extractAudio (html : jsstring) : option (jsstring * jsstring) :=
  findAudio html META_TAGS.

(** *** Pages with one audio tag *)

(** A state of a match over the page [html]. *)
Definition on_page (html : jsstring) (st : state) : Prop :=
  rest st = drop (idx st) html ∧ (idx st <= length html)%nat.

(** The places of [s] where [r] matches. *)
Definition matches_at (r : re) (s : jsstring) (k : nat) : bool :=
  match run r (St k (drop k s) None) with
  | [] => false
  | _ :: _ => true
  end.

Definition positions (r : re) (s : jsstring) : list nat :=
  filter (fun k => matches_at r s k = true) (seq 0 (S (length s))).

(** [s] opens with [w] up to the case of ASCII letters. *)
Fixpoint startsWith_i (w s : jsstring) : bool :=
  match w, s with
  | [], _ => true
  | a :: w', b :: s' => (upperAscii b =? upperAscii a) && startsWith_i w' s'
  | _ :: _, [] => false
  end.

(** A meta tag in its plainest spelling, that names [tag] and gives [v]
    as its content, with the naming attribute first or the content
    first; [q] and [q'] are the quote characters around the name and
    around the content. *)
Definition meta_tag (attr_first : bool) (attr : jsstring) (q : Z) (tag : jsstring)
    (q' : Z) (v : jsstring) : jsstring :=
  if attr_first
  then js "<meta " ++ attr ++ chr "=" :: q :: tag ++ q :: js " content=" ++ q' :: v
       ++ q' :: js ">"
  else js "<meta content=" ++ q' :: v ++ q' :: js " " ++ attr ++ chr "=" :: q :: tag
       ++ q :: js ">".

(** The general shape of a tag that the two patterns read.  The naming
    attribute is [A=Q T Q] and the content attribute [C=Q V Q]; the tag
    opens with [m], a spelling of [<meta], and the texts [g1] and [g2]
    stand between its parts.  What follows the closing quote of the last
    attribute belongs to the text after the element. *)
Definition naming_attr (a : jsstring) (q1 : Z) (t : jsstring) (q2 : Z) : jsstring :=
  a ++ chr "=" :: q1 :: t ++ [q2].

Definition content_attr (c : jsstring) (q3 : Z) (v : jsstring) (q4 : Z) : jsstring :=
  c ++ q3 :: v ++ [q4].

Definition meta_element (attr_first : bool) (m g1 naming g2 content : jsstring) : jsstring :=
  m ++ g1 ++ (if attr_first then naming ++ g2 ++ content else content ++ g2 ++ naming).

(** A text that [[^>]+] can read as a whole. *)
Definition gap (s : jsstring) : bool :=
  match s with
  | [] => false
  | _ :: _ => forallb not_gt s
  end.

(** The places of [s] where the content pattern can be read after a gap
    that starts with [s]. *)
Definition content_after (s : jsstring) : list nat :=
  filter (fun j => gap (take j s) && matches_at content_re s j = true)
    (seq 0 (S (length s))).

(** The places of [s] where the content pattern can be read with a gap
    from its end to the end of [s]. *)
Definition content_before (s : jsstring) : list nat :=
  filter (fun k => existsb (fun st => gap (rest st)) (run content_re (St k (drop k s) None))
                   = true)
    (seq 0 (S (length s))).

(** ** File names *)

Definition dot_or_space (x : Z) : bool := eqc (chr ".") x || isWhiteSpace x.

(** The character class of the first replacement: slash, backslash,
    colon, star, question mark, double quote, angle brackets, bar. *)
Definition unsafe_char : Z -> bool := one_of (js "/\:*?" ++ dquote :: js "<>|").

(** [sanitiseFilename(str)] *)
Definition sanitiseFilename (str : jsstring) : jsstring :=
  replace (Seq (Plus (Chr dot_or_space)) Eol) []
    (replace (Seq Bol (Plus (Chr dot_or_space))) []
       (replace_all (Chr unsafe_char) (js "_") str)).

(** The sanitiser as the specification words it: the nine characters
    are deleted, then leading and trailing dots and whitespace go. *)
Definition sanitiseFilename_spec (str : jsstring) : jsstring :=
  dropWhileEnd dot_or_space
    (dropWhile dot_or_space (filter (fun x => unsafe_char x = false) str)).

(** ** URL validation *)

(** What the code reads of a [URL] object. *)
Record URL : Type := { protocol : jsstring; hostname : jsstring; pathname : jsstring }.

Definition private_host : re :=
  Seq Bol
    (alt_of [lit (js "127."); lit (js "10."); lit (js "192.168.");
             seq_of [lit (js "172.");
                     alt_of [Seq (Chr (eqc (chr "1"))) (Chr (in_range (chr "6") (chr "9")));
                             Seq (Chr (eqc (chr "2"))) (Chr isDigit);
                             Seq (Chr (eqc (chr "3"))) (Chr (one_of (js "01")))];
                     lit (js ".")];
             lit (js "0."); lit (js "169.254."); lit (js "::1");
             lit (js "fc"); lit (js "fd"); lit (js "fe80")]).

Definition list_eqb (a b : jsstring) : bool := bool_decide (a = b).

Definition invalid_url : jsstring := js "Invalid URL".
Definition unsupported_scheme : jsstring := js "Only HTTP/HTTPS URLs are supported".
Definition private_address : jsstring := js "Private or reserved addresses are not allowed".

Section Validate.

(** [new URL(url)]: [None] when the constructor throws. *)
Variable parseURL : jsstring -> option URL.

(** [validateUrl(url)]: [None] is [null], the URL is accepted. *)
Definition validateUrl (url : jsstring) : option jsstring :=
  match parseURL url with
  | None => Some invalid_url
  | Some parsed =>
      if negb (list_eqb (protocol parsed) (js "https:"))
         && negb (list_eqb (protocol parsed) (js "http:"))
      then Some unsupported_scheme
      else
        let host := toLowerCase (hostname parsed) in
        if test private_host host then Some private_address
        else if list_eqb host (js "localhost") || list_eqb host (js "[::1]")
        then Some private_address
        else None
  end.

End Validate.

(** ** Suno lyrics extraction *)

Definition backslash : Z := 92.

(** [normaliseSunoEscapes(str)] *)
Definition normaliseSunoEscapes (str : jsstring) : jsstring :=
  replace_all (lit (backslash :: js "n")) [newline]
    (replace_all (lit (backslash :: js "u0026")) (js "&")
       (replace_all (lit (backslash :: js "u003e")) (js ">")
          (replace_all (lit (backslash :: js "u003c")) (js "<")
             (replace_all (lit [backslash; dquote]) [dquote] str)))).

Definition flight_chunk : re :=
  seq_of [lit (js "self.__next_f.push([1," ++ [dquote]);
          Group (Star false (Chr (fun _ => true)));
          lit (dquote :: js "])</script>")].

(** [extractSunoFlightChunks(html)] *)
Definition extractSunoFlightChunks (html : jsstring) : list jsstring :=
  normaliseSunoEscapes <$> captures flight_chunk html.

Definition nonempty (s : jsstring) : bool :=
  match s with [] => false | _ :: _ => true end.

Definition isAlnum (x : Z) : bool := isLetter x || isDigit x.

(** [/^[a-z0-9]+:/i] *)
Definition ident_colon : re :=
  seq_of [Bol; Plus (Chr isAlnum); Chr (eqc (chr ":"))].

(** [/[A-Za-z]{2,}/g] *)
Definition word : re :=
  seq_of [Chr isLetter; Chr isLetter; Star true (Chr isLetter)].

(** [looksLikeSunoLyrics(text)] *)
Definition looksLikeSunoLyrics (text : jsstring) : bool :=
  let t := trim text in
  if (length t <? 80)%nat then false
  else if includes (js "{" ++ [dquote]) t then false
  else if includes (js ":[" ++ dquote :: js "$") t then false
  else if includes (dquote :: js "$L") t then false
  else if test ident_colon t then false
  else
    let lines := filter (fun l => nonempty l = true) (trim <$> split newline t) in
    if (length lines <? 4)%nat then false
    else (20 <=? match_count word t)%nat.

(** The maximal runs of code units that satisfy [p], in order; [cur] is
    the run being read, latest code unit first. *)
Fixpoint runs_acc (p : Z -> bool) (cur : jsstring) (s : jsstring) : list jsstring :=
  match s with
  | [] => [rev cur]
  | x :: xs => if p x then runs_acc p (x :: cur) xs else rev cur :: runs_acc p [] xs
  end.

(** The alphabetic word tokens of a text: its maximal runs of ASCII
    letters that are at least two letters long. *)
Definition letter_words (s : jsstring) : list jsstring :=
  filter (fun w => (2 <= length w)%nat) (runs_acc isLetter [] s).

(** [t] opens with a run of [p] followed by a colon. *)
Definition colon_prefixed (p : Z -> bool) (t : jsstring) : bool :=
  nonempty (takeWhile p t) &&
  match dropWhile p t with
  | c :: _ => c =? chr ":"
  | [] => false
  end.

(** The heuristic as the specification words it: the prefix is a
    lowercase-alphanumeric run and a colon, and the word tokens are
    counted once each. *)
Definition looksLikeSunoLyrics_spec (text : jsstring) : bool :=
  let t := trim text in
  (80 <=? length t)%nat
  && negb (includes (js "{" ++ [dquote]) t)
  && negb (includes (js ":[" ++ dquote :: js "$") t)
  && negb (includes (dquote :: js "$L") t)
  && negb (colon_prefixed (fun x => isLower x || isDigit x) t)
  && (4 <=? length (filter (fun l => nonempty l = true) (trim <$> split newline t)))%nat
  && (20 <=? length (remove_dups (letter_words t)))%nat.

(** The loop of [extractJsonObject]: the index of the brace that closes
    the object, scanning [s] from index [i]. *)
Fixpoint closing_brace (s : jsstring) (i : nat) (depth : Z) (inStr esc : bool) : option nat :=
  match s with
  | [] => None
  | ch :: s' =>
      if inStr then
        if esc then closing_brace s' (S i) depth true false
        else if ch =? backslash then closing_brace s' (S i) depth true true
        else if ch =? dquote then closing_brace s' (S i) depth false esc
        else closing_brace s' (S i) depth true esc
      else if ch =? dquote then closing_brace s' (S i) depth true esc
      else if ch =? chr "{" then closing_brace s' (S i) (depth + 1) false esc
      else if ch =? chr "}" then
        if depth - 1 =? 0 then Some i
        else closing_brace s' (S i) (depth - 1) false esc
      else closing_brace s' (S i) depth false esc
  end.

(** [extractJsonObject(src, start)] *)
Definition extractJsonObject (src : jsstring) (start_ : nat) : option jsstring :=
  match src !! start_ with
  | Some c =>
      if c =? chr "{" then
        match closing_brace (drop start_ src) start_ 0 false false with
        | Some i => Some (drop start_ (take (S i) src))
        | None => None
        end
      else None
  | None => None
  end.

(** [/^\$\d+$/] *)
Definition token_ref : re := seq_of [Bol; Chr (eqc (chr "$")); Plus (Chr isDigit); Eol].

(** [/^\[instrumental\]$/i] *)
Definition instrumental : re := seq_of [Bol; lit_i (js "[instrumental]"); Eol].

(** [chunks.findIndex(f)], [None] for [-1]. *)
Fixpoint findIndex {A : Type} (f : A -> bool) (l : list A) : option nat :=
  match l with
  | [] => None
  | x :: l' => if f x then Some O else S <$> findIndex f l'
  end.

Definition clip_marker : jsstring := dquote :: js "clip" ++ dquote :: js ":{".

(** [resolveSunoPromptToken(html, token)] *)
Definition resolveSunoPromptToken (html token : jsstring) : option jsstring :=
  if negb (test token_ref token) then None
  else
    let chunks := extractSunoFlightChunks html in
    let id := drop 1 token in
    let ahead :=
      match findIndex (fun c => includes (id ++ js ":T") c || includes (id ++ js ":") c) chunks with
      | Some ti => find looksLikeSunoLyrics (take 7 (drop (S ti) chunks))
      | None => None
      end in
    match ahead with
    | Some c => Some (trim c)
    | None =>
        let before :=
          match findIndex (includes clip_marker) chunks with
          | Some (S ci) =>
              match chunks !! ci with
              | Some c => if looksLikeSunoLyrics c then Some c else None
              | None => None
              end
          | _ => None
          end in
        match before with
        | Some c => Some (trim c)
        | None => trim <$> find looksLikeSunoLyrics chunks
        end
    end.

(** A computation that returns or throws. *)
Inductive outcome (A : Type) : Type :=
| Return (a : A)
| Throw.
Arguments Return {A} a.
Arguments Throw {A}.

#[global] Instance outcome_bind : MBind outcome :=
  fun A B k m => match m with Return a => k a | Throw => Throw end.

(** [try { m } catch { h }] *)
Definition try_catch {A : Type} (m : outcome A) (h : outcome A) : outcome A :=
  match m with
  | Return a => Return a
  | Throw => h
  end.

(** [/^[0-9a-fA-F-]{36}$/] *)
Definition isHexDash (x : Z) : bool :=
  isDigit x || in_range (chr "a") (chr "f") x || in_range (chr "A") (chr "F") x
  || eqc (chr "-") x.

Definition song_id : re := seq_of [Bol; Rep 36 (Chr isHexDash); Eol].

Section Suno.

(** Numbers of parsed JSON are read for their truth value only. *)
Variable number : Type.
Variable number_truthy : number -> bool.

(** The values [JSON.parse] builds, and [undefined]; an object holds
    one binding for each of its keys. *)
Inductive jsval : Type :=
| VUndefined
| VNull
| VBool (b : bool)
| VNum (n : number)
| VStr (s : jsstring)
| VArr (l : list jsval)
| VObj (fields : list (jsstring * jsval)).

Definition is_truthy (v : jsval) : bool :=
  match v with
  | VUndefined | VNull => false
  | VBool b => b
  | VNum n => number_truthy n
  | VStr s => nonempty s
  | VArr _ | VObj _ => true
  end.

(** [typeof v === 'object'] *)
Definition typeof_object (v : jsval) : bool :=
  match v with
  | VNull | VArr _ | VObj _ => true
  | _ => false
  end.

Fixpoint field (k : jsstring) (fs : list (jsstring * jsval)) : jsval :=
  match fs with
  | [] => VUndefined
  | (k', v) :: fs' => if list_eqb k k' then v else field k fs'
  end.

(** [v.k] for one of the keys [metadata], [displayed_lyrics], [prompt],
    which no prototype defines: reading a property of [undefined] or
    [null] throws. *)
Definition get (v : jsval) (k : jsstring) : outcome jsval :=
  match v with
  | VUndefined | VNull => Throw
  | VObj fs => Return (field k fs)
  | _ => Return VUndefined
  end.

(** [a || b], where reading [b] may throw. *)
Definition or_else (a : jsval) (b : outcome jsval) : outcome jsval :=
  if is_truthy a then Return a else b.

(** [v.trim()]: only a string has the method. *)
Definition call_trim (v : jsval) : outcome jsstring :=
  match v with
  | VStr s => Return (trim s)
  | _ => Throw
  end.

(** [s || null] *)
Definition or_null (s : jsstring) : option jsstring :=
  if nonempty s then Some s else None.

Record Response : Type := { ok : bool; text : outcome jsstring }.

(** [new URL(url)], [fetch(url, ...)] and [JSON.parse(text)]. *)
Variable parseURL : jsstring -> option URL.
Variable fetch : jsstring -> outcome Response.
Variable JSON_parse : jsstring -> outcome jsval.

(** The [try] block of [extractSunoLyrics]. *)
Definition lyricsOfClip (html clipJson : jsstring) : outcome (option jsstring) :=
  clip ← JSON_parse clipJson;
  md ← get clip (js "metadata");
  let meta := if is_truthy md && typeof_object md then md else VObj [] in
  d1 ← get clip (js "displayed_lyrics");
  d2 ← or_else d1 (get meta (js "displayed_lyrics"));
  d ← call_trim (if is_truthy d2 then d2 else VStr []);
  let displayed := or_null d in
  if match displayed with
     | Some dl => negb (test token_ref dl) && negb (test instrumental dl)
     | None => false
     end
  then Return (slice0 20000 <$> displayed)
  else
    p1 ← get meta (js "prompt");
    p ← call_trim (if is_truthy p1 then p1 else VStr []);
    match or_null p with
    | None => Return None
    | Some prompt =>
        if test instrumental prompt then Return None
        else
          let resolved :=
            if test token_ref prompt then resolveSunoPromptToken html prompt
            else Some prompt in
          match resolved with
          | None | Some [] => Return None
          | Some r => if test token_ref r then Return None else Return (Some (slice0 20000 r))
          end
    end.

(** [extractSunoLyrics(html)] *)
Definition extractSunoLyrics (html : jsstring) : outcome (option jsstring) :=
  let norm := normaliseSunoEscapes html in
  let clipIdx := indexOf clip_marker norm 0 in
  if clipIdx =? -1 then Return None
  else
    let objStart := indexOf (js "{") norm (Z.to_nat (clipIdx + 7)) in
    if objStart =? -1 then Return None
    else
      match extractJsonObject norm (Z.to_nat objStart) with
      | None => Return None
      | Some clipJson => try_catch (lyricsOfClip html clipJson) (Return None)
      end.

(** [fetchSunoLyrics(pageUrl)], the awaited value. *)
Definition fetchSunoLyrics (pageUrl : jsstring) : outcome (option jsstring) :=
  try_catch
    (u ← match parseURL pageUrl with Some u => Return u | None => Throw end;
     if negb (list_eqb (hostname u) (js "suno.com"))
        && negb (list_eqb (hostname u) (js "www.suno.com"))
     then Return None
     else
       let parts := filter (fun l => nonempty l = true) (split (chr "/") (pathname u)) in
       match parts with
       | p0 :: id :: _ =>
           if negb (list_eqb p0 (js "song")) then Return None
           else if negb (test song_id id) then Return None
           else
             res ← fetch (js "https://suno.com/embed/" ++ id);
             if negb (ok res) then Return None
             else
               html ← text res;
               extractSunoLyrics html
       | _ => Return None
       end)
    (Return None).

End Suno.

(** ** Titles, artists, extensions *)

Definition TITLE_TAGS : list jsstring := [js "og:title"; js "twitter:title"].

Definition not_lt : Z -> bool := none_of (js "<").

(** [/<title[^>]*>([^<]+)<\/title>/i] *)
Definition title_re : re :=
  seq_of [lit_i (js "<title"); Star true (Chr not_gt); Chr (eqc (chr ">"));
          Group (Plus (Chr not_lt)); lit_i (js "</title>")].

(** [extractTitle(html)]; the group takes part in every match of the
    pattern, so [match[1]] is a string. *)
Definition extractTitle (html : jsstring) : option jsstring :=
  match match1 title_re html with
  | Some group1 => trim <$> group1
  | None => None
  end.

(** [decodeEntities(str)]: [None] is [null], both as the argument and
    as the result. *)
Definition decodeEntities (str : option jsstring) : option jsstring :=
  match str with
  | None | Some [] => None
  | Some s =>
      Some (trim
        (replace_all (lit (js "&quot;")) [dquote]
           (replace_all (lit (js "&gt;")) (js ">")
              (replace_all (lit (js "&lt;")) (js "<")
                 (replace_all (lit (js "&amp;")) (js "&")
                    (replace_all (lit (js "&#x27;")) [squote] s))))))
  end.

(** The word characters of [\b] (the pattern has no [u] flag, so the
    [i] flag adds none). *)
Definition isWordChar (x : Z) : bool := isLetter x || isDigit x || eqc (chr "_") x.

(** [\b]: of the code unit before the position and the one after it,
    just one is a word character. *)
Definition word_boundary (prev : option Z) (s : jsstring) : bool :=
  xorb (from_option isWordChar false prev) (from_option isWordChar false (head s)).

(** The leftmost match of [\b] followed by [r], at or after index [i]:
    [s] is the input from [i] on and [prev] the code unit before it. *)
Fixpoint exec_b_from (r : re) (prev : option Z) (i : nat) (s : jsstring)
    : option (nat * state) :=
  match (if word_boundary prev s then run r (St i s None) else []) with
  | st :: _ => Some (i, st)
  | [] =>
      match s with
      | [] => None
      | x :: s' => exec_b_from r (Some x) (S i) s'
      end
  end.

Definition not_handle : Z -> bool := none_of (js "(@").

(** What follows the artist: [(?:\s*\(@[^)]+\))?[.\s]+(Listen|on\s)]. *)
Definition artist_end : re :=
  seq_of [Alt (seq_of [Star true (Chr isWhiteSpace); Chr (eqc (chr "(")); Chr (eqc (chr "@"));
                       Plus (Chr (none_of (js ")"))); Chr (eqc (chr ")"))])
              Eps;
          Plus (Chr dot_or_space);
          Alt (lit_i (js "Listen")) (Seq (lit_i (js "on")) (Chr isWhiteSpace))].

(** [/\bby\s+([^(@]+?)(?:\s*\(@[^)]+\))?[.\s]+(Listen|on\s)/i] after
    its [\b].  The code reads the first group only; the second one is
    written without its capture. *)
Definition artist_re : re :=
  seq_of [lit_i (js "by"); Plus (Chr isWhiteSpace);
          Group (Seq (Chr not_handle) (Star false (Chr not_handle)));
          artist_end].

(** [extractArtist(html)] *)
Definition extractArtist (html : jsstring) : option jsstring :=
  match extractMeta html (js "description") with
  | None | Some [] => None
  | Some desc =>
      match exec_b_from artist_re None 0 desc with
      | Some (_, st) => decodeEntities (trim <$> cap st) ≫= or_null
      | None => None
      end
  end.

Definition valid_extensions : list jsstring :=
  [js "mp3"; js "mp4"; js "m4a"; js "wav"; js "ogg"; js "flac"; js "aac"; js "opus";
   js "wma"; js "webm"].

(** [guessExtension(url)].  [split] gives at least one piece, so [[0]]
    and [pop()] are defined.  Lower-casing is the ASCII folding: the
    only code units outside ASCII whose lower case holds an ASCII letter
    are U+212A (to k) and U+0130 (to i and U+0307), and no extension of
    the list holds a k or U+0307, so the folding decides membership in
    the list as [toLowerCase] does, with the same member as result. *)
Definition guessExtension (url : jsstring) : jsstring :=
  let path := default [] (head (split (chr "?") url)) in
  let ext := toLowerCase (default [] (last (split (chr ".") path))) in
  if existsb (list_eqb ext) valid_extensions then ext else js "mp3".

(** ** The page fetch *)

(** A computation that returns or throws an error with a message. *)
Inductive result (A : Type) : Type :=
| Ok (a : A)
| Err (message : jsstring).
Arguments Ok {A} a.
Arguments Err {A} message.

#[global] Instance result_bind : MBind result :=
  fun A B k m => match m with Ok a => k a | Err e => Err e end.

(** What the code reads of the response to the page fetch: [ok],
    [status], [headers.get('content-length')] and the awaited [text()]. *)
Record PageResponse : Type := {
  page_ok : bool;
  page_status : Z;
  content_length : option jsstring;
  page_text : result jsstring
}.

Definition MAX_HTML_SIZE : Z := 2 * 1024 * 1024.

(** [parseInt(s, 10)]: leading whitespace, a sign, then the longest run
    of decimal digits; [None] is [NaN].  The number is only compared
    with [MAX_HTML_SIZE], which rounding to a double does not change. *)
Definition parseInt10 (s : jsstring) : option Z :=
  let s1 := dropWhile isWhiteSpace s in
  let '(sign, s2) :=
    match s1 with
    | c :: r => if c =? chr "-" then (-1, r) else if c =? chr "+" then (1, r) else (1, s1)
    | [] => (1, s1)
    end in
  match takeWhile isDigit s2 with
  | [] => None
  | ds => Some (sign * fold_left (fun a d => 10 * a + (d - 48)) ds 0)
  end.

(** The decimal digits of an integer, as a template literal prints a
    status code. *)
Definition decimal (n : Z) : jsstring := js (NilZero.string_of_int (Z.to_int n)).

(** The loop of [extractAudioInfo] over [TITLE_TAGS]: the first value
    that is not empty. *)
Fixpoint findTitle (html : jsstring) (tags : list jsstring) : option jsstring :=
  match tags with
  | [] => None
  | tag :: tags' =>
      match extractMeta html tag with
      | Some (c :: t) => Some (c :: t)
      | _ => findTitle html tags'
      end
  end.

(** What the code reads of a request: its method, the path of its URL,
    the header [cf-connecting-ip] and the query parameter [url]. *)
Record Request : Type := {
  method : jsstring;
  path : jsstring;
  cf_connecting_ip : option jsstring;
  url_param : option jsstring
}.

(** The JSON body of a reply and its status. *)
Inductive Body : Type :=
| ErrorBody (error : jsstring)
| InfoBody (info : AudioInfo).

Record Reply : Type := { status : Z; body : Body }.

(** The clock reads of one request, in the order they are made: by
    [checkRateLimit], by [getCached] and the two of [setCache]. *)
Record Clock : Type := { t_rate : Z; t_get : Z; t_set : Z; t_sweep : Z }.

(** [/^https?:\/\//i] *)
Definition scheme_re : re :=
  seq_of [Bol; lit_i (js "http"); Alt (Chr (eqc_i (chr "s"))) Eps; lit (js "://")].

(** What the router answers: the CORS preflight, a reply of the API,
    or the frontend page. *)
Inductive Served : Type :=
| Preflight
| Api (r : Reply)
| Frontend.

Section Worker.

Variable number : Type.
Variable number_truthy : number -> bool.

(** [new URL(url)], [JSON.parse(text)], and [fetch(url, ...)] at its two
    call sites, which send different request headers: the page fetch of
    [extractAudioInfo] and the embed fetch of [fetchSunoLyrics]. *)
Variable parseURL : jsstring -> option URL.
Variable fetchPage : jsstring -> result PageResponse.
Variable fetchEmbed : jsstring -> outcome Response.
Variable JSON_parse : jsstring -> outcome (jsval number).

(** [extractAudioInfo(url)] from the fetch to the result object. *)
Definition scrape (url : jsstring) : result (option AudioInfo) :=
  response ← fetchPage url;
  if negb (page_ok response)
  then Err (js "Failed to fetch page: HTTP " ++ decimal (page_status response))
  else
    let contentLength :=
      parseInt10 match content_length response with
                 | Some (c :: l) => c :: l
                 | _ => js "0"
                 end in
    if match contentLength with Some n => n >? MAX_HTML_SIZE | None => false end
    then Err (js "Page too large to process")
    else
      html ← page_text response;
      if (Z.of_nat (length html) >? MAX_HTML_SIZE)
      then Err (js "Page too large to process")
      else
        match extractAudio html with
        | None => Ok None
        | Some (audioUrl, foundTag) =>
            let title :=
              match findTitle html TITLE_TAGS with
              | Some t => Some t
              | None => extractTitle html
              end in
            let title :=
              match decodeEntities title with
              | Some (c :: t) => c :: t
              | _ => js "audio"
              end in
            let image := extractMeta html (js "og:image") in
            let artist := extractArtist html in
            lyrics ← match fetchSunoLyrics number number_truthy parseURL fetchEmbed
                             JSON_parse url with
                     | Return l => Ok l
                     | Throw => Err []
                     end;
            let ext := guessExtension audioUrl in
            let filenameBase :=
              match artist with
              | Some a => sanitiseFilename a ++ js " - " ++ sanitiseFilename title
              | None => sanitiseFilename title
              end in
            Ok (Some {| audioUrl := audioUrl; title := title; artist := artist;
                        lyrics := lyrics; filename := filenameBase ++ js "." ++ ext;
                        image := image; sourceTag := foundTag; pageUrl := url |})
        end.

(** [extractAudioInfo(url)]: the awaited value or the error thrown,
    with the cache. *)
Definition extractAudioInfo (clock : Clock) (url : jsstring)
    (cache : gmap (list Z) CacheEntry)
    : result (option AudioInfo) * gmap (list Z) CacheEntry :=
  match getCached (t_get clock) url cache with
  | (Some cached, cache1) => (Ok (Some cached), cache1)
  | (None, cache1) =>
      match scrape url with
      | Ok (Some info) =>
          (Ok (Some info), setCache (t_set clock) (t_sweep clock) url info cache1)
      | r => (r, cache1)
      end
  end.

Definition reply_error (code : Z) (message : jsstring) : Reply :=
  {| status := code; body := ErrorBody message |}.

(** [handleInfo(request)]: the reply, with the rate limiter's map and
    the cache. *)
Definition handleInfo (clock : Clock) (request : Request)
    (rateLimitMap : gmap (list Z) RateEntry) (cache : gmap (list Z) CacheEntry)
    : Reply * gmap (list Z) RateEntry * gmap (list Z) CacheEntry :=
  let ip :=
    match cf_connecting_ip request with
    | Some (c :: i) => c :: i
    | _ => js "unknown"
    end in
  let '(allowed, rateLimitMap) := checkRateLimit (t_rate clock) ip rateLimitMap in
  if negb allowed
  then (reply_error 429 (js "Too many requests. Please wait a moment and try again."),
        rateLimitMap, cache)
  else
    match url_param request with
    | None | Some [] => (reply_error 400 (js "Missing ?url= parameter"), rateLimitMap, cache)
    | Some targetUrl =>
        let normalizedUrl :=
          if test scheme_re targetUrl then targetUrl else js "https://" ++ targetUrl in
        match validateUrl parseURL normalizedUrl with
        | Some urlError => (reply_error 400 urlError, rateLimitMap, cache)
        | None =>
            match extractAudioInfo clock normalizedUrl cache with
            | (Ok (Some info), cache) =>
                ({| status := 200; body := InfoBody info |}, rateLimitMap, cache)
            | (Ok None, cache) =>
                (reply_error 404
                   (js "No og:audio or twitter:player:stream meta tag found on this page"),
                 rateLimitMap, cache)
            | (Err message, cache) => (reply_error 502 message, rateLimitMap, cache)
            end
        end
    end.

(** The router: [fetch(request)] of the worker. *)
Definition worker_fetch (clock : Clock) (request : Request)
    (rateLimitMap : gmap (list Z) RateEntry) (cache : gmap (list Z) CacheEntry)
    : Served * gmap (list Z) RateEntry * gmap (list Z) CacheEntry :=
  if list_eqb (method request) (js "OPTIONS") then (Preflight, rateLimitMap, cache)
  else if list_eqb (path request) (js "/api/info")
  then let '(r, rateLimitMap, cache) := handleInfo clock request rateLimitMap cache in
       (Api r, rateLimitMap, cache)
  else (Frontend, rateLimitMap, cache).

End Worker.

(** ** The frontend script *)

(** [normalizeUrl(s)] *)
Definition normalizeUrl (s : jsstring) : jsstring :=
  let s := trim s in
  if nonempty s && negb (test scheme_re s) then js "https://" ++ s else s.

(** [parseUrls(text)] *)
Definition parseUrls (text : jsstring) : list jsstring :=
  filter (fun s => nonempty s && startsWith (js "http") s = true)
    (normalizeUrl <$> split newline text).

(** [escHtml(s)] *)
Definition escHtml (s : jsstring) : jsstring :=
  replace_all (Chr (eqc dquote)) (js "&quot;")
    (replace_all (Chr (eqc (chr ">"))) (js "&gt;")
       (replace_all (Chr (eqc (chr "<"))) (js "&lt;")
          (replace_all (Chr (eqc (chr "&"))) (js "&amp;") s))).

(** The entity [escHtml] writes for a character, and the text in which
    the characters of [cs] are written as their entities. *)
Definition entity (x : Z) : jsstring :=
  if x =? chr "&" then js "&amp;"
  else if x =? chr "<" then js "&lt;"
  else if x =? chr ">" then js "&gt;"
  else if x =? dquote then js "&quot;"
  else [x].

Definition escaped (cs : jsstring) (s : jsstring) : jsstring :=
  flat_map (fun x => if one_of cs x then entity x else [x]) s.

(** ** The hosts the validator refuses *)

(** The prefixes the pattern of [validateUrl] spells out: its [172.]
    alternative stands for the sixteen prefixes from [172.16.] to
    [172.31.]. *)
Definition private_prefixes : list jsstring :=
  [js "127."; js "10."; js "192.168.";
   js "172.16."; js "172.17."; js "172.18."; js "172.19.";
   js "172.20."; js "172.21."; js "172.22."; js "172.23."; js "172.24.";
   js "172.25."; js "172.26."; js "172.27."; js "172.28."; js "172.29.";
   js "172.30."; js "172.31.";
   js "0."; js "169.254."; js "::1"; js "fc"; js "fd"; js "fe80"].

(** ** Object texts *)

(** The inside of a string literal: code units other than the backslash
    and the double quote, and escapes, a backslash with the code unit
    that follows it. *)
Inductive string_body : jsstring -> Prop :=
| body_nil : string_body []
| body_chr (x : Z) (s : jsstring) :
    x <> backslash -> x <> dquote -> string_body s -> string_body (x :: s)
| body_esc (x : Z) (s : jsstring) :
    string_body s -> string_body (backslash :: x :: s).

(** A text in which every brace outside a string literal is matched:
    code units other than quotes and braces, string literals, and
    objects in braces. *)
Inductive balanced : jsstring -> Prop :=
| bal_nil : balanced []
| bal_chr (x : Z) (s : jsstring) :
    x <> dquote -> x <> chr "{" -> x <> chr "}" -> balanced s -> balanced (x :: s)
| bal_str (body s : jsstring) :
    string_body body -> balanced s -> balanced (dquote :: body ++ dquote :: s)
| bal_obj (inner s : jsstring) :
    balanced inner -> balanced s -> balanced (chr "{" :: inner ++ chr "}" :: s).

(** ** Calls of several clients *)

(** Successive calls of [checkRateLimit], each with its clock read and
    its client: the answers and the map in the end. *)
Fixpoint checkRateLimit_trace (calls : list (Z * jsstring))
    (rateLimitMap : gmap (list Z) RateEntry) : list bool * gmap (list Z) RateEntry :=
  match calls with
  | [] => ([], rateLimitMap)
  | (now, ip) :: later =>
      let '(ok, m) := checkRateLimit now ip rateLimitMap in
      let '(oks, m') := checkRateLimit_trace later m in
      (ok :: oks, m')
  end.

(** ** Result objects *)

(** A result object for the page [url]: it names the page, its audio
    URL and its title are not empty, its source tag is one of
    [META_TAGS], and its file name holds none of the characters the
    sanitiser replaces and ends with a dot and the extension guessed
    from the audio URL. *)
Definition well_formed (url : jsstring) (info : AudioInfo) : Prop :=
  pageUrl info = url ∧ audioUrl info ≠ [] ∧ In (sourceTag info) META_TAGS ∧
  title info ≠ [] ∧
  Forall (fun x => unsafe_char x = false) (filename info) ∧
  ∃ base, filename info = base ++ js "." ++ guessExtension (audioUrl info).

(** ** Escaped texts *)

(** The escape of the flight stream that [normaliseSunoEscapes] reads
    back for a character, and the text in which the characters of [cs]
    are written as their escapes. *)
Definition flight_escape (x : Z) : jsstring :=
  if x =? dquote then [backslash; dquote]
  else if x =? chr "<" then backslash :: js "u003c"
  else if x =? chr ">" then backslash :: js "u003e"
  else if x =? chr "&" then backslash :: js "u0026"
  else if x =? newline then backslash :: js "n"
  else [x].

Definition flight_escaped (cs : jsstring) (s : jsstring) : jsstring :=
  flat_map (fun x => if one_of cs x then flight_escape x else [x]) s.

(** ** Matches away from the start of the input *)

(** A pattern without [^]. *)
Fixpoint bol_free (r : re) : bool :=
  match r with
  | Eps | Chr _ | Eol => true
  | Seq a b | Alt a b => bol_free a && bol_free b
  | Star _ a | Group a => bol_free a
  | Bol => false
  end.

(** A state, and an item of a scan, [d] code units further in a longer
    input. *)
Definition shift (d : nat) (st : state) : state := St (idx st + d) (rest st) (cap st).

Definition shift_item (d : nat) (it : item) : item :=
  match it with
  | Unit x => Unit x
  | Match st => Match (shift d st)
  end.

(** The text that opens a push of the flight stream and the text that
    closes it, as [flight_chunk] spells them. *)
Definition flight_open : jsstring := js "self.__next_f.push([1," ++ [dquote].
Definition flight_close : jsstring := dquote :: js "])</script>".

(** ** Artists *)

(** A pattern without a capturing group, and a state with another
    capture. *)
Fixpoint group_free (r : re) : bool :=
  match r with
  | Eps | Chr _ | Eol | Bol => true
  | Seq a b | Alt a b => group_free a && group_free b
  | Star _ a => group_free a
  | Group _ => false
  end.

Definition recap (c : option jsstring) (st : state) : state := St (idx st) (rest st) c.

(** [\bby\s]: the word [by], in any case, followed by whitespace; the
    places of a text where it stands, in order. *)
Definition by_at (prev : option Z) (s : jsstring) : bool :=
  word_boundary prev s && startsWith_i (js "by") s
  && from_option isWhiteSpace false (head (drop 2 s)).

Fixpoint by_places (prev : option Z) (i : nat) (s : jsstring) : list nat :=
  (if by_at prev s then [i] else [])
  ++ match s with
     | [] => []
     | x :: s' => by_places (Some x) (S i) s'
     end.

(** * Sample inputs *)

(** ** URLs *)

Definition mkURL (proto host path : string) : URL :=
  {| protocol := js proto; hostname := js host; pathname := js path |}.

(** What the WHATWG URL parser of the platform gives on the URLs the
    specification names: the scheme with its colon, the serialised host
    (an IPv6 address keeps its brackets), the path.  An instance of
    [new URL] to run the functions on. *)
Definition sample_urls : list (jsstring * URL) :=
  [(js "http://127.0.0.1/x", mkURL "http:" "127.0.0.1" "/x");
   (js "http://10.0.0.5/", mkURL "http:" "10.0.0.5" "/");
   (js "http://localhost/", mkURL "http:" "localhost" "/");
   (js "ftp://example.com/", mkURL "ftp:" "example.com" "/");
   (js "https://example.com/page", mkURL "https:" "example.com" "/page");
   (js "https://[::1]/", mkURL "https:" "[::1]" "/");
   (js "https://[fd00::1]/", mkURL "https:" "[fd00::1]" "/");
   (js "https://[fe80::1]/", mkURL "https:" "[fe80::1]" "/");
   (js "https://fcbarcelona.com/", mkURL "https:" "fcbarcelona.com" "/");
   (js "ftp://fcbarcelona.com/", mkURL "ftp:" "fcbarcelona.com" "/");
   (js "https://suno.com/song/0123abcd-4567-89ef-0123-456789abcdef",
    mkURL "https:" "suno.com" "/song/0123abcd-4567-89ef-0123-456789abcdef")].

Fixpoint assoc {A : Type} (k : jsstring) (l : list (jsstring * A)) : option A :=
  match l with
  | [] => None
  | (k', v) :: l' => if list_eqb k k' then Some v else assoc k l'
  end.

Definition sample_parseURL (url : jsstring) : option URL := assoc url sample_urls.

(** ** Pages *)

(** Sample pages: the scenario of the specification, and a page with a
    lower-priority tag before a content-first tag in single quotes. *)
Definition scenario_pre : jsstring :=
  jsq "<html><head><meta charset=`utf-8`><meta property=`og:title` content=`Song &amp; Dance`>".

Definition scenario_post : jsstring := js "</head><body></body></html>".

Definition stream_pre : jsstring :=
  jsq "<head><meta content=`https://cdn.x.com/t.mp4` name=`twitter:player:stream`>"
  ++ [newline].

(** Pages on which the value returned is not the content of the tag. *)
Definition apostrophe_page : jsstring :=
  meta_tag true (js "property") dquote (js "og:audio") dquote (js "https://cdn.x.com/it's.mp3").

Definition content_suffix_page : jsstring :=
  meta_tag true (js "property") dquote (js "og:audio") dquote (js "https://x.com/a?content=")
  ++ jsq "<p class=`a`>".

Definition open_value_page : jsstring :=
  jsq "<meta content=`x>y` "
  ++ meta_tag false (js "property") dquote (js "og:audio") dquote (js "https://cdn.x.com/a.mp3").

Definition two_tags_page : jsstring :=
  meta_tag false (js "property") dquote (js "og:audio") dquote (js "https://cdn.x.com/a.mp3")
  ++ meta_tag true (js "property") dquote (js "og:audio") dquote (js "https://cdn.x.com/b.mp3").

Definition second_content_page : jsstring :=
  jsq "<meta content=`https://cdn.x.com/a.mp3` property=`og:audio` content=`https://cdn.x.com/b.mp3`>".

Definition inner_gt_page : jsstring :=
  jsq "<meta property=`og:audio` title=`a>b` content=`https://cdn.x.com/a.mp3`>".

Definition no_space_page : jsstring :=
  jsq "<meta property=`og:audio`content=`https://cdn.x.com/a.mp3`>".

Definition unquoted_page : jsstring :=
  js "<meta property=og:audio content=https://cdn.x.com/a.mp3>".

(** ** Texts *)

(** Five lines of one word, and a text that opens with a capitalised
    label. *)
Definition repeated_words : jsstring :=
  js_lines ["la la la la la la"; "la la la la la la"; "la la la la la la";
            "la la la la la la"; "la la la la la la"]%string.

Definition capitalised_label : jsstring :=
  js_lines ["Chorus: alpha bravo charlie delta echo";
            "foxtrot golf hotel india juliet kilo";
            "lima mike november oscar papa quebec";
            "romeo sierra tango uniform victor whiskey"]%string.

(** ** An embed page *)

Definition sample_song : jsstring :=
  js "https://suno.com/song/0123abcd-4567-89ef-0123-456789abcdef".

Definition sample_lyrics : jsstring :=
  js_lines ["alpha bravo charlie delta echo foxtrot";
            "golf hotel india juliet kilo lima";
            "mike november oscar papa quebec romeo";
            "sierra tango uniform victor whiskey xray"]%string.

(** Three pushes of the flight stream: the row that announces text
    [12], the text itself, and the row of the clip, whose prompt is the
    reference [$12]. *)
Definition sample_embed : jsstring :=
  jsq "<script>self.__next_f.push([1,`12:T9c,`])</script>"
  ++ jsq "<script>self.__next_f.push([1,`alpha bravo charlie delta echo foxtrot\ngolf hotel india juliet kilo lima\nmike november oscar papa quebec romeo\nsierra tango uniform victor whiskey xray`])</script>"
  ++ jsq "<script>self.__next_f.push([1,`5:{\`clip\`:{\`id\`:\`0123\`,\`metadata\`:{\`prompt\`:\`$12\`}}}`])</script>".

Definition sample_clip_text : jsstring :=
  jsq "{`id`:`0123`,`metadata`:{`prompt`:`$12`}}".

Definition sample_fetch (url : jsstring) : outcome Response :=
  if list_eqb url (js "https://suno.com/embed/0123abcd-4567-89ef-0123-456789abcdef")
  then Return {| ok := true; text := Return sample_embed |}
  else Throw.

Definition sample_JSON_parse (t : jsstring) : outcome (jsval Z) :=
  if list_eqb t sample_clip_text
  then Return (VObj Z [(js "id", VStr Z (js "0123"));
                       (js "metadata", VObj Z [(js "prompt", VStr Z (js "$12"))])])
  else Throw.

Definition sample_fetchSunoLyrics : jsstring -> outcome (option jsstring) :=
  fetchSunoLyrics Z (fun n => negb (n =? 0)) sample_parseURL sample_fetch sample_JSON_parse.


(** ** A request *)

Definition sample_page : jsstring :=
  scenario_pre
  ++ meta_tag true (js "property") dquote (js "og:audio") dquote
       (js "https://cdn.x.com/a.MP4?sig=1")
  ++ jsq "<meta name=`description` content=`Song &amp; Dance by The Band (@band). Listen now.`>"
  ++ scenario_post.

Definition sample_fetchPage (url : jsstring) : result PageResponse :=
  if list_eqb url (js "https://example.com/page")
  then Ok {| page_ok := true; page_status := 200; content_length := Some (js "421");
             page_text := Ok sample_page |}
  else Err (js "fetch failed").

Definition sample_request : Request :=
  {| method := js "GET"; path := js "/api/info";
     cf_connecting_ip := Some (js "203.0.113.9");
     url_param := Some (js "example.com/page") |}.

Definition sample_clock : Clock :=
  {| t_rate := 1000; t_get := 1001; t_set := 1500; t_sweep := 1501 |}.

Definition sample_info : AudioInfo :=
  {| audioUrl := js "https://cdn.x.com/a.MP4?sig=1"; title := js "Song & Dance";
     artist := Some (js "The Band"); lyrics := None;
     filename := js "The Band - Song & Dance.mp4"; image := None;
     sourceTag := js "og:audio"; pageUrl := js "https://example.com/page" |}.

Definition sample_handleInfo :=
  handleInfo Z (fun n => negb (n =? 0)) sample_parseURL sample_fetchPage sample_fetch
    sample_JSON_parse.

(** * Properties *)

(** ** Strings *)

Lemma startsWith_spec (w s : list Z) :
  startsWith w s = true ↔ ∃ r, s = w ++ r.
Proof.
  revert s. induction w as [|a w IH]; intros s; simpl.
  - split; [intros _; by exists s|done].
  - destruct s as [|b s].
    + split; [done|intros [r Hr]; discriminate].
    + rewrite andb_true_iff, IH, Z.eqb_eq. split.
      * intros [-> [r ->]]. by exists r.
      * intros [r [= -> ->]]. split; [done|by exists r].
Qed.

Lemma includes_spec (w s : list Z) :
  includes w s = true ↔ ∃ a b, s = a ++ w ++ b.
Proof.
  induction s as [|x s IH]; simpl.
  - rewrite orb_false_r, startsWith_spec. split.
    + intros [r Hr]. by exists [], r.
    + intros (a & b & Hab). destruct a; [by exists b|discriminate].
  - rewrite orb_true_iff, startsWith_spec, IH. split.
    + intros [[r Hr]|(a & b & ->)]; [by exists [], r|by exists (x :: a), b].
    + intros ([|y a] & b & Hab); [left; by exists b|].
      injection Hab as -> ->. right. by exists a, b.
Qed.

Lemma dropWhile_app_stop (p : Z → bool) (w s : list Z) :
  Forall (λ x, p x = true) w →
  dropWhile p (w ++ s) = dropWhile p s.
Proof. induction 1 as [|x w Hx _ IH]; simpl; [done|by rewrite Hx]. Qed.

Lemma dropWhile_all (p : Z → bool) (s : list Z) :
  forallb p s = true → dropWhile p s = [].
Proof.
  induction s as [|x s IH]; simpl; [done|].
  destruct (p x); simpl; [done|discriminate].
Qed.

Lemma dropWhile_head (p : Z → bool) (s : list Z) (x : Z) :
  head (dropWhile p s) = Some x → p x = false.
Proof.
  induction s as [|y s IH]; simpl; [done|].
  destruct (p y) eqn:Hy; [done|]. simpl. by intros [= <-].
Qed.

Lemma dropWhile_fixed (p : Z → bool) (s : list Z) :
  (∀ x, head s = Some x → p x = false) → dropWhile p s = s.
Proof. destruct s as [|y s]; simpl; [done|]. intros H. by rewrite (H y eq_refl). Qed.

Lemma dropWhile_Forall (P : Z → Prop) (p : Z → bool) (s : list Z) :
  Forall P s → Forall P (dropWhile p s).
Proof.
  induction 1 as [|x s Hx Hs IH]; simpl; [done|].
  destruct (p x); [done|by constructor].
Qed.

Lemma forallb_rev (p : Z → bool) (s : list Z) : forallb p (rev s) = forallb p s.
Proof.
  induction s as [|x s IH]; simpl; [done|].
  rewrite forallb_app, IH. simpl. rewrite andb_true_r. apply andb_comm.
Qed.

Lemma dropWhile_snoc (p : Z → bool) (l : list Z) (x : Z) :
  forallb p l = false → dropWhile p (l ++ [x]) = dropWhile p l ++ [x].
Proof.
  induction l as [|y l IH]; simpl; [done|].
  destruct (p y); simpl; [apply IH|done].
Qed.

Lemma dropWhileEnd_cons (p : Z → bool) (x : Z) (s : list Z) :
  dropWhileEnd p (x :: s) = if forallb p (x :: s) then [] else x :: dropWhileEnd p s.
Proof.
  unfold dropWhileEnd. simpl.
  destruct (forallb p s) eqn:Hs.
  - rewrite dropWhile_app_stop.
    + rewrite (dropWhile_all p (rev s)) by (by rewrite forallb_rev).
      simpl. by destruct (p x).
    + apply Forall_forall. intros y Hy. apply list_elem_of_In, in_rev in Hy.
      rewrite forallb_forall in Hs. by apply Hs.
  - rewrite andb_false_r, dropWhile_snoc by (by rewrite forallb_rev).
    by rewrite rev_app_distr.
Qed.

Lemma last_rev (s : list Z) : last (rev s) = head s.
Proof. destruct s as [|x s]; [done|]. simpl. apply last_snoc. Qed.
(** ** The matcher *)

Lemma flat_map_single {A B : Type} (f : A → list B) (a : A) : flat_map f [a] = f a.
Proof. simpl. apply app_nil_r. Qed.

Lemma flat_map_unit {A : Type} (l : list A) : flat_map (λ a, [a]) l = l.
Proof. induction l as [|a l IH]; simpl; [done|by rewrite IH]. Qed.

Lemma run_seq_of_cons (r : re) (rs : list re) (st : state) :
  run (seq_of (r :: rs)) st = flat_map (run (seq_of rs)) (run r st).
Proof.
  destruct rs as [|r' rs]; [|done].
  simpl. symmetry. apply flat_map_unit.
Qed.

Lemma in_run_seq_of_cons (r : re) (rs : list re) (st st' : state) :
  In st' (run (seq_of (r :: rs)) st) ↔
  ∃ st1, In st1 (run r st) ∧ In st' (run (seq_of rs) st1).
Proof. rewrite run_seq_of_cons. apply in_flat_map. Qed.

Lemma in_run_seq (a b : re) (st st' : state) :
  In st' (run (Seq a b) st) ↔ ∃ st1, In st1 (run a st) ∧ In st' (run b st1).
Proof. apply in_flat_map. Qed.

Lemma in_run_alt (a b : re) (st st' : state) :
  In st' (run (Alt a b) st) ↔ In st' (run a st) ∨ In st' (run b st).
Proof. apply in_app_iff. Qed.

Lemma in_run_chr (p : Z → bool) (st st' : state) :
  In st' (run (Chr p) st) ↔
  ∃ x, p x = true ∧ reaches st [x] st' ∧ cap st' = cap st.
Proof.
  unfold reaches. destruct st as [i s c], st' as [i' s' c']. simpl.
  destruct s as [|x s]; simpl.
  - split; [done|]. intros (x & _ & [? _] & _). discriminate.
  - destruct (p x) eqn:Hx; simpl.
    + split.
      * intros [[= <- <- <-]|[]]. exists x. repeat split; [done|lia].
      * intros (y & _ & [[= <- <-] ->] & ->). left. f_equal. lia.
    + split; [done|]. intros (y & Hy & [[= <- <-] _] & _). congruence.
Qed.

Lemma star_chr (g : bool) (p : Z → bool) (s : list Z) (i : nat) (c : option (list Z)) :
  star g (run (Chr p)) (length s) (St i s c) =
    match s with
    | x :: xs =>
        if p x then
          if g then star g (run (Chr p)) (length xs) (St (S i) xs c) ++ [St i s c]
          else St i s c :: star g (run (Chr p)) (length xs) (St (S i) xs c)
        else [St i s c]
    | [] => [St i s c]
    end.
Proof.
  destruct s as [|x xs]; [done|]. simpl.
  destruct (p x); simpl; [|by destruct g].
  rewrite app_nil_r.
  destruct (Nat.ltb_spec (length xs) (S (length xs))); [done|lia].
Qed.

Lemma in_run_star_chr (g : bool) (p : Z → bool) (st st' : state) :
  In st' (run (Star g (Chr p)) st) ↔
  ∃ w, Forall (λ x, p x = true) w ∧ reaches st w st' ∧ cap st' = cap st.
Proof.
  destruct st as [i s c]. unfold reaches.
  change (run (Star g (Chr p)) (St i s c))
    with (star g (run (Chr p)) (length s) (St i s c)).
  cbn [rest idx cap].
  revert i. induction s as [|x s IH]; intros i.
  - rewrite (star_chr g p [] i c). simpl. split.
    + intros [<-|[]]. exists []. simpl. repeat split; [done|lia].
    + intros (w & _ & [Hw Hi] & Hc). left.
      symmetry in Hw. apply app_eq_nil in Hw as [-> Hs].
      destruct st'; simpl in *. subst. f_equal. lia.
  - rewrite (star_chr g p (x :: s) i c).
    assert (In st' [St i (x :: s) c] ↔
            ((x :: s = [] ++ rest st' ∧ idx st' = (i + 0)%nat) ∧ cap st' = c)) as Hstop.
    { simpl. split.
      - intros [<-|[]]. simpl. repeat split; lia.
      - intros [[Hs Hi] Hc]. left. destruct st'; simpl in *. subst. f_equal. lia. }
    destruct (p x) eqn:Hx.
    + assert (In st' (star g (run (Chr p)) (length s) (St (S i) s c) ++ [St i (x :: s) c]) ↔
              ∃ w, Forall (λ x, p x = true) w ∧
                   (x :: s = w ++ rest st' ∧ idx st' = (i + length w)%nat) ∧ cap st' = c) as Hboth.
      { rewrite in_app_iff, IH, Hstop. split.
        - intros [(w & Hw & [Hs Hi] & Hc)|[[Hs Hi] Hc]].
          + exists (x :: w). simpl. repeat split; [by constructor|by rewrite Hs|lia|done].
          + exists []. simpl in *. repeat split; (done || lia).
        - intros ([|y w] & Hw & [Hs Hi] & Hc).
          + right. simpl in *. repeat split; (done || lia).
          + left. injection Hs as -> Hs. inversion Hw; subst.
            exists w. simpl in *. repeat split; (done || lia). }
      destruct g; [done|]. rewrite <- Hboth, !in_app_iff. simpl. tauto.
    + rewrite Hstop. split.
      * intros [[Hs Hi] Hc]. exists []. by repeat split.
      * intros ([|y w] & Hw & [Hs Hi] & Hc); [by repeat split|].
        injection Hs as -> Hs. inversion Hw; subst. congruence.
Qed.

Lemma in_run_plus_chr (p : Z → bool) (st st' : state) :
  In st' (run (Plus (Chr p)) st) ↔
  ∃ w, w ≠ [] ∧ Forall (λ x, p x = true) w ∧ reaches st w st' ∧ cap st' = cap st.
Proof.
  unfold Plus. rewrite in_run_seq. split.
  - intros (st1 & H1 & H2). apply in_run_chr in H1 as (x & Hx & [Hs Hi] & Hc).
    apply in_run_star_chr in H2 as (w & Hw & [Hs' Hi'] & Hc').
    exists (x :: w). unfold reaches. simpl in *. rewrite Hs, Hs'.
    repeat split; [done|by constructor|lia|congruence].
  - intros ([|x w] & Hne & Hw & [Hs Hi] & Hc); [done|].
    inversion Hw; subst.
    exists (St (S (idx st)) (w ++ rest st') (cap st)). split.
    + apply in_run_chr. exists x. unfold reaches. simpl. repeat split; [done|done|lia].
    + apply in_run_star_chr. exists w. unfold reaches. simpl in *.
      repeat split; [done|lia|done].
Qed.

Lemma run_seq (a b : re) (st : state) :
  run (Seq a b) st = flat_map (run b) (run a st).
Proof. done. Qed.

Lemma run_chr_cons (p : Z → bool) (x : Z) (s : list Z) (i : nat) (c : option (list Z)) :
  run (Chr p) (St i (x :: s) c) = if p x then [St (S i) s c] else [].
Proof. done. Qed.

Lemma run_chr_nil (p : Z → bool) (i : nat) (c : option (list Z)) :
  run (Chr p) (St i [] c) = [].
Proof. done. Qed.

Lemma run_star_chr_greedy (p : Z → bool) (s : list Z) (i : nat) (c : option (list Z)) :
  ∃ k tl, run (Star true (Chr p)) (St i s c) = St (i + k) (dropWhile p s) c :: tl.
Proof.
  change (run (Star true (Chr p)) (St i s c))
    with (star true (run (Chr p)) (length s) (St i s c)).
  revert i. induction s as [|x s IH]; intros i.
  - exists 0%nat, []. simpl. do 2 f_equal. lia.
  - rewrite star_chr. cbn [dropWhile]. destruct (p x).
    + destruct (IH (S i)) as (k & tl & ->).
      exists (S k), (tl ++ [St i (x :: s) c]). simpl. do 2 f_equal. lia.
    + exists 0%nat, []. do 2 f_equal. lia.
Qed.

Lemma in_run_eol (st st' : state) :
  In st' (run Eol st) ↔ st' = st ∧ rest st = [].
Proof.
  simpl. destruct (rest st); simpl; [|naive_solver]. split; [|naive_solver].
  intros [<-|[]]. done.
Qed.

Lemma in_run_bol (st st' : state) :
  In st' (run Bol st) ↔ st' = st ∧ idx st = 0%nat.
Proof.
  simpl. destruct (Nat.eqb_spec (idx st) 0); simpl; [|naive_solver].
  split; [|naive_solver]. intros [<-|[]]. done.
Qed.

Lemma in_run_group (a : re) (st st' : state) :
  In st' (run (Group a) st) ↔ ∃ st1, In st1 (run a st) ∧ st' = close st st1.
Proof.
  simpl. rewrite <- list_elem_of_In, list_elem_of_fmap.
  setoid_rewrite <- list_elem_of_In. naive_solver.
Qed.

(** Reading a literal, under the [i] flag or not. *)
Lemma in_run_chars (f : Z → Z → bool) (w : list Z) (st st' : state) :
  In st' (run (seq_of (Chr ∘ f <$> w)) st) ↔
  ∃ w', Forall2 (λ a b, f a b = true) w w' ∧ reaches st w' st' ∧ cap st' = cap st.
Proof.
  revert st. induction w as [|a w IH]; intros st.
  - simpl. unfold reaches. split.
    + intros [<-|[]]. exists []. simpl. repeat split; [constructor|lia].
    + intros (w' & Hw & [Hs Hi] & Hc). inversion Hw; subst. left.
      destruct st, st'; simpl in *. subst. f_equal. lia.
  - rewrite fmap_cons, in_run_seq_of_cons. split.
    + intros (st1 & H1 & H2). apply in_run_chr in H1 as (x & Hx & [Hs Hi] & Hc).
      apply IH in H2 as (w' & Hw' & [Hs' Hi'] & Hc').
      exists (x :: w'). unfold reaches. simpl in *. rewrite Hs, Hs'.
      repeat split; [by constructor|lia|congruence].
    + intros (w' & Hw & [Hs Hi] & Hc). inversion Hw as [|? x ? w1 Hax Hw1]; subst.
      exists (St (S (idx st)) (w1 ++ rest st') (cap st)). split.
      * apply in_run_chr. exists x. unfold reaches. simpl. repeat split; [done|done|lia].
      * apply IH. exists w1. unfold reaches. simpl in *. repeat split; [done|lia|done].
Qed.

Lemma in_run_lit (w : list Z) (st st' : state) :
  In st' (run (lit w) st) ↔ reaches st w st' ∧ cap st' = cap st.
Proof.
  unfold lit. rewrite in_run_chars. split.
  - intros (w' & Hw & Hr & Hc). split; [|done].
    assert (w' = w) as ->; [|done].
    clear -Hw. induction Hw as [|a b w w' Hab _ IH]; [done|].
    unfold eqc in Hab. apply Z.eqb_eq in Hab. by subst.
  - intros [Hr Hc]. exists w. split; [|done].
    clear. induction w; constructor; [apply Z.eqb_refl|done].
Qed.

Lemma in_run_lit_i (w : list Z) (st st' : state) :
  In st' (run (lit_i w) st) ↔
  ∃ w', same_i w w' ∧ reaches st w' st' ∧ cap st' = cap st.
Proof.
  unfold lit_i, same_i. rewrite in_run_chars. split.
  - intros (w' & Hw & H). exists w'. split; [|done].
    eapply Forall2_impl; [exact Hw|]. intros a b Hab. by apply Z.eqb_eq in Hab.
  - intros (w' & Hw & H). exists w'. split; [|done].
    eapply Forall2_impl; [exact Hw|]. intros a b Hab. by apply Z.eqb_eq.
Qed.

(** The leftmost match. *)
Lemma exec_from_Some (r : re) (s : list Z) (i j : nat) (st : state) :
  exec_from r i s = Some (j, st) ↔
  ∃ k, j = (i + k)%nat ∧ (k ≤ length s)%nat ∧
       head (run r (St j (drop k s) None)) = Some st ∧
       ∀ k', (k' < k)%nat → run r (St (i + k') (drop k' s) None) = [].
Proof.
  revert i. induction s as [|x s IH]; intros i; simpl.
  - destruct (run r (St i [] None)) as [|st0 tl] eqn:Hrun.
    + split; [done|]. intros (k & -> & Hk & Hhd & _).
      assert (k = 0)%nat as -> by (simpl in Hk; lia).
      rewrite Nat.add_0_r in Hhd. simpl in Hhd. by rewrite Hrun in Hhd.
    + split.
      * intros [= <- <-]. exists 0%nat. rewrite Nat.add_0_r. simpl.
        rewrite Hrun. repeat split; [done|]. intros; lia.
      * intros (k & -> & Hk & Hhd & _).
        assert (k = 0)%nat as -> by (simpl in Hk; lia).
        rewrite Nat.add_0_r in Hhd |- *. simpl in Hhd. rewrite Hrun in Hhd.
        by injection Hhd as ->.
  - destruct (run r (St i (x :: s) None)) as [|st0 tl] eqn:Hrun.
    + rewrite IH. split.
      * intros (k & -> & Hk & Hhd & Hnone). exists (S k).
        repeat split; [lia|lia|exact Hhd|].
        intros [|k'] Hk'; [by rewrite Nat.add_0_r|].
        rewrite Nat.add_succ_r. apply Hnone. lia.
      * intros ([|k] & -> & Hk & Hhd & Hnone).
        { rewrite Nat.add_0_r in Hhd. simpl in Hhd. by rewrite Hrun in Hhd. }
        exists k. repeat split; [lia|lia|exact Hhd|].
        intros k' Hk'. specialize (Hnone (S k')).
        rewrite Nat.add_succ_r in Hnone. apply Hnone. lia.
    + split.
      * intros [= <- <-]. exists 0%nat. rewrite Nat.add_0_r. simpl.
        rewrite Hrun. repeat split; [lia|]. intros; lia.
      * intros ([|k] & -> & Hk & Hhd & Hnone).
        { rewrite Nat.add_0_r in Hhd |- *. simpl in Hhd. rewrite Hrun in Hhd.
          by injection Hhd as ->. }
        specialize (Hnone 0%nat). rewrite Nat.add_0_r in Hnone. simpl in Hnone.
        rewrite Hrun in Hnone. discriminate Hnone. lia.
Qed.

Lemma exec_from_None (r : re) (s : list Z) (i : nat) :
  exec_from r i s = None ↔
  ∀ k, (k ≤ length s)%nat → run r (St (i + k) (drop k s) None) = [].
Proof.
  revert i. induction s as [|x s IH]; intros i; simpl.
  - destruct (run r (St i [] None)) as [|st0 tl] eqn:Hrun.
    + split; [|done]. intros _ k Hk. assert (k = 0)%nat as -> by lia.
      by rewrite Nat.add_0_r.
    + split; [done|]. intros H. specialize (H 0%nat). rewrite Nat.add_0_r in H.
      simpl in H. rewrite Hrun in H. discriminate H. lia.
  - destruct (run r (St i (x :: s) None)) as [|st0 tl] eqn:Hrun.
    + rewrite IH. split.
      * intros H [|k] Hk; [by rewrite Nat.add_0_r|].
        rewrite Nat.add_succ_r. apply H. lia.
      * intros H k Hk. specialize (H (S k)). rewrite Nat.add_succ_r in H.
        apply H. lia.
    + split; [done|]. intros H. specialize (H 0%nat). rewrite Nat.add_0_r in H.
      simpl in H. rewrite Hrun in H. discriminate H. lia.
Qed.

(** A pattern that opens with [^] matches at index 0 or nowhere. *)
Lemma run_bol_later (r : re) (i : nat) (s : list Z) (c : option (list Z)) :
  run (Seq Bol r) (St (S i) s c) = [].
Proof. done. Qed.

Lemma exec_from_bol_later (r : re) (s : list Z) (i : nat) :
  exec_from (Seq Bol r) (S i) s = None.
Proof. revert i. induction s as [|x s IH]; intros i; simpl; [done|apply IH]. Qed.

Lemma exec_bol (r : re) (s : list Z) :
  exec (Seq Bol r) s =
    match run r (St 0 s None) with
    | st :: _ => Some (0%nat, st)
    | [] => None
    end.
Proof.
  unfold exec. destruct s as [|x s]; simpl; rewrite app_nil_r.
  - by destruct (run r _).
  - destruct (run r _); [apply exec_from_bol_later|done].
Qed.

Lemma test_bol (r : re) (s : list Z) :
  test (Seq Bol r) s = true ↔ ∃ st, In st (run r (St 0 s None)).
Proof.
  unfold test. rewrite exec_bol. destruct (run r _) as [|st tl].
  - split; [done|]. intros [st []].
  - split; [|done]. intros _. exists st. by left.
Qed.

Lemma matched_unit (x : Z) (its : list item) : matched (Unit x :: its) = matched its.
Proof. done. Qed.

Lemma matched_match (st : state) (its : list item) :
  matched (Match st :: its) = st :: matched its.
Proof. done. Qed.

Lemma reaches_refl (st : state) : reaches st [] st.
Proof. unfold reaches. split; [done|simpl; lia]. Qed.

Lemma reaches_trans (st1 st2 st3 : state) (w1 w2 : list Z) :
  reaches st1 w1 st2 → reaches st2 w2 st3 → reaches st1 (w1 ++ w2) st3.
Proof.
  unfold reaches. intros [Hs1 Hi1] [Hs2 Hi2]. split.
  - by rewrite Hs1, Hs2, app_assoc.
  - rewrite length_app. lia.
Qed.

(** Every outcome of the matcher lies further on in the same input. *)
Lemma star_reaches (g : bool) (step : state → list state) :
  (∀ st st', In st' (step st) → ∃ w, reaches st w st') →
  ∀ fuel st st', In st' (star g step fuel st) → ∃ w, reaches st w st'.
Proof.
  intros Hstep. induction fuel as [|n IH]; intros st st'; simpl.
  - intros [<-|[]]. exists []. apply reaches_refl.
  - assert (In st' (flat_map (λ st1, if (length (rest st1) <? length (rest st))%nat
                                      then star g step n st1 else []) (step st)) →
            ∃ w, reaches st w st') as Hmore.
    { rewrite in_flat_map. intros (st1 & H1 & H2).
      destruct (_ <? _)%nat; [|done].
      apply Hstep in H1 as [w1 H1]. apply IH in H2 as [w2 H2].
      exists (w1 ++ w2). by eapply reaches_trans. }
    destruct g.
    + rewrite in_app_iff. intros [H|[<-|[]]]; [by apply Hmore|].
      exists []. apply reaches_refl.
    + intros [<-|H]; [|by apply Hmore]. exists []. apply reaches_refl.
Qed.

Lemma run_reaches (r : re) (st st' : state) :
  In st' (run r st) → ∃ w, reaches st w st'.
Proof.
  revert st st'. induction r as [|p|a IHa b IHb|a IHa b IHb|g a IHa|a IHa| |];
    intros st st'.
  - intros [<-|[]]. exists []. apply reaches_refl.
  - intros H. apply in_run_chr in H as (x & _ & H & _). by exists [x].
  - intros H. apply in_run_seq in H as (st1 & H1 & H2).
    apply IHa in H1 as [w1 H1]. apply IHb in H2 as [w2 H2].
    exists (w1 ++ w2). by eapply reaches_trans.
  - intros H. apply in_run_alt in H as [H|H]; [by apply IHa|by apply IHb].
  - apply star_reaches. exact IHa.
  - intros H. apply in_run_group in H as (st1 & H1 & ->).
    apply IHa in H1 as [w H1]. exists w. exact H1.
  - intros H. apply in_run_bol in H as [-> _]. exists []. apply reaches_refl.
  - intros H. apply in_run_eol in H as [-> _]. exists []. apply reaches_refl.
Qed.

Lemma on_page_reaches (html w : list Z) (st st' : state) :
  on_page html st → reaches st w st' → on_page html st'.
Proof.
  unfold on_page, reaches. intros [Hs Hi] [Hw Hi'].
  assert (length (drop (idx st) html) = length w + length (rest st'))%nat as Hlen.
  { rewrite <- Hs, Hw. apply length_app. }
  rewrite length_drop in Hlen. split; [|lia].
  rewrite Hi', <- drop_drop, <- Hs, Hw. by rewrite drop_app_length.
Qed.

Lemma on_page_run (html : list Z) (r : re) (st st' : state) :
  on_page html st → In st' (run r st) → on_page html st'.
Proof.
  intros Hon H. apply run_reaches in H as [w H]. by eapply on_page_reaches.
Qed.

Lemma on_page_start (html : list Z) (k : nat) :
  (k ≤ length html)%nat → on_page html (St k (drop k html) None).
Proof. done. Qed.

(** The fuel of a scan: any amount above the length of the input gives
    the same scan, since a match that is not empty leaves less input. *)
Lemma scan_fuel (r : re) (n : nat) :
  ∀ m s i, (length s < n)%nat → (length s < m)%nat → scan r n i s = scan r m i s.
Proof.
  induction n as [|n IH]; intros m s i Hn Hm; [lia|].
  destruct m as [|m]; [lia|]. cbn [scan].
  destruct (run r (St i s None)) as [|st l] eqn:Hrun.
  - destruct s as [|x s]; [done|]. f_equal. apply IH; simpl in *; lia.
  - assert (In st (run r (St i s None))) as Hin by (rewrite Hrun; by left).
    apply run_reaches in Hin as (w & Hs & Hi). cbn [rest idx] in Hs, Hi.
    destruct (Nat.eqb_spec (idx st) i) as [Heq|Hneq].
    + destruct s as [|x s]; [done|]. do 2 f_equal. apply IH; simpl in *; lia.
    + f_equal. assert (length s = length w + length (rest st))%nat as Hlen
        by (rewrite Hs; apply length_app).
      destruct w as [|y w]; [simpl in Hi; lia|]. simpl in Hlen.
      apply IH; lia.
Qed.
(** ** The rate limiter *)

Lemma checkRateLimit_open (now : Z) (ip : list Z) (m : gmap (list Z) RateEntry) :
  (∀ e : RateEntry, m !! ip = Some e → now - start e > RATE_LIMIT_WINDOW) →
  checkRateLimit now ip m = (true, <[ip := {| start := now; count := 1 |}]> m).
Proof.
  intros Hexp. unfold checkRateLimit.
  destruct (m !! ip) as [e|] eqn:He; [|done].
  specialize (Hexp e eq_refl).
  destruct (Z.gtb_spec (now - start e) RATE_LIMIT_WINDOW); [done|lia].
Qed.

Lemma checkRateLimit_within (now : Z) (ip : list Z) (m : gmap (list Z) RateEntry) (e : RateEntry) :
  m !! ip = Some e → now - start e ≤ RATE_LIMIT_WINDOW →
  checkRateLimit now ip m =
    (count e + 1 <=? RATE_LIMIT_MAX,
     <[ip := {| start := start e; count := count e + 1 |}]> m).
Proof.
  intros He Hin. unfold checkRateLimit. rewrite He.
  destruct (Z.gtb_spec (now - start e) RATE_LIMIT_WINDOW); [lia|done].
Qed.

Lemma checkRateLimit_calls_within later :
  ∀ (ip : list Z) (m : gmap (list Z) RateEntry) (t0 c : Z),
  m !! ip = Some {| start := t0; count := c |} →
  Forall (λ t, t - t0 ≤ RATE_LIMIT_WINDOW) later →
  (∀ i, (i < length later)%nat →
     (checkRateLimit_calls later ip m).1 !! i
       = Some (c + 1 + Z.of_nat i <=? RATE_LIMIT_MAX)) ∧
  (checkRateLimit_calls later ip m).2 !! ip
    = Some {| start := t0; count := c + Z.of_nat (length later) |}.
Proof.
  induction later as [|t later IH]; intros ip m t0 c Hm Hall.
  - split; [intros i Hi; simpl in Hi; lia|].
    simpl. rewrite Hm. do 2 f_equal. lia.
  - inversion Hall as [|? ? Ht Hall']; subst.
    simpl. rewrite (checkRateLimit_within t ip m _ Hm Ht). simpl.
    destruct (IH ip (<[ip := {| start := t0; count := c + 1 |}]> m) t0 (c + 1))
      as [IH1 IH2]; [apply lookup_insert_eq|done|].
    destruct (checkRateLimit_calls later ip _) as [oks m'] eqn:Hcalls.
    simpl in *. split.
    + intros [|i] Hi; simpl.
      * do 2 f_equal. lia.
      * rewrite IH1 by lia. do 2 f_equal. lia.
    + rewrite IH2. do 2 f_equal. lia.
Qed.

(** C2. One client, calling at [t0] when it has no entry or its window
    has run out (more than 60 s since its start), and then at the clock
    reads [later], none more than 60 s after [t0]: the call number [i]
    (from 0) is admitted exactly when [i < 15], and the stored count is
    the number of calls made, rejected ones included, with the window
    still started at [t0]. With no later call: admitted, count 1. *)
Theorem checkRateLimit_fixed_window (ip : list Z) (m : gmap (list Z) RateEntry)
    (t0 : Z) (later : list Z) :
  (∀ e : RateEntry, m !! ip = Some e → t0 - start e > RATE_LIMIT_WINDOW) →
  Forall (λ t, t - t0 ≤ RATE_LIMIT_WINDOW) later →
  (∀ i, (i ≤ length later)%nat →
     (checkRateLimit_calls (t0 :: later) ip m).1 !! i = Some (bool_decide (i < 15)%nat)) ∧
  (checkRateLimit_calls (t0 :: later) ip m).2 !! ip
    = Some {| start := t0; count := 1 + Z.of_nat (length later) |} ∧
  checkRateLimit t0 ip m = (true, <[ip := {| start := t0; count := 1 |}]> m).
Proof.
  intros Hopen Hall. pose proof (checkRateLimit_open t0 ip m Hopen) as H0.
  split; [|split; [|done]].
  - intros i Hi. simpl. rewrite H0.
    destruct (checkRateLimit_calls_within later ip
                (<[ip := {| start := t0; count := 1 |}]> m) t0 1) as [H1 _];
      [apply lookup_insert_eq|done|].
    destruct (checkRateLimit_calls later ip _) as [oks m'] eqn:Hcalls. simpl in *.
    destruct i as [|i]; simpl; [done|].
    rewrite H1 by lia. f_equal. unfold RATE_LIMIT_MAX.
    destruct (Z.leb_spec (1 + 1 + Z.of_nat i) 15);
      [rewrite bool_decide_eq_true_2|rewrite bool_decide_eq_false_2]; (done || lia).
  - simpl. rewrite H0.
    destruct (checkRateLimit_calls_within later ip
                (<[ip := {| start := t0; count := 1 |}]> m) t0 1) as [_ H2];
      [apply lookup_insert_eq|done|].
    destruct (checkRateLimit_calls later ip _) as [oks m'] eqn:Hcalls. simpl in *.
    done.
Qed.

Lemma checkRateLimit_fixed_window_witness :
  (∀ i, (i ≤ 17)%nat →
     (checkRateLimit_calls (70000 :: replicate 17 130000) (js "203.0.113.9")
        {[ js "203.0.113.9" := {| start := 0; count := 40 |} ]}).1 !! i
       = Some (bool_decide (i < 15)%nat)) ∧
  (checkRateLimit_calls (70000 :: replicate 17 130000) (js "203.0.113.9")
     {[ js "203.0.113.9" := {| start := 0; count := 40 |} ]}).2 !! js "203.0.113.9"
    = Some {| start := 70000; count := 18 |} ∧
  checkRateLimit 70000 (js "203.0.113.9")
    {[ js "203.0.113.9" := {| start := 0; count := 40 |} ]}
    = (true, <[js "203.0.113.9" := {| start := 70000; count := 1 |}]>
               {[ js "203.0.113.9" := {| start := 0; count := 40 |} ]}).
Proof.
  apply (checkRateLimit_fixed_window (js "203.0.113.9")
           {[ js "203.0.113.9" := {| start := 0; count := 40 |} ]} 70000
           (replicate 17 130000)).
  - intros e He. rewrite lookup_singleton_eq in He. injection He as <-.
    unfold RATE_LIMIT_WINDOW. simpl. lia.
  - unfold RATE_LIMIT_WINDOW. repeat constructor; lia.
Defined.
(** ** The response cache *)

Lemma setCache_lookup (now now' : Z) (url : list Z) (d : AudioInfo)
    (cache : gmap (list Z) CacheEntry) (k : list Z) (e : CacheEntry) :
  (200 < size (<[url := {| data := d; time := now |}]> cache))%nat →
  setCache now now' url d cache !! k = Some e ↔
  <[url := {| data := d; time := now |}]> cache !! k = Some e ∧ now' - time e ≤ CACHE_TTL.
Proof.
  intros Hbig. unfold setCache.
  destruct (Nat.ltb_spec 200 (size (<[url := {| data := d; time := now |}]> cache))); [|lia].
  rewrite map_lookup_filter_Some. simpl. split; intros [? ?]; (split; [done|lia]).
Qed.

Lemma setCache_small (now now' : Z) (url : list Z) (d : AudioInfo)
    (cache : gmap (list Z) CacheEntry) :
  (size (<[url := {| data := d; time := now |}]> cache) ≤ 200)%nat →
  setCache now now' url d cache = <[url := {| data := d; time := now |}]> cache.
Proof.
  intros Hsmall. unfold setCache.
  destruct (Nat.ltb_spec 200 (size (<[url := {| data := d; time := now |}]> cache))); [lia|done].
Qed.

Lemma setCache_own (now now' : Z) (url : list Z) (d : AudioInfo)
    (cache : gmap (list Z) CacheEntry) :
  now' - now ≤ CACHE_TTL →
  setCache now now' url d cache !! url = Some {| data := d; time := now |}.
Proof.
  intros Hsoon.
  destruct (Nat.lt_ge_cases 200 (size (<[url := {| data := d; time := now |}]> cache)))
    as [Hbig|Hsmall].
  - apply setCache_lookup; [done|]. split; [apply lookup_insert_eq|done].
  - rewrite setCache_small by done. apply lookup_insert_eq.
Qed.

(** C4. [getCached] returns a value exactly when the entry of the URL
    was stamped less than the TTL (5 minutes) before the lookup, and it
    is the stored value; on a stale entry it returns absent and deletes
    the entry; [setCache] inserts the entry stamped with the clock read
    and, when the map then holds more than 200 entries, keeps exactly the
    entries that are not older than the TTL at the sweep's clock read,
    and otherwise keeps them all; a lookup after a [setCache] finds the
    value until the TTL has run out. *)
Theorem cache_contract (now now' : Z) (url : list Z) (d : AudioInfo)
    (cache : gmap (list Z) CacheEntry) :
  (∀ v : AudioInfo, (getCached now url cache).1 = Some v ↔
     ∃ e : CacheEntry, cache !! url = Some e ∧ data e = v ∧ now - time e < CACHE_TTL) ∧
  (∀ e : CacheEntry, cache !! url = Some e → CACHE_TTL ≤ now - time e →
     getCached now url cache = (None, delete url cache)) ∧
  ((∀ e : CacheEntry, cache !! url = Some e → now - time e < CACHE_TTL) →
     (getCached now url cache).2 = cache) ∧
  ((200 < size (<[url := {| data := d; time := now |}]> cache))%nat →
     ∀ (k : list Z) (e : CacheEntry),
       setCache now now' url d cache !! k = Some e ↔
       <[url := {| data := d; time := now |}]> cache !! k = Some e ∧
       ¬ (now' - time e > CACHE_TTL)) ∧
  ((size (<[url := {| data := d; time := now |}]> cache) ≤ 200)%nat →
     setCache now now' url d cache = <[url := {| data := d; time := now |}]> cache) ∧
  (now' - now ≤ CACHE_TTL →
     ∀ t : Z, (getCached t url (setCache now now' url d cache)).1
              = if decide (t - now < CACHE_TTL) then Some d else None).
Proof.
  repeat split.
  - unfold getCached. destruct (cache !! url) as [e|]; [|done].
    destruct (Z.ltb_spec (now - time e) CACHE_TTL); [|done].
    simpl. intros [= <-]. by exists e.
  - intros (e & He & <- & Hfresh). unfold getCached. rewrite He.
    destruct (Z.ltb_spec (now - time e) CACHE_TTL); [done|lia].
  - intros e He Hstale. unfold getCached. rewrite He.
    destruct (Z.ltb_spec (now - time e) CACHE_TTL); [lia|done].
  - intros Hfresh. unfold getCached. destruct (cache !! url) as [e|] eqn:He; [|done].
    specialize (Hfresh e eq_refl).
    destruct (Z.ltb_spec (now - time e) CACHE_TTL); [done|lia].
  - rewrite setCache_lookup in H0 by done. tauto.
  - rewrite setCache_lookup in H0 by done. lia.
  - intros [? ?]. apply setCache_lookup; [done|]. split; [done|lia].
  - apply setCache_small.
  - intros Hsoon t. unfold getCached. rewrite setCache_own by done. simpl.
    destruct (Z.ltb_spec (t - now) CACHE_TTL); case_decide; (done || lia).
Qed.

(** ** Meta tags *)

Ltac list_norm := repeat (progress (rewrite <- ?app_assoc; cbn [app])).

Lemma in_run_single (r : re) (st st' : state) :
  In st' (run (seq_of [r]) st) ↔ In st' (run r st).
Proof. done. Qed.

Lemma in_run_attr (tag : list Z) (st st' : state) :
  In st' (run (attr_re tag) st) ↔
  ∃ k q1 w q2,
    (same_i (js "property") k ∨ same_i (js "name") k) ∧ quote_char q1 = true ∧
    same_i tag w ∧ quote_char q2 = true ∧
    reaches st (k ++ chr "=" :: q1 :: w ++ [q2]) st' ∧ cap st' = cap st.
Proof.
  unfold attr_re. split.
  - intros H.
    apply in_run_seq_of_cons in H as (s1 & H1 & H).
    apply in_run_seq_of_cons in H as (s2 & H2 & H).
    apply in_run_seq_of_cons in H as (s3 & H3 & H).
    apply in_run_seq_of_cons in H as (s4 & H4 & H).
    apply in_run_single in H.
    assert (∃ k, (same_i (js "property") k ∨ same_i (js "name") k) ∧
                 reaches st k s1 ∧ cap s1 = cap st) as (k & Hk & R1 & C1).
    { apply in_run_alt in H1 as [H1|H1]; apply in_run_lit_i in H1 as (k & Hk & HR & HC);
        exists k; tauto. }
    apply in_run_chr in H2 as (x & Hx & R2 & C2). apply Z.eqb_eq in Hx. subst x.
    apply in_run_chr in H3 as (q1 & Hq1 & R3 & C3).
    apply in_run_lit_i in H4 as (w & Hw & R4 & C4).
    apply in_run_chr in H as (q2 & Hq2 & R5 & C5).
    exists k, q1, w, q2. repeat split; try done; [| |congruence].
    + destruct R1 as [-> _], R2 as [-> _], R3 as [-> _], R4 as [-> _], R5 as [-> _].
      by list_norm.
    + destruct R1 as [_ E1], R2 as [_ E2], R3 as [_ E3], R4 as [_ E4], R5 as [_ E5].
      rewrite E5, E4, E3, E2, E1. rewrite !length_app. simpl. rewrite !length_app. simpl. lia.
  - intros (k & q1 & w & q2 & Hk & Hq1 & Hw & Hq2 & [Hs Hi] & Hc).
    destruct st as [i s c], st' as [i' s' c']. cbn [idx rest cap] in *. subst.
    rewrite <- app_assoc.
    apply in_run_seq_of_cons.
    exists (St (i + length k) (chr "=" :: q1 :: w ++ [q2] ++ s') c). split.
    { destruct Hk as [Hk|Hk]; apply in_run_alt; [left|right];
        apply in_run_lit_i; exists k; unfold reaches; simpl;
        by rewrite <- !app_assoc. }
    apply in_run_seq_of_cons.
    exists (St (i + length k + 1) (q1 :: w ++ [q2] ++ s') c). split.
    { apply in_run_chr. exists (chr "="). unfold reaches. simpl. done. }
    apply in_run_seq_of_cons.
    exists (St (i + length k + 2) (w ++ [q2] ++ s') c). split.
    { apply in_run_chr. exists q1. unfold reaches. simpl. repeat split; [done|lia]. }
    apply in_run_seq_of_cons.
    exists (St (i + length k + 2 + length w) ([q2] ++ s') c). split.
    { apply in_run_lit_i. exists w. unfold reaches. simpl. done. }
    apply in_run_single, in_run_chr. exists q2. unfold reaches. simpl.
    repeat split; [done|]. rewrite !length_app. simpl. rewrite !length_app. simpl. lia.
Qed.

Lemma in_run_content (st st' : state) :
  In st' (run content_re st) ↔
  ∃ c8 q3 c q4,
    same_i (js "content=") c8 ∧ quote_char q3 = true ∧
    c ≠ [] ∧ Forall (λ x, not_quote x = true) c ∧ quote_char q4 = true ∧
    reaches st (c8 ++ q3 :: c ++ [q4]) st' ∧ cap st' = Some c.
Proof.
  unfold content_re. split.
  - intros H.
    apply in_run_seq_of_cons in H as (s1 & H1 & H).
    apply in_run_seq_of_cons in H as (s2 & H2 & H).
    apply in_run_seq_of_cons in H as (s3 & H3 & H).
    apply in_run_single in H.
    apply in_run_lit_i in H1 as (c8 & Hc8 & R1 & C1).
    apply in_run_chr in H2 as (q3 & Hq3 & R2 & C2).
    apply in_run_group in H3 as (s3' & H3 & ->).
    apply in_run_plus_chr in H3 as (c & Hne & Hc & R3 & C3).
    apply in_run_chr in H as (q4 & Hq4 & R4 & C4).
    exists c8, q3, c, q4. repeat split; try done.
    + destruct R1 as [-> _], R2 as [-> _], R3 as [-> _], R4 as [E4 _].
      simpl in E4. rewrite E4. by list_norm.
    + destruct R1 as [_ E1], R2 as [_ E2], R3 as [_ E3], R4 as [_ E4].
      simpl in E4. rewrite E4, E3, E2, E1. rewrite !length_app. simpl.
      rewrite !length_app. simpl. lia.
    + rewrite C4. simpl. f_equal. destruct R3 as [-> ->].
      replace (idx s2 + length c - idx s2)%nat with (length c) by lia.
      by rewrite take_app_length.
  - intros (c8 & q3 & c & q4 & Hc8 & Hq3 & Hne & Hc & Hq4 & [Hs Hi] & Hcap).
    destruct st as [i s c0], st' as [i' s' c']. cbn [idx rest cap] in *. subst.
    rewrite <- app_assoc.
    apply in_run_seq_of_cons.
    exists (St (i + length c8) (q3 :: c ++ [q4] ++ s') c0). split.
    { apply in_run_lit_i. exists c8. unfold reaches. simpl. by rewrite <- !app_assoc. }
    apply in_run_seq_of_cons.
    exists (St (i + length c8 + 1) (c ++ [q4] ++ s') c0). split.
    { apply in_run_chr. exists q3. unfold reaches. simpl. done. }
    apply in_run_seq_of_cons.
    exists (St (i + length c8 + 1 + length c) ([q4] ++ s') (Some c)). split.
    { apply in_run_group.
      exists (St (i + length c8 + 1 + length c) ([q4] ++ s') c0). split.
      - apply in_run_plus_chr. exists c. unfold reaches. simpl. done.
      - unfold close. simpl. do 2 f_equal.
        replace (i + length c8 + 1 + length c - (i + length c8 + 1))%nat
          with (length c) by lia.
        by rewrite take_app_length. }
    apply in_run_single, in_run_chr. exists q4. unfold reaches. simpl.
    repeat split; [done|]. rewrite !length_app. simpl. rewrite !length_app. simpl. lia.
Qed.

Lemma positions_spec (r : re) (s : list Z) (k : nat) :
  In k (positions r s) ↔ (k ≤ length s)%nat ∧ matches_at r s k = true.
Proof.
  unfold positions. rewrite <- list_elem_of_In, list_elem_of_filter, list_elem_of_In, in_seq.
  split; intros [? ?]; (split; [done || lia|done || lia]).
Qed.

Lemma matches_at_intro (r : re) (s : list Z) (k : nat) (st : state) :
  In st (run r (St k (drop k s) None)) → matches_at r s k = true.
Proof. unfold matches_at. by destruct (run r _). Qed.

Lemma same_i_length (w w' : list Z) : same_i w w' → length w' = length w.
Proof. intros H. symmetry. by eapply Forall2_length. Qed.

Lemma same_i_refl (w : list Z) : same_i w w.
Proof. unfold same_i. induction w; by constructor. Qed.

(** The naming attribute of a match stands at one of the attribute's
    places in the page. *)
Lemma attr_on_page (html tag : list Z) (st st' : state) :
  on_page html st → In st' (run (attr_re tag) st) →
  In (idx st) (positions (attr_re tag) html).
Proof.
  intros [Hs Hi] H. apply positions_spec. split; [done|].
  apply in_run_attr in H as (k & q1 & w & q2 & Hk & Hq1 & Hw & Hq2 & [HR HI] & _).
  apply (matches_at_intro _ _ _ (St (idx st') (rest st') None)).
  apply in_run_attr. exists k, q1, w, q2. unfold reaches. cbn [idx rest cap].
  rewrite <- Hs. done.
Qed.

Lemma in_run_pattern1 (tag : list Z) (st0 st : state) :
  In st (run (meta_pattern1 tag) st0) ↔
  ∃ s1 s2 s3 s4,
    In s1 (run (lit_i (js "<meta")) st0) ∧ In s2 (run (Plus (Chr not_gt)) s1) ∧
    In s3 (run (attr_re tag) s2) ∧ In s4 (run (Plus (Chr not_gt)) s3) ∧
    In st (run content_re s4).
Proof.
  unfold meta_pattern1. split.
  - intros H.
    apply in_run_seq_of_cons in H as (s1 & H1 & H).
    apply in_run_seq_of_cons in H as (s2 & H2 & H).
    apply in_run_seq_of_cons in H as (s3 & H3 & H).
    apply in_run_seq_of_cons in H as (s4 & H4 & H).
    apply in_run_single in H. by exists s1, s2, s3, s4.
  - intros (s1 & s2 & s3 & s4 & H1 & H2 & H3 & H4 & H).
    apply in_run_seq_of_cons. exists s1. split; [done|].
    apply in_run_seq_of_cons. exists s2. split; [done|].
    apply in_run_seq_of_cons. exists s3. split; [done|].
    apply in_run_seq_of_cons. exists s4. split; [done|].
    by apply in_run_single.
Qed.

Lemma in_run_pattern2 (tag : list Z) (st0 st : state) :
  In st (run (meta_pattern2 tag) st0) ↔
  ∃ s1 s2 s3 s4,
    In s1 (run (lit_i (js "<meta")) st0) ∧ In s2 (run (Plus (Chr not_gt)) s1) ∧
    In s3 (run content_re s2) ∧ In s4 (run (Plus (Chr not_gt)) s3) ∧
    In st (run (attr_re tag) s4).
Proof.
  unfold meta_pattern2. split.
  - intros H.
    apply in_run_seq_of_cons in H as (s1 & H1 & H).
    apply in_run_seq_of_cons in H as (s2 & H2 & H).
    apply in_run_seq_of_cons in H as (s3 & H3 & H).
    apply in_run_seq_of_cons in H as (s4 & H4 & H).
    apply in_run_single in H. by exists s1, s2, s3, s4.
  - intros (s1 & s2 & s3 & s4 & H1 & H2 & H3 & H4 & H).
    apply in_run_seq_of_cons. exists s1. split; [done|].
    apply in_run_seq_of_cons. exists s2. split; [done|].
    apply in_run_seq_of_cons. exists s3. split; [done|].
    apply in_run_seq_of_cons. exists s4. split; [done|].
    by apply in_run_single.
Qed.

(** Any match of either pattern passes through a place of the naming
    attribute. *)
Lemma pattern1_attr (html tag : list Z) (k : nat) (st : state) :
  (k ≤ length html)%nat →
  In st (run (meta_pattern1 tag) (St k (drop k html) None)) →
  ∃ s2 s3 s4, on_page html s2 ∧ In (idx s2) (positions (attr_re tag) html) ∧
              In s3 (run (attr_re tag) s2) ∧ In s4 (run (Plus (Chr not_gt)) s3) ∧
              In st (run content_re s4).
Proof.
  intros Hk H. apply in_run_pattern1 in H as (s1 & s2 & s3 & s4 & H1 & H2 & H3 & H4 & H).
  assert (on_page html s2) as Hon.
  { eapply on_page_run; [|exact H2]. eapply on_page_run; [|exact H1].
    by apply on_page_start. }
  exists s2, s3, s4. repeat split; try done; [apply Hon|apply Hon|].
  by eapply attr_on_page.
Qed.

Lemma pattern2_attr (html tag : list Z) (k : nat) (st : state) :
  (k ≤ length html)%nat →
  In st (run (meta_pattern2 tag) (St k (drop k html) None)) →
  ∃ s2 s3 s4, on_page html s2 ∧ In s3 (run content_re s2) ∧
              In s4 (run (Plus (Chr not_gt)) s3) ∧
              In (idx s4) (positions (attr_re tag) html) ∧
              In st (run (attr_re tag) s4).
Proof.
  intros Hk H. apply in_run_pattern2 in H as (s1 & s2 & s3 & s4 & H1 & H2 & H3 & H4 & H).
  assert (on_page html s2) as Hon.
  { eapply on_page_run; [|exact H2]. eapply on_page_run; [|exact H1].
    by apply on_page_start. }
  assert (on_page html s4) as Hon4.
  { eapply on_page_run; [|exact H4]. eapply on_page_run; [|exact H3]. done. }
  exists s2, s3, s4. repeat split; try done; [apply Hon|apply Hon|].
  by eapply attr_on_page.
Qed.

Lemma exec_None_intro (r : re) (s : list Z) :
  (∀ k st, (k ≤ length s)%nat → ¬ In st (run r (St k (drop k s) None))) →
  exec r s = None.
Proof.
  intros H. unfold exec. apply exec_from_None. intros k Hk. simpl.
  destruct (run r _) as [|st l] eqn:Hrun; [done|].
  exfalso. apply (H k st Hk). rewrite Hrun. by left.
Qed.

Lemma exec_Some_intro (r : re) (s : list Z) (k : nat) (st : state) :
  (k ≤ length s)%nat → In st (run r (St k (drop k s) None)) →
  ∃ j st', (j ≤ length s)%nat ∧ exec r s = Some (j, st') ∧
           In st' (run r (St j (drop j s) None)).
Proof.
  intros Hk Hin. unfold exec.
  destruct (exec_from r 0 s) as [[j st']|] eqn:Hex.
  - exists j, st'. apply exec_from_Some in Hex as (k' & -> & Hk' & Hhd & _).
    rewrite Nat.add_0_l in *. repeat split; [done|].
    destruct (run r (St k' (drop k' s) None)) as [|x l]; [done|].
    injection Hhd as ->. by left.
  - exfalso. rewrite exec_from_None in Hex. specialize (Hex k Hk). simpl in Hex.
    rewrite Hex in Hin. done.
Qed.

(** A page that names a tag in no attribute gives nothing for it. *)
Lemma extractMeta_absent (html tag : list Z) :
  positions (attr_re tag) html = [] → extractMeta html tag = None.
Proof.
  intros Hpos. unfold extractMeta, match1.
  rewrite (exec_None_intro (meta_pattern1 tag)), (exec_None_intro (meta_pattern2 tag)); [done| |].
  - intros k st Hk H. apply pattern2_attr in H as (? & ? & s4 & _ & _ & _ & Hin & _); [|done].
    by rewrite Hpos in Hin.
  - intros k st Hk H. apply pattern1_attr in H as (s2 & ? & ? & _ & Hin & _); [|done].
    by rewrite Hpos in Hin.
Qed.

(** Characters and case folding. *)
Ltac zbool :=
  repeat match goal with
    | |- context [(?a <=? ?b)] => destruct (Z.leb_spec a b)
    | |- context [(?a =? ?b)] => destruct (Z.eqb_spec a b)
    | H : context [(?a <=? ?b)] |- _ => destruct (Z.leb_spec a b)
    | H : context [(?a =? ?b)] |- _ => destruct (Z.eqb_spec a b)
    end; simpl in *; try lia; try done.

Lemma not_quote_quote (x : Z) : not_quote x = negb (quote_char x).
Proof. done. Qed.

Lemma same_i_cons_inv (a : Z) (w k : list Z) :
  same_i (a :: w) k →
  ∃ x k', k = x :: k' ∧ upperAscii x = upperAscii a ∧ same_i w k'.
Proof. intros H. inversion H; subst. eauto. Qed.

Lemma startsWith_i_intro (w k t : list Z) :
  same_i w k → startsWith_i w (k ++ t) = true.
Proof.
  induction 1 as [|a x w k Hax _ IH]; simpl; [done|].
  rewrite Hax, Z.eqb_refl. done.
Qed.

Lemma span_unique (c v r r' : list Z) (q4 q' : Z) :
  c ++ q4 :: r = v ++ q' :: r' →
  Forall (λ x, not_quote x = true) c → Forall (λ x, not_quote x = true) v →
  quote_char q4 = true → quote_char q' = true → c = v.
Proof.
  intros E Hc Hv H4 H'. revert v E Hv.
  induction Hc as [|x c Hx Hc IH]; intros v E Hv.
  - destruct v as [|y v]; [done|]. injection E as -> _.
    inversion Hv; subst. rewrite not_quote_quote in *. by rewrite H4 in *.
  - destruct v as [|y v].
    + injection E as -> _. rewrite not_quote_quote in Hx. by rewrite H' in Hx.
    + injection E as -> E. inversion Hv; subst. f_equal. by apply IH.
Qed.

Lemma dropWhile_stop (p : Z → bool) (w t : list Z) (x : Z) :
  Forall (λ y, p y = true) w → p x = false →
  dropWhile p (w ++ x :: t) = x :: t.
Proof. intros Hw Hx. rewrite dropWhile_app_stop by done. simpl. by rewrite Hx. Qed.
(** *** Reading the content of a tag *)

Lemma gap_spec (s : list Z) :
  gap s = true ↔ s ≠ [] ∧ Forall (λ x, not_gt x = true) s.
Proof.
  destruct s as [|x s]; [by split; [|intros [? _]]|].
  unfold gap. rewrite forallb_forall, Forall_forall.
  setoid_rewrite list_elem_of_In. by split; [|intros [_ ?]].
Qed.

(** The value the content pattern captures at a place is the run of
    characters up to the next quote character. *)
Lemma content_cap (c8 c8' c v r r' : list Z) (q3 q3' q4 q4' : Z) :
  c8 ++ q3 :: c ++ q4 :: r = c8' ++ q3' :: v ++ q4' :: r' →
  same_i (js "content=") c8 → same_i (js "content=") c8' →
  Forall (λ x, not_quote x = true) c → Forall (λ x, not_quote x = true) v →
  quote_char q4 = true → quote_char q4' = true → c = v.
Proof.
  intros E H8 H8' Hc Hv H4 H4'.
  apply app_inj_1 in E as [_ E];
    [|by rewrite (same_i_length _ _ H8), (same_i_length _ _ H8')].
  injection E as _ E. by eapply span_unique.
Qed.

(** At the place of the naming attribute, the attribute the pattern
    reads is the one of the tag. *)
Lemma attr_cancel (a t k w T R : list Z) (q1 q2 q1' q2' : Z) :
  a ++ chr "=" :: q1 :: t ++ q2 :: T = k ++ chr "=" :: q1' :: w ++ q2' :: R →
  same_i (js "property") a ∨ same_i (js "name") a →
  same_i (js "property") k ∨ same_i (js "name") k →
  ∀ tag, same_i tag t → same_i tag w → R = T.
Proof.
  intros E Ha Hk tag Ht Hw.
  assert (length k = length a → R = T) as Hsame.
  { intros Hlen. apply app_inj_1 in E as [_ E]; [|done].
    injection E as _ E. apply app_inj_1 in E as [_ E];
      [|by rewrite (same_i_length _ _ Ht), (same_i_length _ _ Hw)].
    by injection E as _ ->. }
  assert (∀ x, upperAscii x = upperAscii (chr "e") → x ≠ chr "=") as Hletter.
  { intros x Hx ->. vm_compute in Hx. discriminate. }
  destruct Ha as [Ha|Ha], Hk as [Hk|Hk];
    pose proof (same_i_length _ _ Ha) as La; pose proof (same_i_length _ _ Hk) as Lk.
  - apply Hsame. by rewrite La, Lk.
  - exfalso. apply (f_equal (λ l, l !! 4%nat)) in E.
    rewrite (lookup_app_r k) in E by (rewrite Lk; simpl; lia).
    rewrite (lookup_app_l a) in E by (rewrite La; simpl; lia).
    rewrite Lk in E. simpl in E.
    destruct (Forall2_lookup_l _ _ _ 4%nat (chr "e") Ha eq_refl) as (x & Hx & Hfold).
    rewrite Hx in E. injection E as E. by apply (Hletter x Hfold).
  - exfalso. apply (f_equal (λ l, l !! 4%nat)) in E.
    rewrite (lookup_app_l k) in E by (rewrite Lk; simpl; lia).
    rewrite (lookup_app_r a) in E by (rewrite La; simpl; lia).
    rewrite La in E. simpl in E.
    destruct (Forall2_lookup_l _ _ _ 4%nat (chr "e") Hk eq_refl) as (x & Hx & Hfold).
    rewrite Hx in E. injection E as E. symmetry in E. by apply (Hletter x Hfold).
  - apply Hsame. by rewrite La, Lk.
Qed.

(** A match of the content pattern after a gap is one of the places of
    [content_after]. *)
Lemma content_after_intro (T b : list Z) (s4 st : state) :
  rest s4 = drop (length b) T → gap b = true → take (length b) T = b →
  (length b ≤ length T)%nat →
  In st (run content_re s4) → In (length b) (content_after T).
Proof.
  intros Hs4 Hb Htake Hlen H.
  unfold content_after. rewrite <- list_elem_of_In, list_elem_of_filter, list_elem_of_In, in_seq.
  split; [|lia]. rewrite Htake, Hb. simpl.
  apply in_run_content in H as (c8 & q3 & c & q4 & H8 & H3 & Hne & Hc & H4 & [HR _] & _).
  apply (matches_at_intro _ _ _
           (St (length b + length (c8 ++ q3 :: c ++ [q4])) (rest st) (Some c))).
  apply in_run_content. exists c8, q3, c, q4. unfold reaches. cbn [idx rest cap].
  rewrite <- Hs4. done.
Qed.

(** *** The naming attribute first *)

Section AttrFirst.
Variables (before a t g2 c v post tag : list Z) (q1 q2 q3 q4 : Z).

Let html := before ++ naming_attr a q1 t q2 ++ g2 ++ content_attr c q3 v q4 ++ post.

Hypothesis Ha : same_i (js "property") a ∨ same_i (js "name") a.
Hypothesis Ht : same_i tag t.
Hypothesis Hc : same_i (js "content=") c.
Hypothesis Hq4 : quote_char q4 = true.
Hypothesis Hv : Forall (λ x, not_quote x = true) v.
Hypothesis Hpos : positions (attr_re tag) html = [length before].

Lemma pattern1_after (k : nat) (st : state) :
  (k ≤ length html)%nat →
  In st (run (meta_pattern1 tag) (St k (drop k html) None)) →
  ∃ b s4, gap b = true ∧ In st (run content_re s4) ∧
          g2 ++ content_attr c q3 v q4 ++ post = b ++ rest s4.
Proof.
  intros Hk H.
  apply pattern1_attr in H as (s2 & s3 & s4 & [Hs2 _] & Hin & H3 & H4 & H); [|done].
  rewrite Hpos in Hin. destruct Hin as [Hi2|[]].
  rewrite <- Hi2 in Hs2. unfold html in Hs2. rewrite drop_app_length in Hs2.
  apply in_run_attr in H3 as (kk & q1' & w & q2' & Hkk & _ & Hw & _ & [R3 _] & _).
  apply in_run_plus_chr in H4 as (b & Hne & Hb & [R4 _] & _).
  exists b, s4. split; [by apply gap_spec|]. split; [done|].
  rewrite R3 in Hs2. unfold naming_attr in Hs2. rewrite <- R4.
  assert (a ++ chr "=" :: q1 :: t ++ q2 :: g2 ++ content_attr c q3 v q4 ++ post
          = kk ++ chr "=" :: q1' :: w ++ q2' :: rest s3) as E.
  { revert Hs2. list_norm. by intros <-. }
  by rewrite (attr_cancel _ _ _ _ _ _ _ _ _ _ E Ha Hkk tag Ht Hw).
Qed.

Hypothesis Hafter : content_after (g2 ++ content_attr c q3 v q4 ++ post) = [length g2].

Lemma pattern1_value (k : nat) (st : state) :
  (k ≤ length html)%nat →
  In st (run (meta_pattern1 tag) (St k (drop k html) None)) →
  cap st = Some v.
Proof.
  intros Hk H.
  destruct (pattern1_after k st Hk H) as (b & s4 & Hb & Hst & E).
  assert (In (length b) (content_after (g2 ++ content_attr c q3 v q4 ++ post))) as Hin.
  { apply (content_after_intro _ b s4 st); [| done | | | done].
    - by rewrite E, drop_app_length.
    - by rewrite E, take_app_length.
    - rewrite E, length_app. lia. }
  rewrite Hafter in Hin. destruct Hin as [Hlen|[]].
  apply app_inj_1 in E as [_ E]; [|done].
  apply in_run_content in Hst as (c8 & q3' & c' & q4' & H8 & _ & _ & Hc' & H4' & [R5 _] & ->).
  f_equal. rewrite R5 in E. unfold content_attr in E.
  eapply (content_cap c8 c c' v (rest st) post q3' q3 q4' q4); try done.
  revert E. list_norm. by intros <-.
Qed.
End AttrFirst.

Lemma pattern1_match (pre m g1 a t g2 c v post tag : list Z) (q1 q2 q3 q4 : Z) :
  same_i (js "<meta") m → gap g1 = true →
  same_i (js "property") a ∨ same_i (js "name") a → same_i tag t →
  quote_char q1 = true → quote_char q2 = true → gap g2 = true →
  same_i (js "content=") c → quote_char q3 = true → quote_char q4 = true →
  v ≠ [] → Forall (λ x, not_quote x = true) v →
  ∃ st, In st (run (meta_pattern1 tag)
                 (St (length pre)
                    (drop (length pre)
                       (pre ++ meta_element true m g1 (naming_attr a q1 t q2) g2
                                 (content_attr c q3 v q4) ++ post)) None)).
Proof.
  intros Hm [Hg1 Hg1']%gap_spec Ha Ht Hq1 Hq2 [Hg2 Hg2']%gap_spec Hc Hq3 Hq4 Hne Hv.
  rewrite drop_app_length. unfold meta_element, naming_attr, content_attr.
  set (i := length pre).
  set (C := c ++ q3 :: v ++ [q4]).
  set (N := a ++ chr "=" :: q1 :: t ++ [q2]).
  exists (St (i + length m + length g1 + length N + length g2 + length C) post (Some v)).
  apply in_run_pattern1.
  exists (St (i + length m) (g1 ++ N ++ g2 ++ C ++ post) None),
         (St (i + length m + length g1) (N ++ g2 ++ C ++ post) None),
         (St (i + length m + length g1 + length N) (g2 ++ C ++ post) None),
         (St (i + length m + length g1 + length N + length g2) (C ++ post) None).
  split_and!.
  - apply in_run_lit_i. exists m. unfold reaches. cbn [idx rest cap].
    split_and!; [done|by list_norm|done|done].
  - apply in_run_plus_chr. exists g1. unfold reaches. cbn [idx rest cap]. done.
  - apply in_run_attr. exists a, q1, t, q2. unfold reaches, N. cbn [idx rest cap].
    split_and!; done.
  - apply in_run_plus_chr. exists g2. unfold reaches. cbn [idx rest cap]. done.
  - apply in_run_content. exists c, q3, v, q4. unfold reaches, C. cbn [idx rest cap].
    split_and!; done.
Qed.

Lemma extractMeta_attr_first (pre m g1 a t g2 c v post tag : list Z) (q1 q2 q3 q4 : Z) :
  let html := pre ++ meta_element true m g1 (naming_attr a q1 t q2) g2
                       (content_attr c q3 v q4) ++ post in
  same_i (js "<meta") m → gap g1 = true →
  same_i (js "property") a ∨ same_i (js "name") a → same_i tag t →
  quote_char q1 = true → quote_char q2 = true → gap g2 = true →
  same_i (js "content=") c → quote_char q3 = true → quote_char q4 = true →
  v ≠ [] → Forall (λ x, not_quote x = true) v →
  positions (attr_re tag) html = [length (pre ++ m ++ g1)] →
  content_after (g2 ++ content_attr c q3 v q4 ++ post) = [length g2] →
  extractMeta html tag = Some v.
Proof.
  intros html Hm Hg1 Ha Ht Hq1 Hq2 Hg2 Hc Hq3 Hq4 Hne Hv Hpos Hafter.
  destruct (pattern1_match pre m g1 a t g2 c v post tag q1 q2 q3 q4) as [st Hst]; try done.
  fold html in Hst.
  assert (html = (pre ++ m ++ g1) ++ naming_attr a q1 t q2 ++ g2
                   ++ content_attr c q3 v q4 ++ post) as Ehtml.
  { unfold html, meta_element. by list_norm. }
  apply exec_Some_intro in Hst as (j & st' & Hj & Hex & Hin).
  - unfold extractMeta, match1. rewrite Hex.
    rewrite Ehtml in Hin, Hj, Hpos.
    by eapply (pattern1_value (pre ++ m ++ g1) a t g2 c v post tag q1 q2 q3 q4).
  - unfold html. rewrite length_app. lia.
Qed.

(** *** The content first *)

Section ContentFirst.
Variables (lead c v g2 a t post tag : list Z) (q1 q2 q3 q4 : Z).

Let before := lead ++ content_attr c q3 v q4 ++ g2.
Let html := before ++ naming_attr a q1 t q2 ++ post.

Hypothesis Ha : same_i (js "property") a ∨ same_i (js "name") a.
Hypothesis Ht : same_i tag t.
Hypothesis Hc : same_i (js "content=") c.
Hypothesis Hq4 : quote_char q4 = true.
Hypothesis Hv : Forall (λ x, not_quote x = true) v.
Hypothesis Hpos : positions (attr_re tag) html = [length before].

Lemma pattern1_none (k : nat) (st : state) :
  content_after post = [] →
  (k ≤ length html)%nat →
  ¬ In st (run (meta_pattern1 tag) (St k (drop k html) None)).
Proof.
  intros Hafter Hk H.
  apply pattern1_attr in H as (s2 & s3 & s4 & [Hs2 _] & Hin & H3 & H4 & H); [|done].
  rewrite Hpos in Hin. destruct Hin as [Hi2|[]].
  rewrite <- Hi2 in Hs2. unfold html in Hs2. rewrite drop_app_length in Hs2.
  apply in_run_attr in H3 as (kk & q1' & w & q2' & Hkk & _ & Hw & _ & [R3 _] & _).
  apply in_run_plus_chr in H4 as (b & Hne & Hb & [R4 _] & _).
  rewrite R3 in Hs2. unfold naming_attr in Hs2.
  assert (a ++ chr "=" :: q1 :: t ++ q2 :: post
          = kk ++ chr "=" :: q1' :: w ++ q2' :: rest s3) as E.
  { revert Hs2. list_norm. by intros <-. }
  apply (attr_cancel _ _ _ _ _ _ _ _ _ _ E Ha Hkk tag Ht) in Hw. rewrite R4 in Hw.
  assert (In (length b) (content_after post)) as Hin.
  { apply (content_after_intro _ b s4 st); [| by apply gap_spec | | | done].
    - by rewrite <- Hw, drop_app_length.
    - by rewrite <- Hw, take_app_length.
    - rewrite <- Hw, length_app. lia. }
  by rewrite Hafter in Hin.
Qed.

Hypothesis Hbefore : content_before before = [length lead].

Lemma pattern2_value (k : nat) (st : state) :
  (k ≤ length html)%nat →
  In st (run (meta_pattern2 tag) (St k (drop k html) None)) →
  cap st = Some v.
Proof.
  intros Hk H.
  apply pattern2_attr in H as (s2 & s3 & s4 & Hon2 & H3 & H4 & Hin & H); [|done].
  rewrite Hpos in Hin. destruct Hin as [Hi4|[]].
  apply in_run_content in H3 as (c8 & q3' & c' & q4' & H8 & Hq3' & Hne' & Hc' & Hq4' & R3 & C3).
  apply in_run_plus_chr in H4 as (b & Hne & Hb & R4 & C4).
  apply in_run_attr in H as (_ & _ & _ & _ & _ & _ & _ & _ & _ & C5).
  rewrite C5, C4, C3. f_equal.
  assert (on_page html s4) as [Hs4 _].
  { eapply on_page_reaches; [|exact R4]. eapply on_page_reaches; [exact Hon2|exact R3]. }
  destruct Hon2 as [Hs2 Hi2]. destruct R3 as [R3 I3], R4 as [R4 I4].
  rewrite <- Hi4 in Hs4. unfold html in Hs4 at 1. rewrite drop_app_length in Hs4.
  assert (html = take (idx s2) html ++ (c8 ++ q3' :: c' ++ [q4']) ++ b ++ rest s4) as E1.
  { rewrite <- R4, <- R3, Hs2. symmetry. apply take_drop. }
  assert (before = take (idx s2) html ++ (c8 ++ q3' :: c' ++ [q4']) ++ b) as E2.
  { rewrite Hs4 in E1. unfold html in E1 at 1.
    apply (app_inv_tail (naming_attr a q1 t q2 ++ post)). rewrite E1 at 1. by list_norm. }
  assert (length (take (idx s2) html) = idx s2) as Ltake by (rewrite length_take; lia).
  assert (idx s2 ≤ length before)%nat as Lbefore.
  { rewrite E2, length_app. lia. }
  assert (In (idx s2) (content_before before)) as Hin.
  { unfold content_before.
    rewrite <- list_elem_of_In, list_elem_of_filter, list_elem_of_In, in_seq.
    split; [|lia].
    apply existsb_exists.
    exists (St (idx s2 + length (c8 ++ q3' :: c' ++ [q4'])) b (Some c')).
    split; [|by apply gap_spec].
    apply in_run_content. exists c8, q3', c', q4'. unfold reaches. cbn [idx rest cap].
    split_and!; try done.
    rewrite E2 at 1. rewrite <- Ltake at 1. by rewrite drop_app_length. }
  rewrite Hbefore in Hin. destruct Hin as [Hlead|[]].
  assert (content_attr c q3 v q4 ++ g2 = (c8 ++ q3' :: c' ++ [q4']) ++ b) as E3.
  { unfold before in E2. apply app_inj_1 in E2 as [_ E2]; [done|].
    by rewrite Ltake. }
  unfold content_attr in E3.
  eapply (content_cap c8 c c' v b g2 q3' q3 q4' q4); try done.
  revert E3. list_norm. by intros <-.
Qed.
End ContentFirst.

Lemma pattern2_match (pre m g1 a t g2 c v post tag : list Z) (q1 q2 q3 q4 : Z) :
  same_i (js "<meta") m → gap g1 = true →
  same_i (js "property") a ∨ same_i (js "name") a → same_i tag t →
  quote_char q1 = true → quote_char q2 = true → gap g2 = true →
  same_i (js "content=") c → quote_char q3 = true → quote_char q4 = true →
  v ≠ [] → Forall (λ x, not_quote x = true) v →
  ∃ st, In st (run (meta_pattern2 tag)
                 (St (length pre)
                    (drop (length pre)
                       (pre ++ meta_element false m g1 (naming_attr a q1 t q2) g2
                                 (content_attr c q3 v q4) ++ post)) None)).
Proof.
  intros Hm [Hg1 Hg1']%gap_spec Ha Ht Hq1 Hq2 [Hg2 Hg2']%gap_spec Hc Hq3 Hq4 Hne Hv.
  rewrite drop_app_length. unfold meta_element, naming_attr, content_attr.
  set (i := length pre).
  set (C := c ++ q3 :: v ++ [q4]).
  set (N := a ++ chr "=" :: q1 :: t ++ [q2]).
  exists (St (i + length m + length g1 + length C + length g2 + length N) post (Some v)).
  apply in_run_pattern2.
  exists (St (i + length m) (g1 ++ C ++ g2 ++ N ++ post) None),
         (St (i + length m + length g1) (C ++ g2 ++ N ++ post) None),
         (St (i + length m + length g1 + length C) (g2 ++ N ++ post) (Some v)),
         (St (i + length m + length g1 + length C + length g2) (N ++ post) (Some v)).
  split_and!.
  - apply in_run_lit_i. exists m. unfold reaches. cbn [idx rest cap].
    split_and!; [done|by list_norm|done|done].
  - apply in_run_plus_chr. exists g1. unfold reaches. cbn [idx rest cap]. done.
  - apply in_run_content. exists c, q3, v, q4. unfold reaches, C. cbn [idx rest cap].
    split_and!; done.
  - apply in_run_plus_chr. exists g2. unfold reaches. cbn [idx rest cap]. done.
  - apply in_run_attr. exists a, q1, t, q2. unfold reaches, N. cbn [idx rest cap].
    split_and!; done.
Qed.

Lemma extractMeta_content_first (pre m g1 a t g2 c v post tag : list Z) (q1 q2 q3 q4 : Z) :
  let html := pre ++ meta_element false m g1 (naming_attr a q1 t q2) g2
                       (content_attr c q3 v q4) ++ post in
  same_i (js "<meta") m → gap g1 = true →
  same_i (js "property") a ∨ same_i (js "name") a → same_i tag t →
  quote_char q1 = true → quote_char q2 = true → gap g2 = true →
  same_i (js "content=") c → quote_char q3 = true → quote_char q4 = true →
  v ≠ [] → Forall (λ x, not_quote x = true) v →
  positions (attr_re tag) html
    = [length ((pre ++ m ++ g1) ++ content_attr c q3 v q4 ++ g2)] →
  content_after post = [] →
  content_before ((pre ++ m ++ g1) ++ content_attr c q3 v q4 ++ g2)
    = [length (pre ++ m ++ g1)] →
  extractMeta html tag = Some v.
Proof.
  intros html Hm Hg1 Ha Ht Hq1 Hq2 Hg2 Hc Hq3 Hq4 Hne Hv Hpos Hafter Hbefore.
  destruct (pattern2_match pre m g1 a t g2 c v post tag q1 q2 q3 q4) as [st Hst]; try done.
  fold html in Hst.
  assert (html = ((pre ++ m ++ g1) ++ content_attr c q3 v q4 ++ g2)
                   ++ naming_attr a q1 t q2 ++ post) as Ehtml.
  { unfold html, meta_element. by list_norm. }
  apply exec_Some_intro in Hst as (j & st' & Hj & Hex & Hin).
  - unfold extractMeta, match1. rewrite Ehtml in *.
    rewrite (exec_None_intro (meta_pattern1 tag)).
    + rewrite Hex.
      by eapply (pattern2_value (pre ++ m ++ g1) c v g2 a t post tag q1 q2 q3 q4).
    + intros k st0 Hk.
      by eapply (pattern1_none (pre ++ m ++ g1) c v g2 a t post tag q1 q2 q3 q4).
  - unfold html. rewrite length_app. lia.
Qed.

(** *** The tag of highest priority *)

Lemma findAudio_skip (html : list Z) (higher tags : list (list Z)) :
  (∀ t, In t higher → extractMeta html t = None) →
  findAudio html (higher ++ tags) = findAudio html tags.
Proof.
  induction higher as [|t higher IH]; intros H; [done|].
  simpl. rewrite (H t) by (by left). apply IH. intros t' Ht'. apply H. by right.
Qed.




(** ** File names *)

Lemma replace_all_chr (p : Z → bool) (c : Z) (s : list Z) :
  replace_all (Chr p) [c] s = (λ x, if p x then c else x) <$> s.
Proof.
  unfold replace_all, matches.
  assert (∀ n i, (length s < n)%nat →
    flat_map (λ it, match it with Match _ => [c] | Unit x => [x] end)
      (scan (Chr p) n i s) = (λ x, if p x then c else x) <$> s) as H; [|apply H; lia].
  induction s as [|x s IH]; intros [|n] i Hn; simpl in Hn; try lia; [done|].
  rewrite fmap_cons. cbn [scan run rest]. destruct (p x); cbn [adv rest idx cap].
  - destruct (Nat.eqb_spec (S i) i); [lia|]. simpl. f_equal. apply IH. lia.
  - simpl. f_equal. apply IH. lia.
Qed.

Lemma replace_leading (p : Z → bool) (s : list Z) :
  replace (Seq Bol (Plus (Chr p))) [] s = dropWhile p s.
Proof.
  unfold replace. rewrite exec_bol. unfold Plus.
  change (run (Seq (Chr p) (Star true (Chr p))) (St 0 s None))
    with (flat_map (run (Star true (Chr p))) (run (Chr p) (St 0 s None))).
  destruct s as [|x s]; [done|]. simpl run at 2. cbn [rest dropWhile].
  destruct (p x); [|done].
  unfold adv. cbn [rest idx cap]. rewrite flat_map_single.
  destruct (run_star_chr_greedy p s 1 None) as (k & tl & ->). done.
Qed.

Lemma in_run_trailing (p : Z → bool) (st st' : state) :
  In st' (run (Seq (Plus (Chr p)) Eol) st) ↔
  rest st ≠ [] ∧ forallb p (rest st) = true ∧
  st' = St (idx st + length (rest st)) [] (cap st).
Proof.
  rewrite in_run_seq. split.
  - intros (st1 & H1 & H2). apply in_run_eol in H2 as [<- Hend].
    apply in_run_plus_chr in H1 as (w & Hne & Hw & [Hs Hi] & Hc).
    rewrite Hend, app_nil_r in Hs. subst w. repeat split; [done| |].
    + apply forallb_forall. intros x Hx. rewrite Forall_forall in Hw.
      apply Hw. by apply list_elem_of_In.
    + destruct st'; simpl in *. by subst.
  - intros (Hne & Hall & ->). exists (St (idx st + length (rest st)) [] (cap st)).
    split; [|by apply in_run_eol].
    apply in_run_plus_chr. exists (rest st). unfold reaches. simpl.
    rewrite app_nil_r. repeat split; [done| ].
    apply Forall_forall. intros x Hx. rewrite forallb_forall in Hall.
    apply Hall. by apply list_elem_of_In.
Qed.

Lemma replace_trailing (p : Z → bool) (s : list Z) :
  replace (Seq (Plus (Chr p)) Eol) [] s = dropWhileEnd p s.
Proof.
  unfold replace, exec.
  assert (∀ i, match exec_from (Seq (Plus (Chr p)) Eol) i s with
               | Some (j, st) => (i ≤ j)%nat ∧ take (j - i) s ++ rest st = dropWhileEnd p s
               | None => s = dropWhileEnd p s
               end) as H.
  { induction s as [|x s IH]; intros i.
    - cbn [exec_from].
      destruct (run _ (St i [] None)) as [|st0 tl] eqn:Hrun; [done|].
      assert (In st0 (run (Seq (Plus (Chr p)) Eol) (St i [] None))) as Hin
        by (rewrite Hrun; by left).
      apply in_run_trailing in Hin as (Hne & _). done.
    - cbn [exec_from]. rewrite dropWhileEnd_cons.
      destruct (run _ (St i (x :: s) None)) as [|st0 tl] eqn:Hrun.
      + destruct (forallb p (x :: s)) eqn:Hall.
        { assert (In (St (i + length (x :: s)) [] None)
                    (run (Seq (Plus (Chr p)) Eol) (St i (x :: s) None))) as Hin
            by (by apply in_run_trailing).
          rewrite Hrun in Hin. destruct Hin. }
        specialize (IH (S i)). destruct (exec_from _ (S i) s) as [[j st]|].
        * destruct IH as [Hj IH]. split; [lia|].
          replace (j - i)%nat with (S (j - S i)) by lia. simpl. by rewrite IH.
        * by rewrite <- IH.
      + assert (In st0 (run (Seq (Plus (Chr p)) Eol) (St i (x :: s) None))) as Hin
          by (rewrite Hrun; by left).
        apply in_run_trailing in Hin as (_ & Hall & ->). cbn [rest] in Hall.
        rewrite Hall. split; [lia|]. by rewrite Nat.sub_diag. }
  specialize (H 0%nat). destruct (exec_from _ 0 s) as [[j st]|]; [|done].
  destruct H as [_ H]. by rewrite Nat.sub_0_r in H.
Qed.

Lemma sanitiseFilename_eq (s : list Z) :
  sanitiseFilename s =
    dropWhileEnd dot_or_space
      (dropWhile dot_or_space ((λ x, if unsafe_char x then chr "_" else x) <$> s)).
Proof.
  unfold sanitiseFilename.
  by rewrite replace_trailing, replace_leading, (replace_all_chr unsafe_char (chr "_")).
Qed.

Lemma dropWhileEnd_Forall (P : Z → Prop) (p : Z → bool) (s : list Z) :
  Forall P s → Forall P (dropWhileEnd p s).
Proof.
  intros H. unfold dropWhileEnd.
  apply Forall_forall. intros x Hx. apply list_elem_of_In, in_rev in Hx.
  assert (Forall P (rev s)) as Hr.
  { apply Forall_forall. intros y Hy. apply list_elem_of_In, in_rev in Hy.
    rewrite Forall_forall in H. apply H. by apply list_elem_of_In. }
  apply (dropWhile_Forall P p) in Hr. rewrite Forall_forall in Hr.
  apply Hr. by apply list_elem_of_In.
Qed.

Lemma dropWhileEnd_last (p : Z → bool) (s : list Z) (x : Z) :
  last (dropWhileEnd p s) = Some x → p x = false.
Proof.
  unfold dropWhileEnd. rewrite last_rev. apply dropWhile_head.
Qed.

Lemma dropWhileEnd_head (p : Z → bool) (s : list Z) (x : Z) :
  (∀ y, head s = Some y → p y = false) →
  head (dropWhileEnd p s) = Some x → p x = false.
Proof.
  destruct s as [|y s]; [done|]. intros Hy. rewrite dropWhileEnd_cons.
  destruct (forallb p (y :: s)); [done|]. simpl. intros [= <-]. by apply Hy.
Qed.

Lemma dropWhileEnd_fixed (p : Z → bool) (s : list Z) :
  (∀ x, last s = Some x → p x = false) → dropWhileEnd p s = s.
Proof.
  intros H. unfold dropWhileEnd. rewrite dropWhile_fixed; [apply rev_involutive|].
  intros x Hx. apply H. rewrite <- (rev_involutive s). by rewrite last_rev.
Qed.

Lemma one_of_spec (cs : list Z) (x : Z) : one_of cs x = true ↔ In x cs.
Proof.
  unfold one_of. rewrite existsb_exists. split.
  - intros (y & Hy & Hxy). apply Z.eqb_eq in Hxy. by subst.
  - intros Hx. exists x. split; [done|apply Z.eqb_refl].
Qed.

(** C8. Sanitising twice is sanitising once; the output holds none of
    the nine characters slash, backslash, colon, star, question mark,
    double quote, angle brackets and bar, and neither its first nor its
    last code unit is a dot or whitespace. *)
Theorem sanitiseFilename_idempotent (s : list Z) :
  sanitiseFilename (sanitiseFilename s) = sanitiseFilename s ∧
  (∀ x, In x (sanitiseFilename s) → ¬ In x (js "/\:*?" ++ dquote :: js "<>|")) ∧
  (∀ x, head (sanitiseFilename s) = Some x → x ≠ chr "." ∧ isWhiteSpace x = false) ∧
  (∀ x, last (sanitiseFilename s) = Some x → x ≠ chr "." ∧ isWhiteSpace x = false).
Proof.
  assert (∀ x, dot_or_space x = false → x ≠ chr "." ∧ isWhiteSpace x = false) as Hdot.
  { intros x. unfold dot_or_space, eqc. rewrite orb_false_iff, Z.eqb_neq. tauto. }
  set (out := sanitiseFilename s).
  assert (Forall (λ x, unsafe_char x = false) out) as Hsafe.
  { unfold out. rewrite sanitiseFilename_eq.
    apply dropWhileEnd_Forall, dropWhile_Forall.
    apply Forall_forall. intros x Hx. apply list_elem_of_fmap in Hx as (y & -> & _).
    destruct (unsafe_char y) eqn:Hy; [done|exact Hy]. }
  assert (∀ x, head out = Some x → dot_or_space x = false) as Hhead.
  { unfold out. rewrite sanitiseFilename_eq. intros x.
    apply dropWhileEnd_head. intros y. apply dropWhile_head. }
  assert (∀ x, last out = Some x → dot_or_space x = false) as Hlast.
  { unfold out. rewrite sanitiseFilename_eq. intros x. apply dropWhileEnd_last. }
  repeat split.
  - rewrite (sanitiseFilename_eq out).
    assert ((λ x, if unsafe_char x then chr "_" else x) <$> out = out) as ->.
    { clear -Hsafe. induction Hsafe as [|x l Hx _ IH]; [done|].
      rewrite fmap_cons, Hx. by f_equal. }
    rewrite (dropWhile_fixed _ out Hhead). by apply dropWhileEnd_fixed.
  - intros x Hx Hbad. rewrite Forall_forall in Hsafe.
    apply list_elem_of_In, Hsafe in Hx. apply (one_of_spec _ x) in Hbad.
    unfold unsafe_char in Hx. congruence.
  - by apply Hdot, Hhead.
  - by apply Hdot, Hhead.
  - by apply Hdot, Hlast.
  - by apply Hdot, Hlast.
Qed.

(** C9, as the specification words it, fails: the slash of [a/b] is not
    deleted, it becomes an underscore. *)
Lemma sanitiseFilename_does_not_delete :
  sanitiseFilename (js "a/b") = js "a_b" ∧ sanitiseFilename_spec (js "a/b") = js "ab".
Proof. split; vm_compute; reflexivity. Qed.

(** C9, amended. Every occurrence of one of the nine characters is
    replaced by an underscore, none is deleted; then the leading run and
    the trailing run of dots and whitespace are removed. *)
Theorem sanitiseFilename_replaces (s : list Z) :
  sanitiseFilename s =
    dropWhileEnd (λ x, (x =? chr ".") || isWhiteSpace x)
      (dropWhile (λ x, (x =? chr ".") || isWhiteSpace x)
         ((λ x, if unsafe_char x then chr "_" else x) <$> s)) ∧
  ∀ x, unsafe_char x = true ↔ In x (js "/\:*?" ++ dquote :: js "<>|").
Proof. split; [apply sanitiseFilename_eq|intros x; apply one_of_spec]. Qed.

(** ** URL validation *)

(** C6, on the code: the host name of a URL object keeps the brackets of
    an IPv6 address, so the prefixes [fc], [fd] and [fe80] of the pattern,
    tried at the start of the host, never meet a unique-local or link-local
    address; only the loopback [[::1]] is compared in its bracketed form.
    The unique-local and the link-local URL are accepted. *)
Theorem validateUrl_ipv6_brackets :
  validateUrl sample_parseURL (js "https://[::1]/") = Some private_address ∧
  validateUrl sample_parseURL (js "https://[fd00::1]/") = None ∧
  validateUrl sample_parseURL (js "https://[fe80::1]/") = None.
Proof. repeat split; vm_compute; reflexivity. Qed.

(** C7. Whatever the parser, as long as it splits the five URLs named
    below the way the platform does: the three private ones are refused
    as private or reserved, the [ftp] one for its scheme, the public
    [https] one is accepted; a string the parser refuses is refused as
    [Invalid URL]; and the answer is a function of the parse alone. *)
Theorem validateUrl_examples (parseURL : list Z → option URL) :
  parseURL (js "http://127.0.0.1/x") = Some (mkURL "http:" "127.0.0.1" "/x") →
  parseURL (js "http://10.0.0.5/") = Some (mkURL "http:" "10.0.0.5" "/") →
  parseURL (js "http://localhost/") = Some (mkURL "http:" "localhost" "/") →
  parseURL (js "ftp://example.com/") = Some (mkURL "ftp:" "example.com" "/") →
  parseURL (js "https://example.com/page") = Some (mkURL "https:" "example.com" "/page") →
  validateUrl parseURL (js "http://127.0.0.1/x") = Some private_address ∧
  validateUrl parseURL (js "http://10.0.0.5/") = Some private_address ∧
  validateUrl parseURL (js "http://localhost/") = Some private_address ∧
  validateUrl parseURL (js "ftp://example.com/") = Some unsupported_scheme ∧
  validateUrl parseURL (js "https://example.com/page") = None ∧
  (∀ url, parseURL url = None → validateUrl parseURL url = Some invalid_url) ∧
  (∀ parseURL' url, parseURL' url = parseURL url →
     validateUrl parseURL' url = validateUrl parseURL url).
Proof.
  intros H1 H2 H3 H4 H5. unfold validateUrl.
  rewrite H1, H2, H3, H4, H5. repeat split; try (vm_compute; reflexivity).
  - intros url ->. done.
  - intros parseURL' url ->. done.
Qed.

Lemma validateUrl_examples_witness :
  validateUrl sample_parseURL (js "http://127.0.0.1/x") = Some private_address ∧
  validateUrl sample_parseURL (js "http://10.0.0.5/") = Some private_address ∧
  validateUrl sample_parseURL (js "http://localhost/") = Some private_address ∧
  validateUrl sample_parseURL (js "ftp://example.com/") = Some unsupported_scheme ∧
  validateUrl sample_parseURL (js "https://example.com/page") = None ∧
  (∀ url, sample_parseURL url = None → validateUrl sample_parseURL url = Some invalid_url) ∧
  (∀ parseURL' url, parseURL' url = sample_parseURL url →
     validateUrl parseURL' url = validateUrl sample_parseURL url).
Proof. apply (validateUrl_examples sample_parseURL); vm_compute; reflexivity. Defined.

Lemma test_private_prefix (h : list Z) :
  startsWith (js "fc") h = true ∨ startsWith (js "fd") h = true ∨
  startsWith (js "fe80") h = true ∨ startsWith (js "0.") h = true →
  test private_host h = true.
Proof.
  intros [H|[H|[H|H]]]; apply startsWith_spec in H as [r ->];
    vm_compute; reflexivity.
Qed.




(** ** The lyrics heuristic *)

Lemma test_ident_colon (t : list Z) :
  test ident_colon t = true ↔
  ∃ w r, w ≠ [] ∧ Forall (λ x, isAlnum x = true) w ∧ t = w ++ chr ":" :: r.
Proof.
  unfold ident_colon.
  change (seq_of [Bol; Plus (Chr isAlnum); Chr (eqc (chr ":"))])
    with (Seq Bol (seq_of [Plus (Chr isAlnum); Chr (eqc (chr ":"))])).
  rewrite test_bol. split.
  - intros (st & Hst). apply in_run_seq_of_cons in Hst as (st1 & H1 & H2).
    apply in_run_plus_chr in H1 as (w & Hne & Hw & [Hs _] & _).
    apply in_run_chr in H2 as (x & Hx & [Hs' _] & _).
    apply Z.eqb_eq in Hx. subst x. simpl in Hs, Hs'.
    exists w, (rest st). rewrite Hs, Hs'. done.
  - intros (w & r & Hne & Hw & ->).
    exists (St (length w + 1) r None).
    apply in_run_seq_of_cons. exists (St (length w) (chr ":" :: r) None). split.
    + apply in_run_plus_chr. exists w. unfold reaches. simpl. done.
    + apply in_run_chr. exists (chr ":"). unfold reaches. simpl. done.
Qed.

Lemma run_word_match (a b : Z) (s : list Z) (i : nat) (c : option (list Z)) :
  isLetter a = true → isLetter b = true →
  ∃ k tl, run word (St i (a :: b :: s) c)
          = St (i + 2 + k) (dropWhile isLetter s) c :: tl.
Proof.
  intros Ha Hb. unfold word.
  change (seq_of [Chr isLetter; Chr isLetter; Star true (Chr isLetter)])
    with (Seq (Chr isLetter) (Seq (Chr isLetter) (Star true (Chr isLetter)))).
  rewrite run_seq, run_chr_cons, Ha, flat_map_single.
  rewrite run_seq, run_chr_cons, Hb, flat_map_single.
  destruct (run_star_chr_greedy isLetter s (S (S i)) c) as (k & tl & ->).
  exists k, tl. do 2 f_equal. lia.
Qed.

Lemma run_word_none (s : list Z) (i : nat) (c : option (list Z)) :
  (∀ a b s', s = a :: b :: s' → isLetter a && isLetter b = false) →
  run word (St i s c) = [].
Proof.
  intros Hs. unfold word.
  change (seq_of [Chr isLetter; Chr isLetter; Star true (Chr isLetter)])
    with (Seq (Chr isLetter) (Seq (Chr isLetter) (Star true (Chr isLetter)))).
  rewrite run_seq. destruct s as [|a [|b s]]; [done| |].
  - rewrite run_chr_cons. destruct (isLetter a); [|done].
    by rewrite flat_map_single, run_seq, run_chr_nil.
  - specialize (Hs a b s eq_refl).
    rewrite run_chr_cons. destruct (isLetter a); [|done].
    rewrite flat_map_single, run_seq, run_chr_cons. simpl in Hs. by rewrite Hs.
Qed.

Lemma runs_acc_span (p : Z → bool) (s cur : list Z) :
  runs_acc p cur s =
    match dropWhile p s with
    | [] => [rev cur ++ takeWhile p s]
    | _ :: ys => (rev cur ++ takeWhile p s) :: runs_acc p [] ys
    end.
Proof.
  revert cur. induction s as [|x s IH]; intros cur; simpl.
  - by rewrite app_nil_r.
  - destruct (p x).
    + rewrite IH. simpl. by rewrite <- !app_assoc.
    + by rewrite app_nil_r.
Qed.

Lemma dropWhile_length (p : Z → bool) (s : list Z) :
  (length (dropWhile p s) ≤ length s)%nat.
Proof. induction s as [|x s IH]; simpl; [done|]. destruct (p x); simpl; lia. Qed.

Lemma letter_words_skip (x : Z) (s : list Z) :
  (∀ b s', s = b :: s' → isLetter x && isLetter b = false) →
  length (letter_words (x :: s)) = length (letter_words s).
Proof.
  intros Hx. unfold letter_words. simpl.
  destruct (isLetter x) eqn:Hl.
  - destruct s as [|b s]; [done|].
    specialize (Hx b s eq_refl). simpl in Hx. simpl. rewrite Hx.
    rewrite filter_cons_False; [done|]. simpl. lia.
  - rewrite filter_cons_False; [done|]. simpl. lia.
Qed.

Lemma letter_words_word (a b : Z) (s : list Z) :
  isLetter a = true → isLetter b = true →
  length (letter_words (a :: b :: s)) = S (length (letter_words (dropWhile isLetter s))).
Proof.
  intros Ha Hb. unfold letter_words. simpl. rewrite Ha, Hb.
  rewrite runs_acc_span. simpl.
  destruct (dropWhile isLetter s) as [|y ys] eqn:Hd.
  - rewrite filter_cons_True by (simpl; lia). done.
  - rewrite filter_cons_True by (simpl; lia). simpl. f_equal.
    assert (isLetter y = false) as Hy.
    { apply (dropWhile_head isLetter s). by rewrite Hd. }
    rewrite Hy. rewrite filter_cons_False; [done|]. simpl. lia.
Qed.

Lemma match_count_word (s : list Z) :
  match_count word s = length (letter_words s).
Proof.
  unfold match_count, matches.
  assert (∀ n s i, (length s < n)%nat →
            length (matched (scan word n i s)) = length (letter_words s)) as H;
    [|apply H; lia].
  clear s. induction n as [|n IH]; intros s i Hn; [lia|].
  cbn [scan].
  destruct s as [|a [|b s]].
  - by rewrite run_word_none.
  - rewrite run_word_none by done. rewrite matched_unit.
    rewrite IH by (simpl in *; lia). symmetry. by apply letter_words_skip.
  - destruct (isLetter a && isLetter b) eqn:Hab.
    + apply andb_true_iff in Hab as [Ha Hb].
      destruct (run_word_match a b s i None Ha Hb) as (k & tl & ->).
      cbn [idx rest]. destruct (Nat.eqb_spec (i + 2 + k) i); [lia|].
      rewrite matched_match. cbn [length]. rewrite IH.
      * symmetry. by apply letter_words_word.
      * pose proof (dropWhile_length isLetter s). simpl in Hn. lia.
    + rewrite run_word_none by (by intros ? ? ? [= <- <- <-]).
      rewrite matched_unit. rewrite IH by (simpl in *; lia).
      symmetry. apply letter_words_skip. by intros ? ? [= <- <-].
Qed.

(** C1, as the specification words it, fails twice: five lines of the
    same word six times pass the heuristic, though they hold one distinct
    word; and a text that opens with [Chorus:] and holds four lines and
    twenty-four distinct words is refused, though no lower-case run
    stands before the colon. *)
Lemma looksLikeSunoLyrics_not_as_worded :
  looksLikeSunoLyrics repeated_words = true ∧
  looksLikeSunoLyrics_spec repeated_words = false ∧
  looksLikeSunoLyrics capitalised_label = false ∧
  looksLikeSunoLyrics_spec capitalised_label = true.
Proof. repeat split; vm_compute; reflexivity. Qed.

(** C1, amended. The heuristic accepts a text exactly when, once
    trimmed, it is at least 80 code units long, holds none of the three
    fragments, does not open with a run of ASCII letters of either case
    and digits followed by a colon, has at least 4 lines that are not
    empty once trimmed, and holds at least 20 word tokens (maximal runs of
    two or more ASCII letters), counted with their repetitions. *)
Theorem looksLikeSunoLyrics_iff (text : list Z) :
  looksLikeSunoLyrics text = true ↔
  (80 ≤ length (trim text))%nat ∧
  ¬ (∃ a b, trim text = a ++ (js "{" ++ [dquote]) ++ b) ∧
  ¬ (∃ a b, trim text = a ++ (js ":[" ++ dquote :: js "$") ++ b) ∧
  ¬ (∃ a b, trim text = a ++ (dquote :: js "$L") ++ b) ∧
  ¬ (∃ w r, w ≠ [] ∧ Forall (λ x, isLetter x || isDigit x = true) w ∧
            trim text = w ++ chr ":" :: r) ∧
  (4 ≤ length (filter (λ l, nonempty l = true) (trim <$> split newline (trim text))))%nat ∧
  (20 ≤ length (letter_words (trim text)))%nat.
Proof.
  unfold looksLikeSunoLyrics.
  rewrite <- !includes_spec, <- (test_ident_colon (trim text)), match_count_word.
  destruct (Nat.ltb_spec (length (trim text)) 80); [split; [done|lia]|].
  destruct (includes _ (trim text)); [split; [done|tauto]|].
  destruct (includes _ (trim text)); [split; [done|tauto]|].
  destruct (includes _ (trim text)); [split; [done|tauto]|].
  destruct (test ident_colon (trim text)); [split; [done|tauto]|].
  destruct (Nat.ltb_spec (length (filter (λ l, nonempty l = true)
                                     (trim <$> split newline (trim text)))) 4);
    [split; [done|lia]|].
  rewrite Nat.leb_le. intuition (done || lia).
Qed.

(** ** The lyrics resolver *)

Lemma indexOf_from_found (w s : list Z) (from : Z) :
  indexOf_from w s from ≠ -1 → 0 ≤ from → includes w s = true.
Proof.
  revert from. induction s as [|x s IH]; intros from; simpl.
  - destruct (startsWith w []); [done|]. done.
  - destruct (startsWith w (x :: s)); [done|]. simpl.
    intros H Hfrom. apply (IH (from + 1)); [done|lia].
Qed.

Lemma try_catch_returns {A : Type} (m : outcome A) (a : A) :
  ∃ r, try_catch m (Return a) = Return r.
Proof. destruct m as [r|]; [by exists r|by exists a]. Qed.

Lemma try_catch_Some {A : Type} (m : outcome (option A)) (l : A) :
  try_catch m (Return None) = Return (Some l) ↔ m = Return (Some l).
Proof. destruct m as [r|]; simpl; [done|]. split; discriminate. Qed.

Lemma in_run_rep_chr (p : Z → bool) (n : nat) (st st' : state) :
  In st' (run (Rep n (Chr p)) st) ↔
  ∃ w, length w = n ∧ Forall (λ x, p x = true) w ∧ reaches st w st' ∧ cap st' = cap st.
Proof.
  revert st. induction n as [|n IH]; intros st; cbn [Rep].
  - split.
    + intros [<-|[]]. exists []. split_and!; [done|done|apply reaches_refl|done].
    + intros (w & Hlen & _ & [Hs Hi] & Hc). destruct w; [|done].
      left. destruct st, st'; cbn [idx rest cap] in *. simpl in *. subst. f_equal. lia.
  - rewrite in_run_seq. split.
    + intros (st1 & H1 & H2). apply in_run_chr in H1 as (x & Hx & R1 & C1).
      apply IH in H2 as (w & Hlen & Hw & R2 & C2).
      exists (x :: w). split_and!; [simpl; lia|by constructor| |congruence].
      by apply (reaches_trans st st1 st' [x] w).
    + intros ([|x w] & Hlen & Hw & [Hs Hi] & Hc); [done|].
      inversion Hw; subst. injection Hlen as Hlen.
      exists (St (S (idx st)) (w ++ rest st') (cap st)). split.
      * apply in_run_chr. exists x. unfold reaches. cbn [idx rest cap].
        split_and!; [done|done|simpl; lia|done].
      * apply IH. exists w. unfold reaches. cbn [idx rest cap].
        split_and!; [done|done|done|simpl in Hi; lia|done].
Qed.

(** The identifier of a song: 36 code units, each a hexadecimal digit
    or a hyphen. *)
Lemma test_song_id (id : list Z) :
  test song_id id = true ↔ length id = 36%nat ∧ Forall (λ x, isHexDash x = true) id.
Proof.
  unfold song_id.
  change (seq_of [Bol; Rep 36 (Chr isHexDash); Eol])
    with (Seq Bol (seq_of [Rep 36 (Chr isHexDash); Eol])).
  rewrite test_bol. split.
  - intros (st & H). apply in_run_seq_of_cons in H as (s1 & H1 & H2).
    apply in_run_single, in_run_eol in H2 as [-> Hend].
    apply in_run_rep_chr in H1 as (w & Hlen & Hw & [Hs _] & _).
    cbn [rest] in Hs. rewrite Hend, app_nil_r in Hs. by subst.
  - intros [Hlen Hid]. exists (St 36 [] None).
    apply in_run_seq_of_cons. exists (St 36 [] None). split.
    + apply in_run_rep_chr. exists id. unfold reaches. cbn [idx rest cap].
      rewrite app_nil_r. split_and!; (done || lia).
    + by apply in_run_single, in_run_eol.
Qed.

Section SunoProperties.

Context (number : Type) (number_truthy : number → bool).
Context (parseURL : list Z → option URL) (fetch : list Z → outcome Response).
Context (JSON_parse : list Z → outcome (jsval number)).

Lemma extractSunoLyrics_returns (html : list Z) :
  ∃ r, extractSunoLyrics number number_truthy JSON_parse html = Return r.
Proof.
  unfold extractSunoLyrics.
  destruct (_ =? -1); [by exists None|].
  destruct (_ =? -1); [by exists None|].
  destruct (extractJsonObject _ _); [|by exists None].
  apply try_catch_returns.
Qed.

Lemma extractSunoLyrics_Some (html l : list Z) :
  extractSunoLyrics number number_truthy JSON_parse html = Return (Some l) →
  includes clip_marker (normaliseSunoEscapes html) = true ∧
  ∃ clipJson clip,
    extractJsonObject (normaliseSunoEscapes html)
      (Z.to_nat (indexOf (js "{") (normaliseSunoEscapes html)
                   (Z.to_nat (indexOf clip_marker (normaliseSunoEscapes html) 0 + 7))))
      = Some clipJson ∧
    JSON_parse clipJson = Return clip.
Proof.
  unfold extractSunoLyrics.
  destruct (Z.eqb_spec (indexOf clip_marker (normaliseSunoEscapes html) 0) (-1)) as [|Hclip];
    [done|].
  destruct (_ =? -1); [done|].
  destruct (extractJsonObject _ _) as [clipJson|]; [|done].
  rewrite try_catch_Some. intros Hl. split.
  - unfold indexOf in Hclip. simpl in Hclip. by apply (indexOf_from_found _ _ 0).
  - exists clipJson. unfold lyricsOfClip in Hl.
    destruct (JSON_parse clipJson) as [clip|]; [by exists clip|done].
Qed.

(** C5. The awaited value of [fetchSunoLyrics] is always a returned
    one, lyrics or [null], never a thrown error; and it is lyrics only
    when nothing failed: the URL parsed, its host is the Suno one, its
    path is [/song/] and an identifier of 36 hexadecimal digits and
    hyphens, the embed
    page was fetched with an [ok] status and its body read, and
    [extractSunoLyrics] found lyrics in it, which in turn never throws
    and needs the clip marker and a clip object that [JSON.parse]
    accepts.  Any failure among these therefore gives [null]. *)
Theorem fetchSunoLyrics_never_throws :
  (∀ pageUrl, ∃ r,
     fetchSunoLyrics number number_truthy parseURL fetch JSON_parse pageUrl = Return r) ∧
  (∀ pageUrl l,
     fetchSunoLyrics number number_truthy parseURL fetch JSON_parse pageUrl = Return (Some l) ↔
     ∃ u id more res html,
       parseURL pageUrl = Some u ∧
       (hostname u = js "suno.com" ∨ hostname u = js "www.suno.com") ∧
       filter (λ p, nonempty p = true) (split (chr "/") (pathname u))
         = js "song" :: id :: more ∧
       test song_id id = true ∧
       fetch (js "https://suno.com/embed/" ++ id) = Return res ∧
       ok res = true ∧
       text res = Return html ∧
       extractSunoLyrics number number_truthy JSON_parse html = Return (Some l)) ∧
  (∀ id, test song_id id = true ↔
           length id = 36%nat ∧ Forall (λ x, isHexDash x = true) id) ∧
  (∀ html, ∃ r, extractSunoLyrics number number_truthy JSON_parse html = Return r) ∧
  (∀ html l,
     extractSunoLyrics number number_truthy JSON_parse html = Return (Some l) →
     includes clip_marker (normaliseSunoEscapes html) = true ∧
     ∃ clipJson clip,
       extractJsonObject (normaliseSunoEscapes html)
         (Z.to_nat (indexOf (js "{") (normaliseSunoEscapes html)
                      (Z.to_nat (indexOf clip_marker (normaliseSunoEscapes html) 0 + 7))))
         = Some clipJson ∧
       JSON_parse clipJson = Return clip).
Proof.
  split; [|split; [|split; [|split]]].
  - intros pageUrl. unfold fetchSunoLyrics. apply try_catch_returns.
  - intros pageUrl l. unfold fetchSunoLyrics. rewrite try_catch_Some.
    unfold list_eqb. split.
    + destruct (parseURL pageUrl) as [u|]; [|done]. simpl.
      repeat case_bool_decide; simpl; try done;
        (destruct (filter _ _) as [|p0 [|id more]] eqn:Hparts; [done|done|]);
        (case_bool_decide as Hsong; [|done]); simpl;
        (destruct (test song_id id) eqn:Hid; [|done]); simpl;
        (destruct (fetch _) as [res|] eqn:Hres; [|done]); simpl;
        (destruct (ok res) eqn:Hok; [|done]); simpl;
        (destruct (text res) as [html|] eqn:Htext; [|done]); simpl;
        intros Hl; exists u, id, more, res, html; subst p0; tauto.
    + intros (u & id & more & res & html & -> & Hhost & Hparts & Hid & Hres & Hok & Htext & Hl).
      cbn [mbind outcome_bind]. rewrite Hparts, Hid. cbn [negb].
      rewrite Hres. cbn [mbind outcome_bind]. rewrite Hok. cbn [negb]. rewrite Htext.
      rewrite (bool_decide_eq_true_2 (js "song" = js "song")) by done. cbn [negb].
      cbn [mbind outcome_bind].
      destruct Hhost as [-> | ->]; by repeat case_bool_decide.
  - apply test_song_id.
  - apply extractSunoLyrics_returns.
  - apply extractSunoLyrics_Some.
Qed.

End SunoProperties.

(** The sample embed page, end to end: its lyrics are found through the
    reference [$12] of the prompt. *)
Example fetchSunoLyrics_sample :
  sample_fetchSunoLyrics sample_song = Return (Some sample_lyrics).
Proof. vm_compute. reflexivity. Qed.
(** ** Replacements *)

Lemma run_lit (w s : list Z) (i : nat) (c : option (list Z)) :
  run (lit w) (St i s c) =
    if startsWith w s then [St (i + length w) (drop (length w) s) c] else [].
Proof.
  revert s i. induction w as [|a w IH]; intros s i.
  - simpl. by rewrite Nat.add_0_r, drop_0.
  - unfold lit in *. rewrite fmap_cons, run_seq_of_cons.
    change ((Chr ∘ eqc) a) with (Chr (eqc a)).
    destruct s as [|x s]; [by rewrite run_chr_nil|].
    rewrite run_chr_cons. unfold eqc. cbn [startsWith].
    rewrite (Z.eqb_sym a x). destruct (x =? a); [|done].
    rewrite flat_map_single, IH. cbn [andb length drop].
    by replace (S i + length w)%nat with (i + S (length w))%nat by lia.
Qed.

Lemma replace_scan_lit (w b : list Z) (n : nat) :
  w ≠ [] →
  ∀ m i j s, (length s < n)%nat → (length s < m)%nat →
    flat_map (λ it, match it with Match _ => b | Unit x => [x] end) (scan (lit w) n i s)
    = flat_map (λ it, match it with Match _ => b | Unit x => [x] end) (scan (lit w) m j s).
Proof.
  intros Hw. induction n as [|n IH]; intros m i j s Hn Hm; [lia|].
  destruct m as [|m]; [lia|]. cbn [scan]. rewrite !run_lit.
  assert (0 < length w)%nat as Hlen by (destruct w; [done|simpl; lia]).
  destruct (startsWith w s) eqn:Hsw.
  - cbn [idx rest].
    destruct (Nat.eqb_spec (i + length w) i); [lia|].
    destruct (Nat.eqb_spec (j + length w) j); [lia|].
    cbn [flat_map]. f_equal.
    apply startsWith_spec in Hsw as [r ->].
    rewrite length_app in Hn, Hm. rewrite drop_app_length.
    apply IH; lia.
  - destruct s as [|x s]; [done|]. cbn [flat_map]. f_equal.
    apply IH; simpl in *; lia.
Qed.

Lemma replace_all_lit_nil (w b : list Z) : w ≠ [] → replace_all (lit w) b [] = [].
Proof.
  intros Hw. unfold replace_all, matches. cbn [length scan]. rewrite run_lit.
  destruct w; [done|]. done.
Qed.

Lemma replace_all_lit_hit (w b s : list Z) :
  w ≠ [] → replace_all (lit w) b (w ++ s) = b ++ replace_all (lit w) b s.
Proof.
  intros Hw. unfold replace_all, matches.
  assert (0 < length w)%nat as Hlen by (destruct w; [done|simpl; lia]).
  remember (scan (lit w) (S (length s)) 0 s) as rhs eqn:Hrhs.
  cbn [scan]. rewrite run_lit.
  replace (startsWith w (w ++ s)) with true by (symmetry; apply startsWith_spec; eauto).
  cbn [idx rest]. destruct (Nat.eqb_spec (0 + length w) 0); [lia|].
  cbn [flat_map]. f_equal. rewrite drop_app_length. subst rhs.
  apply replace_scan_lit; [done| |lia]. rewrite length_app. lia.
Qed.

Lemma replace_all_lit_miss (w b s : list Z) (x : Z) :
  w ≠ [] → startsWith w (x :: s) = false →
  replace_all (lit w) b (x :: s) = x :: replace_all (lit w) b s.
Proof.
  intros Hw Hsw. unfold replace_all, matches.
  remember (scan (lit w) (S (length s)) 0 s) as rhs eqn:Hrhs.
  cbn [scan]. rewrite run_lit, Hsw. cbn [flat_map app]. f_equal. subst rhs.
  apply replace_scan_lit; [done|simpl; lia|lia].
Qed.

(** A literal whose first character does not occur is replaced nowhere. *)
Lemma replace_all_lit_absent (a : Z) (w b s : list Z) :
  ¬ In a s → replace_all (lit (a :: w)) b s = s.
Proof.
  induction s as [|x s IH]; intros Hin.
  - by apply replace_all_lit_nil.
  - rewrite replace_all_lit_miss; [|done|].
    + f_equal. apply IH. intros H. apply Hin. by right.
    + cbn [startsWith]. destruct (Z.eqb_spec a x) as [->|]; [|done].
      exfalso. apply Hin. by left.
Qed.

Lemma replace_all_chr_by (p : Z → bool) (b s : list Z) :
  replace_all (Chr p) b s = flat_map (λ x, if p x then b else [x]) s.
Proof.
  unfold replace_all, matches.
  assert (∀ n i, (length s < n)%nat →
    flat_map (λ it, match it with Match _ => b | Unit x => [x] end)
      (scan (Chr p) n i s) = flat_map (λ x, if p x then b else [x]) s) as H; [|apply H; lia].
  induction s as [|x s IH]; intros [|n] i Hn; simpl in Hn; try lia; [done|].
  cbn [scan run rest]. destruct (p x) eqn:Hp; cbn [adv rest idx cap].
  - destruct (Nat.eqb_spec (S i) i); [lia|]. cbn [flat_map]. rewrite Hp.
    f_equal. apply IH. lia.
  - cbn [flat_map]. rewrite Hp. f_equal. apply IH. lia.
Qed.
(** ** Entities *)

Lemma startsWith_head_ne (a x : Z) (w s : list Z) :
  a ≠ x → startsWith (a :: w) (x :: s) = false.
Proof. intros H. cbn [startsWith]. by destruct (Z.eqb_spec a x). Qed.

Lemma includes_cons_false (w s : list Z) (x : Z) :
  includes w (x :: s) = false → startsWith w (x :: s) = false ∧ includes w s = false.
Proof. cbn [includes]. by intros [? ?]%orb_false_elim. Qed.

Lemma escaped_cons (cs s : list Z) (x : Z) :
  escaped cs (x :: s) = (if one_of cs x then entity x else [x]) ++ escaped cs s.
Proof. done. Qed.

Lemma escaped_nil (s : list Z) : escaped [] s = s.
Proof. induction s as [|x s IH]; [done|]. rewrite escaped_cons, IH. done. Qed.

(** The cases of a character: one of the four that have an entity, or
    another one. *)
Ltac char_cases x :=
  destruct (Z.eq_dec x 38) as [->|?];
  [|destruct (Z.eq_dec x 60) as [->|?];
    [|destruct (Z.eq_dec x 62) as [->|?];
      [|destruct (Z.eq_dec x 34) as [->|?]]]].

Lemma one_of_other (cs : list Z) (x : Z) : ¬ In x cs → one_of cs x = false.
Proof.
  intros H. destruct (one_of cs x) eqn:E; [|done]. by apply one_of_spec in E.
Qed.

Ltac other_char :=
  rewrite one_of_other by (cbn; intros H; repeat destruct H as [H|H]; congruence).

Lemma escHtml_escaped (s : list Z) : escHtml s = escaped [38; 60; 62; 34] s.
Proof.
  unfold escHtml. rewrite !replace_all_chr_by. unfold escaped.
  induction s as [|x s IH]; [done|].
  cbn [flat_map]. rewrite !flat_map_app, IH. f_equal.
  unfold eqc. char_cases x; try done.
  other_char.
  change (chr "&") with 38. change (chr "<") with 60. change (chr ">") with 62.
  unfold dquote.
  destruct (Z.eqb_spec x 38); [done|]. cbn [flat_map app].
  destruct (Z.eqb_spec x 60); [done|]. cbn [flat_map app].
  destruct (Z.eqb_spec x 62); [done|]. cbn [flat_map app].
  by destruct (Z.eqb_spec x 34).
Qed.

(** The head of an escaped text, for a character that has an entity. *)
Ltac entity_head :=
  match goal with
  | |- context [escaped ?cs (?x :: ?s)] =>
      let e := eval vm_compute in (if one_of cs x then entity x else [x]) in
      change (escaped cs (x :: s)) with (e ++ escaped cs s)
  end.

Ltac miss :=
  rewrite replace_all_lit_miss by (first [done | by apply startsWith_head_ne]).

(** No raw text is read as the end of an entity. *)
Lemma startsWith_escaped (cs w s : list Z) :
  Forall (λ a, a ≠ 38) w →
  (∀ x, one_of cs x = true → ∃ t, entity x = 38 :: t) →
  startsWith w (escaped cs s) = true → startsWith w s = true.
Proof.
  intros Hw Hcs. revert s. induction Hw as [|a w Ha Hw IH]; intros s; [done|].
  destruct s as [|x s]; [done|]. rewrite escaped_cons.
  destruct (one_of cs x) eqn:E.
  - destruct (Hcs x E) as [t ->]. cbn [app startsWith].
    by destruct (Z.eqb_spec a 38).
  - cbn [app startsWith]. intros [? ?]%andb_prop. apply andb_true_intro. eauto.
Qed.

Lemma entity_amp (cs : list Z) :
  Forall (λ c, In c [38; 60; 62; 34]) cs →
  ∀ x, one_of cs x = true → ∃ t, entity x = 38 :: t.
Proof.
  intros Hcs x Hx. apply one_of_spec in Hx. rewrite Forall_forall in Hcs.
  apply list_elem_of_In, Hcs in Hx. cbn in Hx.
  repeat destruct Hx as [<-|Hx]; try done; by eexists.
Qed.

Lemma decode_apos (s : list Z) :
  replace_all (lit (js "&#x27;")) [squote] (escaped [38; 60; 62; 34] s)
  = escaped [38; 60; 62; 34] s.
Proof.
  change (js "&#x27;") with [38; 35; 120; 50; 55; 59].
  induction s as [|x s IH]; [done|].
  char_cases x; [| | | |rewrite escaped_cons; other_char];
    repeat entity_head; cbn [app]; repeat miss; by rewrite IH.
Qed.

Lemma decode_amp (s : list Z) :
  replace_all (lit (js "&amp;")) (js "&") (escaped [38; 60; 62; 34] s)
  = escaped [60; 62; 34] s.
Proof.
  change (js "&amp;") with [38; 97; 109; 112; 59]. change (js "&") with [38].
  induction s as [|x s IH]; [done|].
  char_cases x.
  - repeat entity_head. rewrite replace_all_lit_hit by done. by rewrite IH.
  - repeat entity_head. cbn [app]. repeat miss. by rewrite IH.
  - repeat entity_head. cbn [app]. repeat miss. by rewrite IH.
  - repeat entity_head. cbn [app]. repeat miss. by rewrite IH.
  - rewrite !escaped_cons. do 2 other_char. cbn [app]. miss. by rewrite IH.
Qed.

(** One of the three later steps: the entity of [c] is read back where
    the text has no raw copy of it. *)
Lemma decode_step (c : Z) (cs s : list Z) :
  In c [60; 62; 34] → Forall (λ x, In x [60; 62; 34]) cs → ¬ In c cs →
  includes (entity c) s = false →
  replace_all (lit (entity c)) [c] (escaped (c :: cs) s) = escaped cs s.
Proof.
  intros Hc Hcs Hnc. induction s as [|x s IH]; intros Hs.
  - apply replace_all_lit_nil. cbn in Hc. by repeat destruct Hc as [<-|Hc].
  - apply includes_cons_false in Hs as [Hx Hs]. specialize (IH Hs).
    rewrite !escaped_cons.
    assert (entity c ≠ []) as Hne by (cbn in Hc; by repeat destruct Hc as [<-|Hc]).
    destruct (Z.eq_dec x c) as [->|Hxc].
    + replace (one_of (c :: cs) c) with true
        by (symmetry; apply one_of_spec; by left).
      rewrite (one_of_other cs c) by done.
      rewrite replace_all_lit_hit by done. by rewrite IH.
    + replace (one_of (c :: cs) x) with (one_of cs x)
        by (unfold one_of; cbn [existsb]; by destruct (Z.eqb_spec x c)).
      destruct (one_of cs x) eqn:E.
      * apply one_of_spec in E. rewrite Forall_forall in Hcs.
        pose proof (Hcs x (proj2 (list_elem_of_In _ _) E)) as Hx3.
        cbn in Hc, Hx3.
        repeat destruct Hc as [<-|Hc]; try done;
          repeat destruct Hx3 as [<-|Hx3]; try done;
          match goal with
          | |- context [lit (entity ?c)] => set (w := entity c) in *
          end;
          match goal with
          | |- context [entity ?x ++ _] =>
              let e := eval vm_compute in (entity x) in change (entity x) with e
          end;
          cbn [app]; repeat (rewrite replace_all_lit_miss by done); by rewrite IH.
      * cbn [app]. rewrite (replace_all_lit_miss _ _ _ _ Hne); [by rewrite IH|].
        destruct (startsWith (entity c) (x :: escaped (c :: cs) s)) eqn:Hsw; [|done].
        exfalso. assert (∃ w, entity c = 38 :: w ∧ Forall (λ a, a ≠ 38) w)
          as (w & Hw & Hw38).
        { cbn in Hc. repeat destruct Hc as [<-|Hc]; try done;
            eexists; (split; [reflexivity|]); repeat constructor; done. }
        rewrite Hw in Hsw, Hx. cbn [startsWith] in Hsw, Hx.
        apply andb_prop in Hsw as [Hx38 Hsw]. rewrite Hx38 in Hx. cbn [andb] in Hx.
        apply startsWith_escaped in Hsw; [congruence|done|].
        apply entity_amp. constructor.
        { cbn in Hc |- *. tauto. }
        eapply Forall_impl; [exact Hcs|]. cbn. intros ? H. tauto.
Qed.

Lemma escaped_nonempty (cs s : list Z) : s ≠ [] → escaped cs s ≠ [].
Proof.
  destruct s as [|x s]; [done|]. intros _. rewrite escaped_cons.
  destruct (one_of cs x); [|done].
  unfold entity. by repeat case_match.
Qed.
Lemma decodeEntities_cons (x : Z) (s : list Z) :
  decodeEntities (Some (x :: s)) =
    Some (trim
      (replace_all (lit (entity 34)) [34]
         (replace_all (lit (entity 62)) [62]
            (replace_all (lit (entity 60)) [60]
               (replace_all (lit (js "&amp;")) (js "&")
                  (replace_all (lit (js "&#x27;")) [squote] (x :: s))))))).
Proof. done. Qed.

(** X1 (decodeEntities, escHtml): a text that is not empty and holds
    none of the entities for the less-than sign, the greater-than sign
    and the double quote comes back from [decodeEntities] after
    [escHtml], with the whitespace at its two ends removed. *)
Theorem decodeEntities_escHtml (s : list Z) :
  s ≠ [] →
  includes (js "&lt;") s = false →
  includes (js "&gt;") s = false →
  includes (js "&quot;") s = false →
  decodeEntities (Some (escHtml s)) = Some (trim s).
Proof.
  intros Hs Hlt Hgt Hquot. rewrite escHtml_escaped.
  destruct (escaped [38; 60; 62; 34] s) as [|x t] eqn:E.
  { by apply escaped_nonempty in E. }
  rewrite decodeEntities_cons, <- E.
  rewrite decode_apos, decode_amp.
  rewrite (decode_step 60 [62; 34]), (decode_step 62 [34]), (decode_step 34 []),
    escaped_nil; try done; cbn; try tauto; repeat constructor; cbn; try tauto;
    intros H; repeat destruct H as [H|H]; done.
Qed.

Lemma decodeEntities_escHtml_witness :
  decodeEntities (Some (escHtml (jsq " <a href=`x`>Tom & Jerry&#x27;s &amp; co</a> ")))
  = Some (trim (jsq " <a href=`x`>Tom & Jerry&#x27;s &amp; co</a> ")).
Proof. apply decodeEntities_escHtml; done. Defined.

(** X2 (escHtml): the escaped text holds no less-than sign, no
    greater-than sign and no double quote, and a text without these
    and without an ampersand is left as it is. *)
Theorem escHtml_safe (s : list Z) :
  (∀ x, In x (escHtml s) → x ≠ chr "<" ∧ x ≠ chr ">" ∧ x ≠ dquote) ∧
  ((∀ x, In x s → ¬ In x [chr "&"; chr "<"; chr ">"; dquote]) → escHtml s = s).
Proof.
  rewrite escHtml_escaped. split.
  - intros x. unfold escaped. rewrite in_flat_map. intros (y & _ & Hy).
    char_cases y; [cbn in Hy; repeat destruct Hy as [<-|Hy]; done..|].
    rewrite one_of_other in Hy
      by (cbn; intros H; repeat destruct H as [H|H]; congruence).
    destruct Hy as [<-|[]]. done.
  - intros H. induction s as [|x s IH]; [done|].
    rewrite escaped_cons, IH by (intros y Hy; apply H; by right).
    rewrite one_of_other; [done|]. apply H. by left.
Qed.

(** X3 (decodeEntities): [null] and the empty string give [null]; a
    text without an ampersand is only trimmed, so a text of whitespace
    gives the empty string; and decoding is done in one pass per
    entity, the ampersand before the others, so that the text
    [&amp;lt;] is decoded twice, to a less-than sign. *)
Theorem decodeEntities_plain (s : list Z) :
  decodeEntities None = None ∧
  decodeEntities (Some []) = None ∧
  (s ≠ [] → ¬ In (chr "&") s → decodeEntities (Some s) = Some (trim s)) ∧
  decodeEntities (Some (js "&amp;lt;")) = Some (js "<").
Proof.
  split_and!; try done.
  intros Hs Hamp. destruct s as [|x s]; [done|]. rewrite decodeEntities_cons.
  change (js "&#x27;") with (38 :: js "#x27;"). change (js "&amp;") with (38 :: js "amp;").
  change (entity 60) with (38 :: js "lt;"). change (entity 62) with (38 :: js "gt;").
  change (entity 34) with (38 :: js "quot;").
  by rewrite !(replace_all_lit_absent 38 _ _ (x :: s) Hamp).
Qed.
(** ** Extensions *)

Lemma split_at_nonempty (c : Z) (s cur : list Z) : split_at c cur s ≠ [].
Proof.
  revert cur. induction s as [|x s IH]; intros cur; cbn [split_at]; [done|].
  destruct (x =? c); [done|apply IH].
Qed.

Lemma split_at_app (c : Z) (p s cur : list Z) :
  ¬ In c p → split_at c cur (p ++ s) = split_at c (rev p ++ cur) s.
Proof.
  revert cur. induction p as [|x p IH]; intros cur Hp; [done|].
  cbn [app split_at]. destruct (Z.eqb_spec x c) as [->|_].
  { exfalso. apply Hp. by left. }
  rewrite IH by (intros H; apply Hp; by right).
  cbn [rev]. by rewrite <- app_assoc.
Qed.

Lemma split_whole (c : Z) (p : list Z) : ¬ In c p → split c p = [p].
Proof.
  intros Hp. unfold split. rewrite <- (app_nil_r p) at 1.
  rewrite split_at_app by done. cbn [split_at]. by rewrite app_nil_r, rev_involutive.
Qed.

Lemma split_first (c : Z) (p q : list Z) :
  ¬ In c p → split c (p ++ c :: q) = p :: split c q.
Proof.
  intros Hp. unfold split. rewrite split_at_app by done. cbn [split_at].
  by rewrite Z.eqb_refl, app_nil_r, rev_involutive.
Qed.

Lemma last_cons_nonempty {A : Type} (x : A) (l : list A) : l ≠ [] → last (x :: l) = last l.
Proof. by destruct l. Qed.

Lemma split_at_last (c : Z) (b e cur : list Z) :
  ¬ In c e → last (split_at c cur (b ++ c :: e)) = Some e.
Proof.
  intros He. revert cur. induction b as [|x b IH]; intros cur.
  - cbn [app split_at]. rewrite Z.eqb_refl.
    fold (split c e). by rewrite split_whole.
  - cbn [app split_at]. destruct (x =? c); [|apply IH].
    rewrite last_cons_nonempty by apply split_at_nonempty. apply IH.
Qed.

Lemma existsb_list_eqb (x : list Z) (l : list (list Z)) :
  existsb (list_eqb x) l = true ↔ In x l.
Proof.
  rewrite existsb_exists. unfold list_eqb. split.
  - intros (y & Hy & ->%bool_decide_eq_true). done.
  - intros H. exists x. split; [done|]. by apply bool_decide_eq_true.
Qed.

Lemma guessExtension_of (url p e : list Z) :
  head (split (chr "?") url) = Some p → last (split (chr ".") p) = Some e →
  guessExtension url =
    if existsb (list_eqb (toLowerCase e)) valid_extensions then toLowerCase e else js "mp3".
Proof.
  intros Hp He. unfold guessExtension. rewrite Hp.
  change (default [] (Some p)) with p. by rewrite He.
Qed.

Lemma guessExtension_valid_In (url : list Z) : In (guessExtension url) valid_extensions.
Proof.
  unfold guessExtension.
  destruct (existsb _ valid_extensions) eqn:E.
  - by apply existsb_list_eqb in E.
  - cbn. tauto.
Qed.

(** X4 (guessExtension): the result is always one of the ten extensions
    of the list, whatever the URL; it holds none of the characters the
    sanitiser replaces. *)
Theorem guessExtension_valid (url : list Z) :
  In (guessExtension url) valid_extensions ∧
  Forall (λ x, unsafe_char x = false) (guessExtension url).
Proof.
  pose proof (guessExtension_valid_In url) as H. split; [done|].
  cbn in H. repeat destruct H as [<-|H]; try done; repeat constructor.
Qed.

(** X5 (guessExtension): the extension is read after the last dot of
    what comes before the first question mark, and lower-cased: it is
    the result when it is on the list, and [mp3] is when it is not.  A
    URL without a dot before its query is read as a whole in the same
    way. *)
Theorem guessExtension_last_dot (base e query : list Z) :
  ¬ In (chr "?") base → ¬ In (chr "?") e → ¬ In (chr ".") e →
  (query = [] ∨ head query = Some (chr "?")) →
  guessExtension (base ++ chr "." :: e ++ query)
    = (if decide (toLowerCase e ∈ valid_extensions) then toLowerCase e else js "mp3") ∧
  guessExtension (e ++ query)
    = (if decide (toLowerCase e ∈ valid_extensions) then toLowerCase e else js "mp3").
Proof.
  intros Hb He Hd Hq.
  assert (¬ In (chr "?") (base ++ chr "." :: e)) as Hp.
  { rewrite in_app_iff. cbn. intros [?|[?|?]]; done. }
  assert (head (split (chr "?") (base ++ chr "." :: e ++ query)) = Some (base ++ chr "." :: e)
          ∧ head (split (chr "?") (e ++ query)) = Some e) as [H1 H2].
  { destruct Hq as [->|Hq].
    - rewrite !app_nil_r. by rewrite !split_whole.
    - destruct query as [|x query]; [done|].
      assert (x = chr "?") as -> by (cbn [head] in Hq; congruence).
      replace (base ++ chr "." :: e ++ chr "?" :: query)
        with ((base ++ chr "." :: e) ++ chr "?" :: query) by (by rewrite <- app_assoc).
      by rewrite !split_first. }
  rewrite (guessExtension_of _ _ e H1) by (by apply split_at_last).
  rewrite (guessExtension_of _ _ e H2) by (by rewrite split_whole).
  destruct (existsb _ valid_extensions) eqn:E; case_decide as Hin; try done.
  - apply existsb_list_eqb in E. by apply list_elem_of_In in E.
  - apply list_elem_of_In, existsb_list_eqb in Hin. congruence.
Qed.

Lemma guessExtension_last_dot_witness :
  guessExtension (js "https://cdn.x.com/v1.2/song" ++ chr "." :: js "M4A" ++ js "?sig=a.wav")
    = js "m4a" ∧
  guessExtension (js "M4A" ++ js "?sig=a.wav") = js "m4a".
Proof.
  apply (guessExtension_last_dot (js "https://cdn.x.com/v1.2/song") (js "M4A")
           (js "?sig=a.wav")).
  - cbn. intros H. repeat destruct H as [H|H]; done.
  - cbn. intros H. repeat destruct H as [H|H]; done.
  - cbn. intros H. repeat destruct H as [H|H]; done.
  - by right.
Defined.
(** ** Titles *)

Lemma span_eq (p : Z → bool) (c v r r' : list Z) (x y : Z) :
  c ++ x :: r = v ++ y :: r' →
  Forall (λ z, p z = true) c → Forall (λ z, p z = true) v →
  p x = false → p y = false → c = v ∧ x = y ∧ r = r'.
Proof.
  intros E Hc Hv Hx Hy. revert v E Hv.
  induction Hc as [|z c Hz Hc IH]; intros v E Hv.
  - destruct v as [|z v]; [by injection E as -> ->|].
    injection E as -> _. inversion Hv; subst. congruence.
  - destruct v as [|z' v].
    + injection E as -> _. congruence.
    + injection E as -> E. inversion Hv; subst.
      destruct (IH v E) as (-> & -> & ->); done.
Qed.

Lemma not_gt_spec (x : Z) : not_gt x = true ↔ x ≠ chr ">".
Proof.
  unfold not_gt, none_of, one_of. change (chr ">") with 62. change (js ">") with [62].
  cbn [existsb]. destruct (Z.eqb_spec x 62); cbn; split; intros; (done || congruence).
Qed.

Lemma not_lt_spec (x : Z) : not_lt x = true ↔ x ≠ chr "<".
Proof.
  unfold not_lt, none_of, one_of. change (chr "<") with 60. change (js "<") with [60].
  cbn [existsb]. destruct (Z.eqb_spec x 60); cbn; split; intros; (done || congruence).
Qed.

Lemma in_run_title (st st' : state) :
  In st' (run title_re st) ↔
  ∃ w1 a c w2,
    same_i (js "<title") w1 ∧ Forall (λ x, not_gt x = true) a ∧
    c ≠ [] ∧ Forall (λ x, not_lt x = true) c ∧ same_i (js "</title>") w2 ∧
    reaches st (w1 ++ a ++ chr ">" :: c ++ w2) st' ∧ cap st' = Some c.
Proof.
  unfold title_re. split.
  - intros H.
    apply in_run_seq_of_cons in H as (s1 & H1 & H).
    apply in_run_seq_of_cons in H as (s2 & H2 & H).
    apply in_run_seq_of_cons in H as (s3 & H3 & H).
    apply in_run_seq_of_cons in H as (s4 & H4 & H).
    apply in_run_single in H.
    apply in_run_lit_i in H1 as (w1 & Hw1 & R1 & C1).
    apply in_run_star_chr in H2 as (a & Ha & R2 & C2).
    apply in_run_chr in H3 as (g & Hg & R3 & C3).
    apply in_run_group in H4 as (s4' & H4 & ->).
    apply in_run_plus_chr in H4 as (c & Hne & Hc & R4 & C4).
    apply in_run_lit_i in H as (w2 & Hw2 & R5 & C5).
    unfold eqc in Hg. apply Z.eqb_eq in Hg as ->.
    exists w1, a, c, w2. repeat split; try done.
    + destruct R1 as [-> _], R2 as [-> _], R3 as [-> _], R4 as [-> _], R5 as [E5 _].
      simpl in E5. rewrite E5. by list_norm.
    + destruct R1 as [_ E1], R2 as [_ E2], R3 as [_ E3], R4 as [_ E4], R5 as [_ E5].
      simpl in E5. rewrite E5, E4, E3, E2, E1. rewrite !length_app. simpl.
      rewrite !length_app. simpl. lia.
    + rewrite C5. simpl. f_equal. destruct R4 as [-> ->].
      replace (idx s3 + length c - idx s3)%nat with (length c) by lia.
      by rewrite take_app_length.
  - intros (w1 & a & c & w2 & Hw1 & Ha & Hne & Hc & Hw2 & [Hs Hi] & Hcap).
    destruct st as [i s c0], st' as [i' s' c']. cbn [idx rest cap] in *. subst.
    list_norm.
    apply in_run_seq_of_cons.
    exists (St (i + length w1) (a ++ chr ">" :: c ++ w2 ++ s') c0). split.
    { apply in_run_lit_i. exists w1. unfold reaches. simpl. done. }
    apply in_run_seq_of_cons.
    exists (St (i + length w1 + length a) (chr ">" :: c ++ w2 ++ s') c0). split.
    { apply in_run_star_chr. exists a. unfold reaches. simpl. done. }
    apply in_run_seq_of_cons.
    exists (St (i + length w1 + length a + 1) (c ++ w2 ++ s') c0). split.
    { apply in_run_chr. exists (chr ">"). unfold reaches. simpl. done. }
    apply in_run_seq_of_cons.
    exists (St (i + length w1 + length a + 1 + length c) (w2 ++ s') (Some c)). split.
    { apply in_run_group.
      exists (St (i + length w1 + length a + 1 + length c) (w2 ++ s') c0). split.
      - apply in_run_plus_chr. exists c. unfold reaches. simpl. done.
      - unfold close. simpl. do 2 f_equal.
        replace (i + length w1 + length a + 1 + length c - (i + length w1 + length a + 1))%nat
          with (length c) by lia.
        by rewrite take_app_length. }
    apply in_run_single, in_run_lit_i. exists w2. unfold reaches. simpl.
    repeat split; [done|]. rewrite !length_app. simpl. rewrite !length_app. simpl. lia.
Qed.

Lemma same_i_head (a : Z) (w k : list Z) (x : Z) (k' : list Z) :
  same_i (a :: w) (x :: k') → isLetter a = false → in_range 0 127 a = true → x = a.
Proof.
  intros H Ha Hr. apply same_i_cons_inv in H as (x' & k'' & E & Hx & _).
  injection E as <- <-. unfold upperAscii, isLetter, isLower, isUpper, in_range in *.
  repeat case_match; lia.
Qed.

(** X6 (extractTitle): on a page whose only [<title], in any case, opens
    a title element with a text that is not empty, the result is that
    text with the whitespace at its two ends removed. *)
Theorem extractTitle_one_title (pre attrs t post : list Z) :
  positions (lit_i (js "<title"))
    (pre ++ js "<title" ++ attrs ++ chr ">" :: t ++ js "</title>" ++ post) = [length pre] →
  Forall (λ x, x ≠ chr ">") attrs → t ≠ [] → Forall (λ x, x ≠ chr "<") t →
  extractTitle (pre ++ js "<title" ++ attrs ++ chr ">" :: t ++ js "</title>" ++ post)
    = Some (trim t).
Proof.
  intros Hpos Ha Hne Ht.
  set (html := pre ++ js "<title" ++ attrs ++ chr ">" :: t ++ js "</title>" ++ post) in *.
  assert (Forall (λ x, not_gt x = true) attrs) as Ha'
    by (eapply Forall_impl; [exact Ha|]; intros x; apply not_gt_spec).
  assert (Forall (λ x, not_lt x = true) t) as Ht'
    by (eapply Forall_impl; [exact Ht|]; intros x; apply not_lt_spec).
  assert (length pre ≤ length html)%nat as Hlen
    by (subst html; rewrite length_app; lia).
  assert (drop (length pre) html
          = js "<title" ++ attrs ++ chr ">" :: t ++ js "</title>" ++ post) as Hdrop
    by (subst html; by rewrite drop_app_length).
  assert (∀ k st, (k ≤ length html)%nat →
            In st (run title_re (St k (drop k html) None)) → cap st = Some t) as Hcap.
  { intros k st Hk Hst.
    assert (In k (positions (lit_i (js "<title")) html)) as Hin.
    { apply positions_spec. split; [done|].
      unfold title_re in Hst. apply in_run_seq_of_cons in Hst as (s1 & H1 & _).
      by eapply matches_at_intro. }
    rewrite Hpos in Hin. destruct Hin as [<-|[]].
    apply in_run_title in Hst
      as (w1 & a & c & w2 & Hw1 & Haa & Hcne & Hc & Hw2 & [Hs _] & ->).
    cbn [rest] in Hs. rewrite Hdrop in Hs. f_equal.
    pose proof (same_i_length _ _ Hw1) as L1. cbn in L1.
    do 7 (destruct w1 as [|? w1]; try done). clear L1.
    destruct w2 as [|x2 w2]; [by apply same_i_length in Hw2|].
    apply same_i_head in Hw2 as ->; [|done..].
    change (js "<title") with [60; 116; 105; 116; 108; 101] in Hs.
    change (js "</title>") with (60 :: js "/title>") in Hs.
    change (chr ">") with 62 in Hs. change (chr "<") with 60 in Hs.
    repeat (progress (rewrite <- ?app_assoc in Hs; cbn [app] in Hs)).
    injection Hs as _ _ _ _ _ _ Hs.
    apply span_eq with (p := not_gt) in Hs as (_ & _ & Hs); try done.
    apply span_eq with (p := not_lt) in Hs as (Hs & _ & _); done. }
  assert (∃ st, In st (run title_re (St (length pre) (drop (length pre) html) None)))
    as [st Hst].
  { exists (St (length pre + length (js "<title" ++ attrs ++ chr ">" :: t ++ js "</title>"))
              post (Some t)).
    apply in_run_title. exists (js "<title"), attrs, t, (js "</title>").
    split_and!; try done; try apply same_i_refl.
    unfold reaches. cbn [rest idx]. rewrite Hdrop. split; [by list_norm|].
    by list_norm. }
  apply exec_Some_intro in Hst as (j & st' & Hj & Hex & Hin); [|done].
  unfold extractTitle, match1. rewrite Hex, (Hcap j st' Hj Hin). done.
Qed.

Lemma extractTitle_one_title_witness :
  extractTitle (jsq "<html><head><meta charset=`utf-8`>" ++ js "<title"
                ++ jsq " lang=`en`" ++ chr ">" :: js " Song > one " ++ js "</title>"
                ++ js "</head></html>")
    = Some (js "Song > one").
Proof.
  apply (extractTitle_one_title (jsq "<html><head><meta charset=`utf-8`>")
           (jsq " lang=`en`") (js " Song > one ") (js "</head></html>")).
  - reflexivity.
  - repeat constructor; done.
  - done.
  - repeat constructor; done.
Defined.
(** ** The hosts the validator refuses *)

Lemma test_private_host_intro (h : list Z) :
  (∃ p, In p private_prefixes ∧ startsWith p h = true) → test private_host h = true.
Proof.
  intros (p & Hp & H). apply startsWith_spec in H as [r ->].
  cbn in Hp. repeat destruct Hp as [<-|Hp]; try done; vm_compute; reflexivity.
Qed.

Ltac prefix_found p :=
  exists p; split; [cbn; tauto|apply startsWith_spec; eexists; eassumption].

Lemma reaches_start (h w : list Z) (st : state) :
  reaches (St 0 h None) w st → h = w ++ rest st.
Proof. by intros [? _]. Qed.

Lemma test_private_host_elim (h : list Z) :
  test private_host h = true → ∃ p, In p private_prefixes ∧ startsWith p h = true.
Proof.
  unfold private_host. intros H. apply test_bol in H as [st H].
  cbn [alt_of] in H.
  repeat (apply in_run_alt in H as [H|H]).
  - apply in_run_lit in H as [H%reaches_start _]. prefix_found (js "127.").
  - apply in_run_lit in H as [H%reaches_start _]. prefix_found (js "10.").
  - apply in_run_lit in H as [H%reaches_start _]. prefix_found (js "192.168.").
  - apply in_run_seq_of_cons in H as (s1 & H1 & H).
    apply in_run_seq_of_cons in H as (s2 & H2 & H).
    apply in_run_single in H.
    apply in_run_lit in H1 as [[E1 _] _]. cbn [rest] in E1.
    apply in_run_lit in H as [[E3 _] _].
    cbn [alt_of] in H2.
    assert (∃ d1 d2, rest s1 = d1 :: d2 :: rest s2 ∧
              (d1 = 49 ∧ 54 ≤ d2 ≤ 57 ∨ d1 = 50 ∧ 48 ≤ d2 ≤ 57 ∨ d1 = 51 ∧ 48 ≤ d2 ≤ 49))
      as (d1 & d2 & E2 & Hd).
    { repeat (apply in_run_alt in H2 as [H2|H2]);
        apply in_run_seq in H2 as (s' & Ha & Hb);
        apply in_run_chr in Ha as (d1 & Hd1 & [Ea _] & _);
        apply in_run_chr in Hb as (d2 & Hd2 & [Eb _] & _);
        exists d1, d2; (split; [by rewrite Ea, Eb|]);
        unfold eqc, isDigit, one_of in Hd1, Hd2; unfold in_range in Hd1, Hd2;
        change (chr "1") with 49 in *; change (chr "2") with 50 in *;
        change (chr "3") with 51 in *; change (chr "6") with 54 in *;
        change (chr "9") with 57 in *; change (js "01") with [48; 49] in *;
        cbn [existsb] in Hd2; clear -Hd1 Hd2; zbool. }
    rewrite E2, E3 in E1.
    assert (In (d1, d2) [(49, 54); (49, 55); (49, 56); (49, 57);
                         (50, 48); (50, 49); (50, 50); (50, 51); (50, 52);
                         (50, 53); (50, 54); (50, 55); (50, 56); (50, 57);
                         (51, 48); (51, 49)]) as Hin.
    { cbn. destruct Hd as [[-> ?]|[[-> ?]|[-> ?]]];
        assert (d2 = 48 ∨ d2 = 49 ∨ d2 = 50 ∨ d2 = 51 ∨ d2 = 52 ∨ d2 = 53 ∨ d2 = 54
                ∨ d2 = 55 ∨ d2 = 56 ∨ d2 = 57) as Hc by lia;
        repeat destruct Hc as [->|Hc]; try subst d2; try lia; tauto. }
    cbn in Hin.
    repeat destruct Hin as [Hin|Hin]; try done; injection Hin as <- <-;
      match type of E1 with
      | _ = js "172." ++ ?a :: ?b :: js "." ++ _ =>
          exists (js "172." ++ a :: b :: js "."); split;
            [cbn; tauto|apply startsWith_spec; exists (rest st); by rewrite E1]
      end.
  - apply in_run_lit in H as [H%reaches_start _]. prefix_found (js "0.").
  - apply in_run_lit in H as [H%reaches_start _]. prefix_found (js "169.254.").
  - apply in_run_lit in H as [H%reaches_start _]. prefix_found (js "::1").
  - apply in_run_lit in H as [H%reaches_start _]. prefix_found (js "fc").
  - apply in_run_lit in H as [H%reaches_start _]. prefix_found (js "fd").
  - apply in_run_lit in H as [H%reaches_start _]. prefix_found (js "fe80").
Qed.

(** X7 (validateUrl): a URL is accepted exactly when it parses, its
    scheme is [http:] or [https:], and its lower-cased host name is
    neither [localhost] nor [[::1]] and begins with none of the prefixes
    the pattern spells out. *)
Theorem validateUrl_accepts_iff (parseURL : list Z → option URL) (url : list Z) :
  validateUrl parseURL url = None ↔
  ∃ u, parseURL url = Some u ∧
       (protocol u = js "https:" ∨ protocol u = js "http:") ∧
       (∀ p, In p private_prefixes → startsWith p (toLowerCase (hostname u)) = false) ∧
       toLowerCase (hostname u) ≠ js "localhost" ∧
       toLowerCase (hostname u) ≠ js "[::1]".
Proof.
  unfold validateUrl, list_eqb. split.
  - destruct (parseURL url) as [u|]; [|done]. intros H. exists u. split; [done|].
    repeat case_bool_decide; try done; cbn [negb andb orb] in H;
      destruct (test private_host (toLowerCase (hostname u))) eqn:Ht; try done;
      (split_and!; try done; try tauto;
       intros p Hp; destruct (startsWith p _) eqn:Hsw; [|done];
       rewrite test_private_host_intro in Ht by eauto; done).
  - intros (u & -> & Hproto & Hpre & Hl & H1).
    assert (test private_host (toLowerCase (hostname u)) = false) as ->.
    { destruct (test private_host _) eqn:Ht; [|done].
      apply test_private_host_elim in Ht as (p & Hp & Hsw).
      rewrite (Hpre p Hp) in Hsw. done. }
    repeat case_bool_decide; try done; destruct Hproto; done.
Qed.
(** ** Object texts *)

Lemma closing_brace_string (body rest_ : list Z) (i : nat) (depth : Z) :
  string_body body →
  closing_brace (body ++ dquote :: rest_) i depth true false
  = closing_brace rest_ (i + length body + 1) depth false false.
Proof.
  intros H. revert i. induction H as [|x s Hb Hq _ IH|x s _ IH]; intros i.
  - cbn [app closing_brace length]. unfold dquote, backslash. cbn.
    f_equal. lia.
  - cbn [app closing_brace length].
    destruct (Z.eqb_spec x backslash); [done|]. destruct (Z.eqb_spec x dquote); [done|].
    rewrite IH. f_equal. lia.
  - cbn [app closing_brace length]. rewrite Z.eqb_refl, IH. f_equal. lia.
Qed.

Lemma closing_brace_balanced (inner rest_ : list Z) (i : nat) (depth : Z) :
  balanced inner → 1 ≤ depth →
  closing_brace (inner ++ rest_) i depth false false
  = closing_brace rest_ (i + length inner) depth false false.
Proof.
  intros H. revert rest_ i depth.
  induction H as [|x s Hq Ho Hc _ IH|body s Hb _ IH|inner s _ IH1 _ IH2];
    intros rest_ i depth Hd.
  - cbn. f_equal. lia.
  - cbn [app closing_brace length].
    destruct (Z.eqb_spec x dquote); [done|]. destruct (Z.eqb_spec x (chr "{")); [done|].
    destruct (Z.eqb_spec x (chr "}")); [done|]. rewrite IH by done. f_equal. lia.
  - cbn [app closing_brace length]. rewrite Z.eqb_refl.
    rewrite <- app_assoc. cbn [app]. rewrite closing_brace_string by done.
    rewrite IH by done. f_equal. rewrite length_app. cbn [length]. lia.
  - cbn [app closing_brace length].
    change (chr "{" =? dquote) with false. rewrite Z.eqb_refl. cbv iota.
    rewrite <- app_assoc. cbn [app]. rewrite IH1 by lia.
    cbn [closing_brace]. change (chr "}" =? dquote) with false.
    change (chr "}" =? chr "{") with false. rewrite Z.eqb_refl. cbv iota.
    destruct (Z.eqb_spec (depth + 1 - 1) 0); [lia|].
    replace (depth + 1 - 1) with depth by lia.
    rewrite IH2 by done. f_equal. rewrite length_app. cbn [length]. lia.
Qed.

(** X8 (extractJsonObject): an object in braces whose inside is
    balanced is returned whole, braces included, whatever the text
    before it and after it: braces inside string literals, escaped
    quotes and nested objects do not end it early.  An object that is
    cut short before its closing brace gives [null], and so does a
    start index that is not at an opening brace or is past the end. *)
Theorem extractJsonObject_balanced (pre inner post : list Z) :
  balanced inner →
  extractJsonObject (pre ++ chr "{" :: inner ++ chr "}" :: post) (length pre)
    = Some (chr "{" :: inner ++ [chr "}"]) ∧
  extractJsonObject (pre ++ chr "{" :: inner) (length pre) = None ∧
  (∀ x, x ≠ chr "{" → extractJsonObject (pre ++ x :: post) (length pre) = None) ∧
  (∀ k, extractJsonObject pre (length pre + k) = None).
Proof.
  intros H. unfold extractJsonObject. split_and!.
  - rewrite list_lookup_middle by done. rewrite Z.eqb_refl.
    rewrite drop_app_length. cbn [closing_brace].
    change (chr "{" =? dquote) with false. rewrite Z.eqb_refl. cbv iota.
    rewrite closing_brace_balanced by done. cbn [closing_brace].
    change (chr "}" =? dquote) with false. change (chr "}" =? chr "{") with false.
    rewrite Z.eqb_refl. cbv iota. change (0 + 1 - 1 =? 0) with true. cbv iota.
    f_equal.
    replace (S (S (length pre) + length inner))
      with (length pre + (length (chr "{" :: inner ++ [chr "}"])))%nat
      by (cbn [length]; rewrite length_app; cbn [length]; lia).
    rewrite take_app_add.
    rewrite drop_app_length.
    replace (chr "{" :: inner ++ chr "}" :: post)
      with ((chr "{" :: inner ++ [chr "}"]) ++ post) by (by list_norm).
    by rewrite take_app_length.
  - rewrite list_lookup_middle by done. rewrite Z.eqb_refl.
    rewrite drop_app_length. cbn [closing_brace].
    change (chr "{" =? dquote) with false. rewrite Z.eqb_refl. cbv iota.
    rewrite <- (app_nil_r inner). by rewrite closing_brace_balanced.
  - intros x Hx. rewrite list_lookup_middle by done.
    by destruct (Z.eqb_spec x (chr "{")).
  - intros k. by rewrite lookup_ge_None_2 by lia.
Qed.

Lemma extractJsonObject_balanced_witness :
  extractJsonObject
    (jsq "5:{`clip`:" ++ chr "{" :: jsq "`id`:`a}b`,`m`:{`p`:`x\`{`}" ++ chr "}" :: js "}<")
    (length (jsq "5:{`clip`:"))
    = Some (chr "{" :: jsq "`id`:`a}b`,`m`:{`p`:`x\`{`}" ++ [chr "}"]) ∧
  extractJsonObject (jsq "5:{`clip`:" ++ chr "{" :: jsq "`id`:`a}b`,`m`:{`p`:`x\`{`}")
    (length (jsq "5:{`clip`:")) = None ∧
  (∀ x, x ≠ chr "{" →
     extractJsonObject (jsq "5:{`clip`:" ++ x :: js "}<") (length (jsq "5:{`clip`:"))
       = None) ∧
  (∀ k, extractJsonObject (jsq "5:{`clip`:") (length (jsq "5:{`clip`:") + k) = None).
Proof.
  apply extractJsonObject_balanced.
  apply (bal_str (js "id") (jsq ":`a}b`,`m`:{`p`:`x\`{`}")); [repeat constructor; done|].
  apply bal_chr; [done..|].
  apply (bal_str (js "a}b") (jsq ",`m`:{`p`:`x\`{`}")); [repeat constructor; done|].
  apply bal_chr; [done..|].
  apply (bal_str (js "m") (jsq ":{`p`:`x\`{`}")); [repeat constructor; done|].
  apply bal_chr; [done..|].
  apply (bal_obj (jsq "`p`:`x\`{`") []); [|constructor].
  apply (bal_str (js "p") (jsq ":`x\`{`")); [repeat constructor; done|].
  apply bal_chr; [done..|].
  apply (bal_str (js "x\" ++ dquote :: js "{") []); [|constructor].
  apply body_chr; [done..|]. apply body_esc. apply body_chr; [done..|]. constructor.
Defined.
(** ** Lyrics *)

Lemma find_In {A : Type} (f : A → bool) (l : list A) (x : A) :
  find f l = Some x → In x l ∧ f x = true.
Proof. apply find_some. Qed.

Lemma In_take_drop {A : Type} (x : A) (n m : nat) (l : list A) :
  In x (take n (drop m l)) → In x l.
Proof.
  intros H. apply list_elem_of_In. apply list_elem_of_In in H.
  by eapply subseteq_drop, subseteq_take.
Qed.

Lemma resolveSunoPromptToken_Some (html token l : list Z) :
  resolveSunoPromptToken html token = Some l →
  ∃ c, In c (extractSunoFlightChunks html) ∧ looksLikeSunoLyrics c = true ∧ l = trim c.
Proof.
  unfold resolveSunoPromptToken.
  generalize (extractSunoFlightChunks html). intros chunks.
  destruct (negb (test token_ref token)); [done|].
  destruct (match findIndex _ chunks with Some ti => _ | None => None end) as [c|] eqn:E1.
  { intros [= <-]. destruct (findIndex _ chunks) as [ti|]; [|done].
    apply find_In in E1 as [Hin Hc]. apply In_take_drop in Hin. eauto. }
  destruct (match findIndex (includes clip_marker) chunks with
            | Some (S ci) => _ | _ => None end) as [c|] eqn:E2.
  { intros [= <-].
    destruct (findIndex (includes clip_marker) chunks) as [[|ci]|]; try done.
    destruct (chunks !! ci) as [c'|] eqn:E3; [|done].
    destruct (looksLikeSunoLyrics c') eqn:E4; [|done]. injection E2 as ->.
    apply list_elem_of_lookup_2, list_elem_of_In in E3. eauto. }
  destruct (find looksLikeSunoLyrics chunks) as [c|] eqn:E3; [|done].
  intros [= <-]. apply find_In in E3 as [Hin Hc]. eauto.
Qed.

(** X9 (resolveSunoPromptToken): a token that is not a dollar sign and
    digits resolves to [null]; for one that is, the result is [null]
    exactly when no flight chunk of the page looks like lyrics; and a
    result is always a chunk that looks like lyrics, trimmed. *)
Theorem resolveSunoPromptToken_chunk (html token : list Z) :
  (test token_ref token = false → resolveSunoPromptToken html token = None) ∧
  (test token_ref token = true →
     (resolveSunoPromptToken html token = None ↔
      ∀ c, In c (extractSunoFlightChunks html) → looksLikeSunoLyrics c = false)) ∧
  (∀ l, resolveSunoPromptToken html token = Some l →
     ∃ c, In c (extractSunoFlightChunks html) ∧ looksLikeSunoLyrics c = true ∧ l = trim c).
Proof.
  split_and!; [| |apply resolveSunoPromptToken_Some];
    unfold resolveSunoPromptToken;
    generalize (extractSunoFlightChunks html); intros chunks.
  - by intros ->.
  - intros ->. cbn [negb]. split.
    + intros H c Hc.
      destruct (match findIndex _ chunks with Some ti => _ | None => None end); [done|].
      destruct (match findIndex (includes clip_marker) chunks with
                | Some (S ci) => _ | _ => None end); [done|].
      destruct (find looksLikeSunoLyrics chunks) eqn:E; [done|].
      by eapply find_none in E.
    + intros H.
      destruct (match findIndex _ chunks with Some ti => _ | None => None end) as [c|] eqn:E1.
      { destruct (findIndex _ chunks) as [ti|]; [|done].
        apply find_In in E1 as [Hin Hc]. apply In_take_drop, H in Hin. congruence. }
      destruct (match findIndex (includes clip_marker) chunks with
                | Some (S ci) => _ | _ => None end) as [c|] eqn:E2.
      { destruct (findIndex (includes clip_marker) chunks) as [[|ci]|]; try done.
        destruct (chunks !! ci) as [c'|] eqn:E3; [|done].
        destruct (looksLikeSunoLyrics c') eqn:E4; [|done].
        apply list_elem_of_lookup_2, list_elem_of_In, H in E3. congruence. }
      destruct (find looksLikeSunoLyrics chunks) as [c|] eqn:E3; [|done].
      apply find_In in E3 as [Hin Hc]. apply H in Hin. congruence.
Qed.
Lemma dropWhileEnd_nil (p : Z → bool) : dropWhileEnd p [] = [].
Proof. done. Qed.

Lemma trim_head (s : list Z) (x : Z) : head (trim s) = Some x → isWhiteSpace x = false.
Proof.
  unfold trim. apply dropWhileEnd_head. intros y. apply dropWhile_head.
Qed.

Lemma trim_last (s : list Z) (x : Z) : last (trim s) = Some x → isWhiteSpace x = false.
Proof. unfold trim. apply dropWhileEnd_last. Qed.

Lemma trim_idem (s : list Z) : trim (trim s) = trim s.
Proof.
  unfold trim at 1. rewrite dropWhile_fixed by apply trim_head.
  apply dropWhileEnd_fixed, trim_last.
Qed.

Lemma test_instrumental_length (s : list Z) :
  test instrumental s = true → length s = 14%nat.
Proof.
  unfold instrumental. change (seq_of [Bol; ?a; ?b]) with (Seq Bol (seq_of [a; b])).
  intros [st H]%test_bol.
  apply in_run_seq_of_cons in H as (s1 & H1 & H). apply in_run_single in H.
  apply in_run_lit_i in H1 as (w & Hw & [E1 _] & _).
  apply in_run_eol in H as [-> E2]. cbn [rest] in E1. rewrite E2, app_nil_r in E1.
  subst w. by apply same_i_length in Hw.
Qed.

Lemma looksLikeSunoLyrics_length (c : list Z) :
  looksLikeSunoLyrics c = true → (80 ≤ length (trim c))%nat.
Proof.
  unfold looksLikeSunoLyrics. destruct (Nat.ltb_spec (length (trim c)) 80); [done|lia].
Qed.

Lemma take_short {A : Type} (n : nat) (l : list A) :
  (length (take n l) < n)%nat → take n l = l.
Proof. intros H. rewrite length_take in H. apply take_ge. lia. Qed.

Section LyricsProperties.

Context (number : Type) (number_truthy : number → bool).
Context (JSON_parse : list Z → outcome (jsval number)).

Lemma call_trim_trimmed (v : jsval number) (s : list Z) :
  call_trim number v = Return s → trim s = s.
Proof. destruct v; try done. intros [= <-]. apply trim_idem. Qed.

Lemma resolved_text (html prompt l : list Z) :
  prompt ≠ [] → trim prompt = prompt → test instrumental prompt = false →
  match (if test token_ref prompt then resolveSunoPromptToken html prompt else Some prompt) with
  | None | Some [] => Return None
  | Some r => if test token_ref r then Return None else Return (Some (slice0 20000 r))
  end = Return (Some l) →
  ∃ r, l = take 20000 r ∧ r ≠ [] ∧ trim r = r ∧
       test token_ref r = false ∧ test instrumental r = false.
Proof.
  intros Hne Htrim Hinst.
  destruct (test token_ref prompt) eqn:Htok.
  - destruct (resolveSunoPromptToken html prompt) as [[|c r]|] eqn:E; try done.
    destruct (test token_ref (c :: r)) eqn:Htok'; [done|]. intros H.
    assert (l = slice0 20000 (c :: r)) as -> by congruence. clear H.
    apply resolveSunoPromptToken_Some in E as (c' & _ & Hc' & Ec).
    exists (c :: r). split_and!; try done.
    + rewrite Ec. apply trim_idem.
    + destruct (test instrumental (c :: r)) eqn:Hi; [|done].
      apply test_instrumental_length in Hi.
      apply looksLikeSunoLyrics_length in Hc'. rewrite <- Ec in Hc'. lia.
  - destruct prompt as [|c r]; [done|]. rewrite Htok. intros H.
    assert (l = slice0 20000 (c :: r)) as -> by congruence. clear H.
    by exists (c :: r).
Qed.

(** What [extractSunoLyrics] returns is the start of a text that is
    trimmed and not empty, and is neither a reference nor the
    instrumental mark. *)
Lemma lyricsOfClip_Some (html clipJson l : list Z) :
  lyricsOfClip number number_truthy JSON_parse html clipJson = Return (Some l) →
  ∃ r, l = take 20000 r ∧ r ≠ [] ∧ trim r = r ∧
       test token_ref r = false ∧ test instrumental r = false.
Proof.
  unfold lyricsOfClip.
  destruct (JSON_parse clipJson) as [clip|]; [|done]. cbn [mbind outcome_bind].
  destruct (get number clip (js "metadata")) as [md|]; [|done]. cbn [mbind outcome_bind].
  destruct (get number clip (js "displayed_lyrics")) as [d1|]; [|done].
  cbn [mbind outcome_bind].
  destruct (or_else _ _ _ _) as [d2|]; [|done]. cbn [mbind outcome_bind].
  destruct (call_trim number (if is_truthy number number_truthy d2 then d2 else VStr number []))
    as [d|] eqn:Ed; [|done]. cbn [mbind outcome_bind].
  apply call_trim_trimmed in Ed.
  assert (∀ meta,
    (p1 ← get number meta (js "prompt");
     p ← call_trim number (if is_truthy number number_truthy p1 then p1 else VStr number []);
     match or_null p with
     | None => Return None
     | Some prompt =>
         if test instrumental prompt then Return None
         else
           match (if test token_ref prompt then resolveSunoPromptToken html prompt
                  else Some prompt) with
           | None | Some [] => Return None
           | Some r =>
               if test token_ref r then Return None else Return (Some (slice0 20000 r))
           end
     end) = Return (Some l) →
    ∃ r, l = take 20000 r ∧ r ≠ [] ∧ trim r = r ∧
         test token_ref r = false ∧ test instrumental r = false) as Hprompt.
  { intros meta.
    destruct (get number meta (js "prompt")) as [p1|]; [|done]. cbn [mbind outcome_bind].
    destruct (call_trim number _) as [p|] eqn:Ep; [|done]. cbn [mbind outcome_bind].
    apply call_trim_trimmed in Ep.
    destruct p as [|c p]; [done|]. cbn [or_null nonempty].
    destruct (test instrumental (c :: p)) eqn:Hi; [done|].
    by apply resolved_text. }
  unfold or_null at 1 2.
  destruct d as [|x d]; cbn [nonempty]; cbv beta iota; [apply Hprompt|].
  destruct (test token_ref (x :: d)) eqn:Htok; cbn [negb andb]; cbv beta iota;
    [apply Hprompt|].
  destruct (test instrumental (x :: d)) eqn:Hi; cbn [negb andb]; cbv beta iota;
    [apply Hprompt|].
  cbn [fmap option_fmap option_map]. intros H.
  assert (l = slice0 20000 (x :: d)) as -> by congruence. clear H.
  by exists (x :: d).
Qed.

(** X10 (extractSunoLyrics): lyrics, when some are returned, are not
    empty, hold at most 20000 code units, do not begin with
    whitespace and are not the instrumental mark; unless they were cut
    at 20000 code units, they are trimmed and are not a reference of
    the form dollar sign and digits. *)
Theorem extractSunoLyrics_bounds (html l : list Z) :
  extractSunoLyrics number number_truthy JSON_parse html = Return (Some l) →
  l ≠ [] ∧ (length l ≤ 20000)%nat ∧
  (∀ x, head l = Some x → isWhiteSpace x = false) ∧
  test instrumental l = false ∧
  ((length l < 20000)%nat → trim l = l ∧ test token_ref l = false).
Proof.
  unfold extractSunoLyrics.
  destruct (_ =? -1); [done|]. destruct (_ =? -1); [done|].
  destruct (extractJsonObject _ _) as [clipJson|]; [|done].
  rewrite try_catch_Some.
  intros (r & -> & Hne & Htrim & Htok & Hinst)%lyricsOfClip_Some.
  pose proof (take_short 20000 r) as Hshort.
  assert (14 < 20000)%nat as Hbig by (apply Nat.ltb_lt; vm_compute; reflexivity).
  generalize dependent 20000%nat. intros n Hshort Hbig.
  split_and!.
  - destruct r; [done|]. destruct n; [lia|done].
  - apply firstn_le_length.
  - intros x Hx. apply (trim_head r). rewrite Htrim. destruct r; [done|].
    destruct n; [lia|done].
  - destruct (test instrumental (take n r)) eqn:Hi; [|done].
    pose proof (test_instrumental_length _ Hi) as Hlen.
    rewrite Hshort in Hi by lia. congruence.
  - intros H. by rewrite (Hshort H).
Qed.

End LyricsProperties.

Lemma extractSunoLyrics_bounds_witness :
  sample_lyrics ≠ [] ∧ (length sample_lyrics ≤ 20000)%nat ∧
  (∀ x, head sample_lyrics = Some x → isWhiteSpace x = false) ∧
  test instrumental sample_lyrics = false ∧
  ((length sample_lyrics < 20000)%nat →
     trim sample_lyrics = sample_lyrics ∧ test token_ref sample_lyrics = false).
Proof.
  apply (extractSunoLyrics_bounds Z (λ n, negb (n =? 0)) sample_JSON_parse sample_embed).
  vm_compute. reflexivity.
Defined.
(** ** Clients of the rate limiter *)

Lemma checkRateLimit_local (now : Z) (ip : list Z) (m m' : gmap (list Z) RateEntry) :
  m !! ip = m' !! ip →
  (checkRateLimit now ip m).1 = (checkRateLimit now ip m').1 ∧
  (checkRateLimit now ip m).2 !! ip = (checkRateLimit now ip m').2 !! ip.
Proof.
  intros H. unfold checkRateLimit. rewrite <- H.
  destruct (m !! ip) as [e|]; [destruct (_ >? _)|]; cbn [fst snd];
    by rewrite !lookup_insert_eq.
Qed.

Lemma checkRateLimit_other (now : Z) (ip ip' : list Z) (m : gmap (list Z) RateEntry) :
  ip ≠ ip' → (checkRateLimit now ip m).2 !! ip' = m !! ip'.
Proof.
  intros H. unfold checkRateLimit.
  destruct (m !! ip) as [e|]; [destruct (_ >? _)|]; cbn [snd];
    by rewrite lookup_insert_ne.
Qed.

Lemma checkRateLimit_dom (now : Z) (ip : list Z) (m : gmap (list Z) RateEntry) :
  dom (checkRateLimit now ip m).2 = {[ip]} ∪ dom m.
Proof.
  unfold checkRateLimit.
  destruct (m !! ip) as [e|]; [destruct (_ >? _)|]; cbn [snd]; by rewrite dom_insert_L.
Qed.

Lemma checkRateLimit_trace_cons (now : Z) (ip : list Z) (later : list (Z * list Z))
    (m : gmap (list Z) RateEntry) :
  checkRateLimit_trace ((now, ip) :: later) m =
    ((checkRateLimit now ip m).1 :: (checkRateLimit_trace later (checkRateLimit now ip m).2).1,
     (checkRateLimit_trace later (checkRateLimit now ip m).2).2).
Proof.
  cbn [checkRateLimit_trace]. destruct (checkRateLimit now ip m) as [ok m1].
  cbn [fst snd]. by destruct (checkRateLimit_trace later m1).
Qed.

Lemma checkRateLimit_calls_cons (now : Z) (ip : list Z) (later : list Z)
    (m : gmap (list Z) RateEntry) :
  checkRateLimit_calls (now :: later) ip m =
    ((checkRateLimit now ip m).1 :: (checkRateLimit_calls later ip (checkRateLimit now ip m).2).1,
     (checkRateLimit_calls later ip (checkRateLimit now ip m).2).2).
Proof.
  cbn [checkRateLimit_calls]. destruct (checkRateLimit now ip m) as [ok m1].
  cbn [fst snd]. by destruct (checkRateLimit_calls later ip m1).
Qed.

Lemma checkRateLimit_calls_local (ip : list Z) (times : list Z) :
  ∀ m m' : gmap (list Z) RateEntry, m !! ip = m' !! ip →
  (checkRateLimit_calls times ip m).1 = (checkRateLimit_calls times ip m').1 ∧
  (checkRateLimit_calls times ip m).2 !! ip = (checkRateLimit_calls times ip m').2 !! ip.
Proof.
  induction times as [|now later IH]; intros m m' H; [done|].
  rewrite !checkRateLimit_calls_cons. cbn [fst snd].
  destruct (checkRateLimit_local now ip m m' H) as [H1 H2].
  destruct (IH _ _ H2) as [H3 H4]. by rewrite H1, H3, H4.
Qed.

(** X11 (checkRateLimit): clients are limited independently of each
    other.  In any interleaving of calls, the answers a client gets and
    the entry it ends with are those it would get had it made its own
    calls alone, at the same clock reads. *)
Theorem checkRateLimit_independent (ip : list Z) (calls : list (Z * list Z))
    (m : gmap (list Z) RateEntry) :
  (filter (λ c, c.1.2 = ip) (zip calls (checkRateLimit_trace calls m).1)).*2
    = (checkRateLimit_calls (filter (λ c, c.2 = ip) calls).*1 ip m).1 ∧
  (checkRateLimit_trace calls m).2 !! ip
    = (checkRateLimit_calls (filter (λ c, c.2 = ip) calls).*1 ip m).2 !! ip.
Proof.
  assert (∀ m' : gmap (list Z) RateEntry, m !! ip = m' !! ip →
    (filter (λ c, c.1.2 = ip) (zip calls (checkRateLimit_trace calls m).1)).*2
      = (checkRateLimit_calls (filter (λ c, c.2 = ip) calls).*1 ip m').1 ∧
    (checkRateLimit_trace calls m).2 !! ip
      = (checkRateLimit_calls (filter (λ c, c.2 = ip) calls).*1 ip m').2 !! ip) as H;
    [|by apply H].
  revert m. induction calls as [|[now ip0] later IH]; intros m m' Hm; [done|].
  rewrite checkRateLimit_trace_cons. cbn [fst snd zip zip_with].
  rewrite !filter_cons. cbn [fst snd].
  destruct (decide (ip0 = ip)) as [->|Hne].
  - rewrite !fmap_cons, checkRateLimit_calls_cons. cbn [fst snd].
    destruct (checkRateLimit_local now ip m m' Hm) as [H1 H2].
    destruct (IH _ _ H2) as [H3 H4]. by rewrite H1, H3, H4.
  - apply IH. by rewrite checkRateLimit_other.
Qed.

(** X12 (checkRateLimit): the map never sheds an entry.  After any
    calls it holds the entries it had and one for every client that
    called, whether the call was admitted or refused. *)
Theorem checkRateLimit_keeps_entries (calls : list (Z * list Z))
    (m : gmap (list Z) RateEntry) :
  dom (checkRateLimit_trace calls m).2 = dom m ∪ list_to_set calls.*2.
Proof.
  revert m. induction calls as [|[now ip] later IH]; intros m.
  - cbn. set_solver.
  - rewrite checkRateLimit_trace_cons. cbn [snd].
    rewrite IH, checkRateLimit_dom. cbn. set_solver.
Qed.
(** ** Empty file names *)

Lemma dropWhile_nil_iff (p : Z → bool) (s : list Z) :
  dropWhile p s = [] ↔ forallb p s = true.
Proof.
  induction s as [|x s IH]; [done|]. cbn [dropWhile forallb].
  destruct (p x); [done|]. cbn. split; done.
Qed.

Lemma dropWhileEnd_nil_iff (p : Z → bool) (s : list Z) :
  dropWhileEnd p s = [] ↔ forallb p s = true.
Proof.
  destruct s as [|x s]; [done|]. rewrite dropWhileEnd_cons.
  destruct (forallb p (x :: s)); split; done.
Qed.

Lemma dropWhile_forallb (p : Z → bool) (s : list Z) :
  forallb p (dropWhile p s) = forallb p s.
Proof.
  induction s as [|x s IH]; [done|]. cbn [dropWhile forallb].
  destruct (p x) eqn:E; [done|]. cbn [forallb]. by rewrite E.
Qed.

Lemma dropWhileEnd_length (p : Z → bool) (s : list Z) :
  (length (dropWhileEnd p s) ≤ length s)%nat.
Proof.
  unfold dropWhileEnd. rewrite length_rev, <- (length_rev s). apply dropWhile_length.
Qed.

Lemma unsafe_not_dot_or_space (x : Z) : unsafe_char x = true → dot_or_space x = false.
Proof.
  intros H. apply one_of_spec in H. cbn in H.
  repeat destruct H as [<-|H]; [vm_compute; reflexivity..|done].
Qed.

Lemma sanitiseFilename_no_unsafe (s : list Z) :
  Forall (λ x, unsafe_char x = false) (sanitiseFilename s).
Proof.
  rewrite sanitiseFilename_eq. apply dropWhileEnd_Forall, dropWhile_Forall.
  apply Forall_fmap, Forall_forall. intros x _. unfold compose.
  destruct (unsafe_char x) eqn:E; [vm_compute; reflexivity|done].
Qed.

(** X13 (sanitiseFilename): the result is never longer than the input,
    and it is empty exactly when the input holds nothing but dots and
    whitespace; a title of dots alone leaves a file name that is its
    extension alone. *)
Theorem sanitiseFilename_empty_iff (s : list Z) :
  (length (sanitiseFilename s) ≤ length s)%nat ∧
  (sanitiseFilename s = [] ↔ Forall (λ x, x = chr "." ∨ isWhiteSpace x = true) s).
Proof.
  rewrite sanitiseFilename_eq. split.
  - etrans; [apply dropWhileEnd_length|]. etrans; [apply dropWhile_length|].
    by rewrite length_fmap.
  - rewrite dropWhileEnd_nil_iff, dropWhile_forallb, forallb_forall, Forall_forall.
    split.
    + intros H x Hx. apply list_elem_of_In in Hx.
      specialize (H _ (in_map _ _ _ Hx)). cbv beta in H.
      destruct (unsafe_char x) eqn:E; [by vm_compute in H|].
      unfold dot_or_space, eqc in H. apply orb_prop in H as [H|H]; [|by right].
      left. by apply Z.eqb_eq.
    + intros H y Hy. apply in_map_iff in Hy as (x & <- & Hx).
      apply list_elem_of_In, H in Hx.
      assert (dot_or_space x = true) as Hd.
      { unfold dot_or_space, eqc. destruct Hx as [-> | Hw]; [done|].
        rewrite Hw. apply orb_true_r. }
      destruct (unsafe_char x) eqn:E; [|done].
      apply unsafe_not_dot_or_space in E. congruence.
Qed.
(** ** Values of meta tags *)

Lemma exec_Some_run (r : re) (s : list Z) (j : nat) (st : state) :
  exec r s = Some (j, st) →
  (j ≤ length s)%nat ∧ In st (run r (St j (drop j s) None)).
Proof.
  unfold exec. intros (k & -> & Hk & Hh & _)%exec_from_Some. cbn [Nat.add] in *.
  split; [done|]. destruct (run r _); [done|]. injection Hh as ->. by left.
Qed.

Lemma on_page_take (html : list Z) (st : state) :
  on_page html st → html = take (idx st) html ++ rest st.
Proof. intros [-> _]. by rewrite take_drop. Qed.

Lemma content_on_page (html : list Z) (s st : state) :
  on_page html s → In st (run content_re s) →
  ∃ c, cap st = Some c ∧ c ≠ [] ∧ Forall (λ x, quote_char x = false) c ∧
       ∃ a b, html = a ++ c ++ b.
Proof.
  intros Hs (c8 & q3 & c & q4 & _ & _ & Hne & Hc & _ & [E _] & Hcap)%in_run_content.
  exists c. split_and!; try done.
  - eapply Forall_impl; [exact Hc|]. intros x Hx. cbv beta in Hx. rewrite not_quote_quote in Hx.
    by destruct (quote_char x).
  - exists (take (idx s) html ++ c8 ++ [q3]), (q4 :: rest st).
    rewrite (on_page_take html s Hs) at 1. rewrite E. by list_norm.
Qed.

Lemma extractMeta_Some (html tag v : list Z) :
  extractMeta html tag = Some v →
  v ≠ [] ∧ Forall (λ x, quote_char x = false) v ∧ ∃ a b, html = a ++ v ++ b.
Proof.
  unfold extractMeta, match1.
  destruct (exec (meta_pattern1 tag) html) as [[j st]|] eqn:E1.
  - intros Hv. apply exec_Some_run in E1 as [Hj Hin].
    apply in_run_pattern1 in Hin as (s1 & s2 & s3 & s4 & H1 & H2 & H3 & H4 & H5).
    pose proof (on_page_start html j Hj) as P0.
    pose proof (on_page_run _ _ _ _ P0 H1) as P1.
    pose proof (on_page_run _ _ _ _ P1 H2) as P2.
    pose proof (on_page_run _ _ _ _ P2 H3) as P3.
    pose proof (on_page_run _ _ _ _ P3 H4) as P4.
    destruct (content_on_page html s4 st P4 H5) as (c & Hc & ?). by simplify_eq.
  - destruct (exec (meta_pattern2 tag) html) as [[j st]|] eqn:E2; [|done].
    intros Hv. apply exec_Some_run in E2 as [Hj Hin].
    apply in_run_pattern2 in Hin as (s1 & s2 & s3 & s4 & H1 & H2 & H3 & H4 & H5).
    pose proof (on_page_start html j Hj) as P0.
    pose proof (on_page_run _ _ _ _ P0 H1) as P1.
    pose proof (on_page_run _ _ _ _ P1 H2) as P2.
    destruct (content_on_page html s2 s3 P2 H3) as (c & Hc & ?).
    apply in_run_plus_chr in H4 as (_ & _ & _ & _ & C4).
    apply in_run_attr in H5 as (_ & _ & _ & _ & _ & _ & _ & _ & _ & C5).
    rewrite C5, C4, Hc in Hv. by simplify_eq.
Qed.

(** X14 (extractMeta): a value, when one is returned, is never empty,
    holds no quote character of either kind, and is a piece of the
    page; [null] is the only other result. *)
Theorem extractMeta_value (html tag v : list Z) :
  extractMeta html tag = Some v →
  v ≠ [] ∧ (∀ x, In x v → x ≠ dquote ∧ x ≠ squote) ∧ ∃ a b, html = a ++ v ++ b.
Proof.
  intros (Hne & Hq & Hsub)%extractMeta_Some. split_and!; try done.
  intros x Hx. rewrite Forall_forall in Hq. apply list_elem_of_In, Hq in Hx.
  unfold quote_char, one_of in Hx. cbn [existsb] in Hx.
  destruct (Z.eqb_spec x dquote), (Z.eqb_spec x squote); done.
Qed.

Lemma extractMeta_value_witness :
  js "Song &amp; Dance" ≠ [] ∧
  (∀ x, In x (js "Song &amp; Dance") → x ≠ dquote ∧ x ≠ squote) ∧
  ∃ a b, scenario_pre ++ scenario_post = a ++ js "Song &amp; Dance" ++ b.
Proof.
  apply (extractMeta_value (scenario_pre ++ scenario_post) (js "og:title")).
  vm_compute. reflexivity.
Defined.
(** ** The request handler *)

Lemma findAudio_Some (html a t : list Z) (tags : list (list Z)) :
  findAudio html tags = Some (a, t) → a ≠ [] ∧ In t tags.
Proof.
  induction tags as [|tag tags IH]; [done|]. cbn [findAudio].
  destruct (extractMeta html tag) as [[|c v]|].
  - intros [? ?]%IH. split; [done|by right].
  - intros [= <- <-]. split; [done|by left].
  - intros [? ?]%IH. split; [done|by right].
Qed.

Lemma guessExtension_safe (url : list Z) :
  Forall (λ x, unsafe_char x = false) (guessExtension url).
Proof.
  pose proof (guessExtension_valid_In url) as H. cbn in H.
  repeat destruct H as [<-|H]; try done; repeat constructor.
Qed.

Lemma Ok_Some_inj {A : Type} (i j : A) :
  Ok (Some i) = Ok (Some j) :> result (option A) → i = j.
Proof. by intros [= ->]. Qed.

Section WorkerProperties.

Context (number : Type) (number_truthy : number → bool).
Context (parseURL : list Z → option URL).
Context (fetchPage : list Z → result PageResponse).
Context (fetchEmbed : list Z → outcome Response).
Context (JSON_parse : list Z → outcome (jsval number)).

Abbreviation scrape_ := (scrape number number_truthy parseURL fetchPage fetchEmbed JSON_parse).
Abbreviation extractAudioInfo_ :=
  (extractAudioInfo number number_truthy parseURL fetchPage fetchEmbed JSON_parse).
Abbreviation handleInfo_ :=
  (handleInfo number number_truthy parseURL fetchPage fetchEmbed JSON_parse).

Lemma fetchSunoLyrics_total (url : list Z) :
  ∃ r, fetchSunoLyrics number number_truthy parseURL fetchEmbed JSON_parse url = Return r.
Proof. apply try_catch_returns. Qed.

Lemma scrape_Some (url : list Z) (info : AudioInfo) :
  scrape_ url = Ok (Some info) → well_formed url info.
Proof.
  unfold scrape.
  destruct (fetchPage url) as [response|]; [|done]. cbn [mbind result_bind].
  destruct (negb (page_ok response)); [done|].
  destruct (match parseInt10 _ with Some n => n >? MAX_HTML_SIZE | None => false end);
    [done|].
  destruct (page_text response) as [html|]; [|done]. cbn [mbind result_bind].
  destruct (_ >? MAX_HTML_SIZE); [done|].
  destruct (extractAudio html) as [[a t]|] eqn:Ea; [|done].
  apply findAudio_Some in Ea as [Hne Hin].
  destruct (fetchSunoLyrics_total url) as [l ->]. cbn [mbind result_bind].
  intros <-%Ok_Some_inj. unfold well_formed. cbn [pageUrl audioUrl sourceTag title filename].
  split_and!; try done.
  - change (js "audio") with (97 :: js "udio").
    by destruct (decodeEntities _) as [[|c1 t1]|].
  - repeat (apply Forall_app; split); try apply guessExtension_safe;
      try (by repeat constructor).
    destruct (extractArtist html);
      repeat (apply Forall_app; split); try apply sanitiseFilename_no_unsafe;
      by repeat constructor.
  - by eexists.
Qed.

Lemma setCache_entries (now now' : Z) (url k : list Z) (d : AudioInfo) (e : CacheEntry)
    (cache : gmap (list Z) CacheEntry) :
  setCache now now' url d cache !! k = Some e →
  <[url := {| data := d; time := now |}]> cache !! k = Some e.
Proof.
  destruct (Nat.lt_ge_cases 200 (size (<[url := {| data := d; time := now |}]> cache)))
    as [Hbig|Hsmall].
  - by intros [? _]%setCache_lookup.
  - by rewrite setCache_small.
Qed.

Lemma extractAudioInfo_well_formed (clock : Clock) (url : list Z)
    (cache : gmap (list Z) CacheEntry) :
  (∀ k e, cache !! k = Some e → well_formed k (data e)) →
  (∀ k e, (extractAudioInfo_ clock url cache).2 !! k = Some e → well_formed k (data e)) ∧
  (∀ info, (extractAudioInfo_ clock url cache).1 = Ok (Some info) → well_formed url info).
Proof.
  intros Hcache. unfold extractAudioInfo, getCached.
  assert (∀ cache1 : gmap (list Z) CacheEntry,
    (∀ k e, cache1 !! k = Some e → well_formed k (data e)) →
    (∀ k e, (match scrape_ url with
             | Ok (Some info) =>
                 (Ok (Some info), setCache (t_set clock) (t_sweep clock) url info cache1)
             | r => (r, cache1)
             end).2 !! k = Some e → well_formed k (data e)) ∧
    (∀ info, (match scrape_ url with
              | Ok (Some info) =>
                  (Ok (Some info), setCache (t_set clock) (t_sweep clock) url info cache1)
              | r => (r, cache1)
              end).1 = Ok (Some info) → well_formed url info)) as Hfresh.
  { intros cache1 H1. destruct (scrape_ url) as [[info|]|m] eqn:Es; cbn [fst snd];
      try (split; [exact H1|done]).
    pose proof (scrape_Some url info Es) as Hinfo. split.
    - intros k e [[<- <-]|[_ He]]%setCache_entries%lookup_insert_Some; [done|eauto].
    - by intros ? <-%Ok_Some_inj. }
  destruct (cache !! url) as [entry|] eqn:E; [|by apply Hfresh].
  destruct (_ <? CACHE_TTL).
  - cbn [fst snd]. split; [done|]. intros info <-%Ok_Some_inj. eauto.
  - apply Hfresh. intros k e [_ He]%lookup_delete_Some. eauto.
Qed.

(** X15 (handleInfo, extractAudioInfo): the cache only ever holds
    well-formed result objects, each under the URL of its page, and
    every result object in a reply is well formed: it comes with status
    200, for the URL of the request with [https://] put before it when
    it has no scheme, it names that page, and that URL is one
    [validateUrl] accepts. *)
Theorem handleInfo_well_formed (clock : Clock) (request : Request)
    (rateLimitMap : gmap (list Z) RateEntry) (cache : gmap (list Z) CacheEntry) :
  (∀ k e, cache !! k = Some e → well_formed k (data e)) →
  (∀ k e, (handleInfo_ clock request rateLimitMap cache).2 !! k = Some e →
     well_formed k (data e)) ∧
  (∀ info, body (handleInfo_ clock request rateLimitMap cache).1.1 = InfoBody info →
     status (handleInfo_ clock request rateLimitMap cache).1.1 = 200 ∧
     ∃ target, url_param request = Some target ∧ target ≠ [] ∧
       pageUrl info = (if test scheme_re target then target else js "https://" ++ target) ∧
       validateUrl parseURL (pageUrl info) = None ∧
       well_formed (pageUrl info) info).
Proof.
  intros Hcache. unfold handleInfo.
  destruct (checkRateLimit _ _ _) as [allowed rl].
  destruct allowed; cbn [negb]; [|by split].
  destruct (url_param request) as [[|c target]|]; try by split.
  set (url := if test scheme_re (c :: target) then c :: target
              else js "https://" ++ c :: target).
  destruct (validateUrl parseURL url) as [e|] eqn:Ev; [by split|].
  destruct (extractAudioInfo_well_formed clock url cache Hcache) as [H1 H2].
  destruct (extractAudioInfo_ clock url cache) as [[[info|]|m] cache'];
    cbn [fst snd body status reply_error] in *; (split; [done|]); try done.
  intros ? [= <-]. split; [done|]. exists (c :: target).
  pose proof (H2 info eq_refl) as Hinfo.
  assert (pageUrl info = url) as -> by apply Hinfo.
  by split_and!.
Qed.

End WorkerProperties.

Lemma handleInfo_well_formed_witness :
  (∀ k e, (sample_handleInfo sample_clock sample_request ∅ ∅).2 !! k = Some e →
     well_formed k (data e)) ∧
  (∀ info, body (sample_handleInfo sample_clock sample_request ∅ ∅).1.1 = InfoBody info →
     status (sample_handleInfo sample_clock sample_request ∅ ∅).1.1 = 200 ∧
     ∃ target, url_param sample_request = Some target ∧ target ≠ [] ∧
       pageUrl info = (if test scheme_re target then target else js "https://" ++ target) ∧
       validateUrl sample_parseURL (pageUrl info) = None ∧
       well_formed (pageUrl info) info).
Proof.
  apply handleInfo_well_formed. intros k e H. by rewrite lookup_empty in H.
Defined.

Example handleInfo_sample :
  (sample_handleInfo sample_clock sample_request ∅ ∅).1.1
  = {| status := 200; body := InfoBody sample_info |}.
Proof. vm_compute. reflexivity. Qed.
Section WorkerFetches.

Context (number : Type) (number_truthy : number → bool).
Context (parseURL : list Z → option URL).
Context (fetchPage fetchPage' : list Z → result PageResponse).
Context (fetchEmbed fetchEmbed' : list Z → outcome Response).
Context (JSON_parse : list Z → outcome (jsval number)).

Lemma fetchSunoLyrics_embed (url : list Z) :
  (∀ id, test song_id id = true →
     fetchEmbed' (js "https://suno.com/embed/" ++ id)
     = fetchEmbed (js "https://suno.com/embed/" ++ id)) →
  fetchSunoLyrics number number_truthy parseURL fetchEmbed' JSON_parse url
  = fetchSunoLyrics number number_truthy parseURL fetchEmbed JSON_parse url.
Proof.
  intros H. unfold fetchSunoLyrics. f_equal.
  destruct (parseURL url) as [u|]; [|done]. cbn [mbind outcome_bind].
  destruct (_ && _); [done|]. destruct (filter _ _) as [|p0 [|id more]]; try done.
  destruct (negb (list_eqb p0 (js "song"))); [done|].
  destruct (test song_id id) eqn:Hid; [|done]. cbn [negb]. by rewrite H.
Qed.

Lemma scrape_fetches (url : list Z) :
  fetchPage' url = fetchPage url →
  (∀ id, test song_id id = true →
     fetchEmbed' (js "https://suno.com/embed/" ++ id)
     = fetchEmbed (js "https://suno.com/embed/" ++ id)) →
  scrape number number_truthy parseURL fetchPage' fetchEmbed' JSON_parse url
  = scrape number number_truthy parseURL fetchPage fetchEmbed JSON_parse url.
Proof.
  intros Hp He. unfold scrape. rewrite Hp.
  by rewrite (fetchSunoLyrics_embed url He).
Qed.


End WorkerFetches.


Section WorkerCache.

Context (number : Type) (number_truthy : number → bool).
Context (parseURL parseURL' : list Z → option URL).
Context (fetchPage fetchPage' : list Z → result PageResponse).
Context (fetchEmbed fetchEmbed' : list Z → outcome Response).
Context (JSON_parse JSON_parse' : list Z → outcome (jsval number)).

Lemma getCached_miss (now : Z) (url : list Z) (cache : gmap (list Z) CacheEntry) :
  (getCached now url cache).1 = None → (getCached now url cache).2 = delete url cache.
Proof.
  unfold getCached. destruct (cache !! url) as [e|] eqn:E.
  - by destruct (_ <? _).
  - intros _. cbn [snd]. by rewrite delete_id.
Qed.

(** X17 (extractAudioInfo, getCached, setCache): when the cache has no
    fresh entry for the URL, the page is scraped.  A result object is
    stored and served again on every later call made less than five
    minutes after it was stored, whatever the network then is and
    without a change to the cache; from five minutes on the page is
    scraped again.  A page without audio and a failure are not stored:
    the cache is left without an entry for the URL. *)
Theorem extractAudioInfo_replay (clock : Clock) (url : list Z)
    (cache : gmap (list Z) CacheEntry) :
  (getCached (t_get clock) url cache).1 = None →
  t_sweep clock - t_set clock ≤ CACHE_TTL →
  (extractAudioInfo number number_truthy parseURL fetchPage fetchEmbed JSON_parse
     clock url cache).1
    = scrape number number_truthy parseURL fetchPage fetchEmbed JSON_parse url ∧
  ((∀ info, scrape number number_truthy parseURL fetchPage fetchEmbed JSON_parse url
            ≠ Ok (Some info)) →
   (extractAudioInfo number number_truthy parseURL fetchPage fetchEmbed JSON_parse
      clock url cache).2 = delete url cache) ∧
  (∀ info (clock' : Clock),
     scrape number number_truthy parseURL fetchPage fetchEmbed JSON_parse url
       = Ok (Some info) →
     (t_get clock' - t_set clock < CACHE_TTL →
      extractAudioInfo number number_truthy parseURL' fetchPage' fetchEmbed' JSON_parse'
        clock' url
        (extractAudioInfo number number_truthy parseURL fetchPage fetchEmbed JSON_parse
           clock url cache).2
      = (Ok (Some info),
         (extractAudioInfo number number_truthy parseURL fetchPage fetchEmbed JSON_parse
            clock url cache).2)) ∧
     (CACHE_TTL ≤ t_get clock' - t_set clock →
      (extractAudioInfo number number_truthy parseURL' fetchPage' fetchEmbed' JSON_parse'
         clock' url
         (extractAudioInfo number number_truthy parseURL fetchPage fetchEmbed JSON_parse
            clock url cache).2).1
      = scrape number number_truthy parseURL' fetchPage' fetchEmbed' JSON_parse' url)).
Proof.
  intros Hmiss Hsweep.
  pose proof (getCached_miss _ _ _ Hmiss) as Hcache.
  assert (extractAudioInfo number number_truthy parseURL fetchPage fetchEmbed JSON_parse
            clock url cache
          = match scrape number number_truthy parseURL fetchPage fetchEmbed JSON_parse url with
            | Ok (Some info) =>
                (Ok (Some info),
                 setCache (t_set clock) (t_sweep clock) url info (delete url cache))
            | r => (r, delete url cache)
            end) as ->.
  { unfold extractAudioInfo.
    destruct (getCached (t_get clock) url cache) as [cached cache1].
    cbn [fst snd] in Hmiss, Hcache. by subst cached cache1. }
  set (S1 := scrape number number_truthy parseURL fetchPage fetchEmbed JSON_parse url).
  split_and!.
  - by destruct S1 as [[info|]|m].
  - intros H. destruct S1 as [[info|]|m] eqn:E; try done. by destruct (H info).
  - intros info clock' E. rewrite E. cbn [fst snd].
    pose proof (setCache_own (t_set clock) (t_sweep clock) url info (delete url cache) Hsweep)
      as Hown.
    unfold extractAudioInfo, getCached. rewrite Hown. cbn [time data].
    split; intros H.
    + by destruct (Z.ltb_spec (t_get clock' - t_set clock) CACHE_TTL); [|lia].
    + destruct (Z.ltb_spec (t_get clock' - t_set clock) CACHE_TTL); [lia|].
      by destruct (scrape _ _ parseURL' _ _ _ url) as [[info'|]|m].
Qed.

End WorkerCache.

Lemma extractAudioInfo_replay_witness :
  (extractAudioInfo Z (λ n, negb (n =? 0)) sample_parseURL sample_fetchPage sample_fetch
     sample_JSON_parse sample_clock (js "https://example.com/page") ∅).1
    = Ok (Some sample_info) ∧
  extractAudioInfo Z (λ n, negb (n =? 0)) (λ _, None) (λ _, Err (js "offline"))
    (λ _, Throw) (λ _, Throw)
    {| t_rate := 300000; t_get := 301499; t_set := 301499; t_sweep := 301499 |}
    (js "https://example.com/page")
    (extractAudioInfo Z (λ n, negb (n =? 0)) sample_parseURL sample_fetchPage sample_fetch
       sample_JSON_parse sample_clock (js "https://example.com/page") ∅).2
  = (Ok (Some sample_info),
     (extractAudioInfo Z (λ n, negb (n =? 0)) sample_parseURL sample_fetchPage sample_fetch
        sample_JSON_parse sample_clock (js "https://example.com/page") ∅).2).
Proof.
  destruct (extractAudioInfo_replay Z (λ n, negb (n =? 0)) sample_parseURL (λ _, None)
              sample_fetchPage (λ _, Err (js "offline")) sample_fetch (λ _, Throw)
              sample_JSON_parse (λ _, Throw) sample_clock (js "https://example.com/page") ∅)
    as (H1 & _ & H3); [done|done|].
  split.
  - rewrite H1. vm_compute. reflexivity.
  - apply H3; [vm_compute; reflexivity|done].
Defined.

Section WorkerReplies.

Context (number : Type) (number_truthy : number → bool).
Context (parseURL : list Z → option URL).
Context (fetchPage : list Z → result PageResponse).
Context (fetchEmbed : list Z → outcome Response).
Context (JSON_parse : list Z → outcome (jsval number)).

(** X18 (fetch, handleInfo, checkRateLimit): a preflight and a request
    for any path but [/api/info] change neither the limiter's map nor
    the cache.  Every other request is counted against its client, the
    header [cf-connecting-ip] or [unknown] without one, whatever its
    outcome; it is answered with status 429 exactly when the limiter
    refuses it, and then the cache is as it was. *)
Theorem worker_fetch_counts (clock : Clock) (request : Request)
    (rateLimitMap : gmap (list Z) RateEntry) (cache : gmap (list Z) CacheEntry) :
  let out := worker_fetch number number_truthy parseURL fetchPage fetchEmbed JSON_parse
               clock request rateLimitMap cache in
  let ip := match cf_connecting_ip request with
            | Some (c :: i) => c :: i
            | _ => js "unknown"
            end in
  (method request = js "OPTIONS" → out = (Preflight, rateLimitMap, cache)) ∧
  (method request ≠ js "OPTIONS" → path request ≠ js "/api/info" →
     out = (Frontend, rateLimitMap, cache)) ∧
  (method request ≠ js "OPTIONS" → path request = js "/api/info" →
     out.1.2 = (checkRateLimit (t_rate clock) ip rateLimitMap).2 ∧
     ∃ reply, out.1.1 = Api reply ∧
       (status reply = 429 ↔ (checkRateLimit (t_rate clock) ip rateLimitMap).1 = false) ∧
       (status reply = 429 → out.2 = cache) ∧
       In (status reply) [200; 400; 404; 429; 502]).
Proof.
  intros out ip. subst out. unfold worker_fetch, list_eqb. split_and!.
  - intros ->. by rewrite bool_decide_eq_true_2.
  - intros Hm Hp. by rewrite !bool_decide_eq_false_2.
  - intros Hm Hp. rewrite bool_decide_eq_false_2, bool_decide_eq_true_2 by done.
    unfold handleInfo. fold ip.
    destruct (checkRateLimit (t_rate clock) ip rateLimitMap) as [allowed rl].
    destruct allowed; cbn [negb fst snd].
    + destruct (url_param request) as [[|c target]|];
        try (split; [done|]; eexists; split; [done|]; cbn; split_and!; (done || tauto)).
      destruct (validateUrl parseURL _);
        try (split; [done|]; eexists; split; [done|]; cbn; split_and!; (done || tauto)).
      destruct (extractAudioInfo _ _ _ _ _ _ _ _ _) as [[[info|]|m] cache'];
        split; try done; eexists; (split; [done|]); cbn; split_and!; (done || tauto).
    + split; [done|]. eexists. split; [done|]. cbn. split_and!; (done || tauto).
Qed.

(** X19 (extractAudioInfo): what a scrape can come to.  A returned
    value means the page was fetched with an [ok] status and its text
    holds at most [MAX_HTML_SIZE] code units, and it is [null] exactly
    when the text has no audio tag.  An error is the one thrown by the
    fetch or by the reading of the body, or one of the two messages of
    the function: the failed fetch with its status, only for a status
    that is not [ok], and the page that is too large. *)
Theorem scrape_outcomes (url : list Z) :
  (∀ r, scrape number number_truthy parseURL fetchPage fetchEmbed JSON_parse url = Ok r →
     ∃ response html,
       fetchPage url = Ok response ∧ page_ok response = true ∧
       page_text response = Ok html ∧ Z.of_nat (length html) ≤ MAX_HTML_SIZE ∧
       (r = None ↔ extractAudio html = None)) ∧
  (∀ m, scrape number number_truthy parseURL fetchPage fetchEmbed JSON_parse url = Err m →
     fetchPage url = Err m ∨
     ∃ response,
       fetchPage url = Ok response ∧
       (page_ok response = false ∧
          m = js "Failed to fetch page: HTTP " ++ decimal (page_status response)
        ∨ page_ok response = true ∧
          (m = js "Page too large to process" ∨ page_text response = Err m))).
Proof.
  unfold scrape.
  destruct (fetchPage url) as [response|m0]; cbn [mbind result_bind];
    [|split; [done|]; intros m [= <-]; by left].
  destruct (page_ok response) eqn:Hok; cbn [negb];
    [|split; [done|]; intros m [= <-]; right; exists response; split; [done|]; by left].
  destruct (match parseInt10 _ with Some n => n >? MAX_HTML_SIZE | None => false end);
    [split; [done|]; intros m [= <-]; right; exists response; split; [done|]; right; eauto|].
  destruct (page_text response) as [html|m0] eqn:Ht; cbn [mbind result_bind];
    [|split; [done|]; intros m [= <-]; right; exists response; split; [done|]; right; eauto].
  destruct (Z.gtb_spec (Z.of_nat (length html)) MAX_HTML_SIZE) as [Hbig|Hsmall];
    [split; [done|]; intros m [= <-]; right; exists response; split; [done|]; right; eauto|].
  destruct (extractAudio html) as [[a t]|] eqn:Ea.
  - destruct (fetchSunoLyrics_total number number_truthy parseURL fetchEmbed JSON_parse url)
      as [l ->].
    cbn [mbind result_bind]. split; [|done].
    intros r Hr. exists response, html. rewrite Ea. split_and!; try done.
    split; intros H; [subst r; discriminate Hr|discriminate H].
  - split; [|done]. intros r [= <-]. exists response, html. rewrite Ea.
    by split_and!.
Qed.

End WorkerReplies.
(** ** The frontend script *)

Lemma test_scheme_https (t : list Z) : test scheme_re (js "https://" ++ t) = true.
Proof. vm_compute. reflexivity. Qed.

Lemma normalizeUrl_cases (line : list Z) :
  normalizeUrl line =
    if nonempty (trim line) && negb (test scheme_re (trim line))
    then js "https://" ++ trim line else trim line.
Proof. done. Qed.

(** X20 (parseUrls, normalizeUrl): the URLs read from the text area
    come from its lines that are not blank.  A trimmed line that opens
    with the scheme [http://] or [https://], in any case of letters, is
    taken as it is when its first four characters are [http] in lower
    case, as in [httpS://a], and is dropped when they are not, as in
    [HTTP://a]; a trimmed line without such a scheme gets [https://]
    before it.  Every URL read passes the scheme test of the server,
    which therefore adds nothing to it. *)
Theorem parseUrls_lines (text u : list Z) :
  (In u (parseUrls text) ↔
   ∃ line, In line (split newline text) ∧ trim line ≠ [] ∧
     (test scheme_re (trim line) = true ∧ startsWith (js "http") (trim line) = true ∧
        u = trim line
      ∨ test scheme_re (trim line) = false ∧ u = js "https://" ++ trim line)) ∧
  (In u (parseUrls text) → test scheme_re u = true ∧ startsWith (js "http") u = true).
Proof.
  assert (In u (parseUrls text) ↔
   ∃ line, In line (split newline text) ∧ trim line ≠ [] ∧
     (test scheme_re (trim line) = true ∧ startsWith (js "http") (trim line) = true ∧
        u = trim line
      ∨ test scheme_re (trim line) = false ∧ u = js "https://" ++ trim line)) as Hiff.
  { unfold parseUrls.
    rewrite <- list_elem_of_In, list_elem_of_filter, list_elem_of_fmap. split.
    - intros (Hu & line & -> & Hline%list_elem_of_In). exists line. split; [done|].
      rewrite normalizeUrl_cases in Hu |- *.
      destruct (trim line) as [|c t] eqn:Et; [done|]. split; [done|].
      cbn [nonempty andb] in *.
      destruct (test scheme_re (c :: t)); cbn [negb] in *; [left|by right].
      by split_and!.
    - intros (line & Hline & Hne & H). split.
      + destruct H as [(_ & Hs & ->)|[_ ->]]; [|done].
        destruct (trim line); [done|]. cbn [nonempty andb]. done.
      + exists line. split; [|by apply list_elem_of_In].
        rewrite normalizeUrl_cases.
        destruct (trim line) as [|c t]; [done|]. cbn [nonempty andb].
        destruct H as [(-> & _ & ->)|[-> ->]]; done. }
  split; [exact Hiff|].
  intros (line & _ & _ & [(? & ? & ->)|[_ ->]])%Hiff; [done|].
  split; [apply test_scheme_https|done].
Qed.
(** ** Escapes of the flight stream *)

Lemma startsWith_split (w s : list Z) : startsWith w s = true → s = w ++ drop (length w) s.
Proof. intros [r ->]%startsWith_spec. by rewrite drop_app_length. Qed.

Lemma replace_all_lit_length (w b : list Z) :
  w ≠ [] → (length b ≤ length w)%nat →
  ∀ s, (length (replace_all (lit w) b s) ≤ length s)%nat.
Proof.
  intros Hw Hb s. remember (length s) as n eqn:Hn. revert s Hn.
  induction n as [n IH] using lt_wf_ind. intros s ->.
  destruct s as [|x s]; [by rewrite replace_all_lit_nil|].
  destruct (startsWith w (x :: s)) eqn:Hsw.
  - rewrite (startsWith_split _ _ Hsw), replace_all_lit_hit by done.
    rewrite !length_app.
    assert (length (replace_all (lit w) b (drop (length w) (x :: s)))
            ≤ length (drop (length w) (x :: s)))%nat as H.
    { eapply IH; [|done]. rewrite length_drop. destruct w; [done|]. simpl. lia. }
    lia.
  - rewrite replace_all_lit_miss by done. cbn [length].
    specialize (IH (length s) ltac:(simpl; lia) s eq_refl). lia.
Qed.

Lemma flight_escaped_cons (cs s : list Z) (x : Z) :
  flight_escaped cs (x :: s)
  = (if one_of cs x then flight_escape x else [x]) ++ flight_escaped cs s.
Proof. done. Qed.

Lemma flight_escaped_nil (s : list Z) : flight_escaped [] s = s.
Proof. induction s as [|x s IH]; [done|]. by rewrite flight_escaped_cons, IH. Qed.

(** One step of the normaliser: the escape of [c] is read back. *)
Lemma unescape_step (c : Z) (cs s : list Z) :
  In c [34; 60; 62; 38; 10] → Forall (λ x, In x [34; 60; 62; 38; 10]) cs → ¬ In c cs →
  ¬ In backslash s →
  replace_all (lit (flight_escape c)) [c] (flight_escaped (c :: cs) s) = flight_escaped cs s.
Proof.
  intros Hc Hcs Hnc. induction s as [|x s IH]; intros Hs.
  - apply replace_all_lit_nil. cbn in Hc. by repeat destruct Hc as [<-|Hc].
  - assert (¬ In backslash s) as Hs' by (intros H; apply Hs; by right).
    specialize (IH Hs'). rewrite !flight_escaped_cons.
    assert (∃ w, flight_escape c = backslash :: w) as [w0 Hw0].
    { cbn in Hc. repeat destruct Hc as [<-|Hc]; try done; by eexists. }
    assert (flight_escape c ≠ []) as Hne by (by rewrite Hw0).
    destruct (Z.eq_dec x c) as [->|Hxc].
    + replace (one_of (c :: cs) c) with true
        by (symmetry; apply one_of_spec; by left).
      rewrite (one_of_other cs c) by done.
      rewrite replace_all_lit_hit by done. by rewrite IH.
    + replace (one_of (c :: cs) x) with (one_of cs x)
        by (unfold one_of; cbn [existsb]; by destruct (Z.eqb_spec x c)).
      destruct (one_of cs x) eqn:E.
      * apply one_of_spec in E. rewrite Forall_forall in Hcs.
        pose proof (Hcs x (proj2 (list_elem_of_In _ _) E)) as Hx5.
        cbn in Hc, Hx5.
        repeat destruct Hc as [<-|Hc]; try done;
          repeat destruct Hx5 as [<-|Hx5]; try done;
          match goal with
          | |- context [lit (flight_escape ?c)] => set (w := flight_escape c) in *
          end;
          match goal with
          | |- context [flight_escape ?x ++ _] =>
              let e := eval vm_compute in (flight_escape x) in
              change (flight_escape x) with e
          end;
          cbn [app]; repeat (rewrite replace_all_lit_miss by done); by rewrite IH.
      * cbn [app]. rewrite (replace_all_lit_miss _ _ _ _ Hne); [by rewrite IH|].
        rewrite Hw0. apply startsWith_head_ne. intros <-. apply Hs. by left.
Qed.

(** X21 (normaliseSunoEscapes): the five escapes are read back.  A text
    without a backslash in which the double quote, the angle brackets,
    the ampersand and the line feed are written as their escapes comes
    out as the text itself, and as it is when it has none of them;
    and no text is made longer. *)
Theorem normaliseSunoEscapes_unescapes (s : list Z) :
  (length (normaliseSunoEscapes s) ≤ length s)%nat ∧
  (¬ In backslash s →
     normaliseSunoEscapes s = s ∧
     normaliseSunoEscapes (flight_escaped [dquote; chr "<"; chr ">"; chr "&"; newline] s) = s).
Proof.
  unfold normaliseSunoEscapes. split.
  - repeat (etrans; [apply replace_all_lit_length; [done|cbn; lia]|]). done.
  - intros H. split; [by rewrite !(replace_all_lit_absent backslash _ _ s H)|].
    change [dquote; chr "<"; chr ">"; chr "&"; newline] with [34; 60; 62; 38; 10].
    change [backslash; dquote] with (flight_escape 34).
    change (backslash :: js "u003c") with (flight_escape 60).
    change (backslash :: js "u003e") with (flight_escape 62).
    change (backslash :: js "u0026") with (flight_escape 38).
    change (backslash :: js "n") with (flight_escape 10).
    change [dquote] with [34]. change (js "<") with [60]. change (js ">") with [62].
    change (js "&") with [38]. change [newline] with [10].
    assert (∀ c cs, In c [34; 60; 62; 38; 10] →
              Forall (λ x, In x [34; 60; 62; 38; 10]) cs → ¬ In c cs →
              replace_all (lit (flight_escape c)) [c] (flight_escaped (c :: cs) s)
              = flight_escaped cs s) as Hstep
      by (intros; by apply unescape_step).
    rewrite (Hstep 34 [60; 62; 38; 10]), (Hstep 60 [62; 38; 10]), (Hstep 62 [38; 10]),
      (Hstep 38 [10]), (Hstep 10 []);
      first [ apply flight_escaped_nil
            | by (cbn [In]; tauto)
            | by (repeat constructor; cbn [In]; tauto)
            | by (cbn [In]; intros H'; repeat destruct H' as [H'|H']) ].
Qed.
(** ** Matches away from the start of the input *)

Lemma flat_map_fmap {A B C : Type} (f : A → B) (g : B → list C) (l : list A) :
  flat_map g (f <$> l) = flat_map (g ∘ f) l.
Proof. induction l as [|a l IH]; [done|]. cbn. by rewrite IH. Qed.

Lemma fmap_flat_map {A B C : Type} (f : B → C) (g : A → list B) (l : list A) :
  f <$> flat_map g l = flat_map (λ a, f <$> g a) l.
Proof. induction l as [|a l IH]; [done|]. cbn. by rewrite fmap_app, IH. Qed.

Lemma flat_map_ext_all {A B : Type} (f g : A → list B) (l : list A) :
  (∀ a, f a = g a) → flat_map f l = flat_map g l.
Proof. intros H. induction l as [|a l IH]; [done|]. cbn. by rewrite H, IH. Qed.

Lemma star_shift (g : bool) (step : state → list state) (d : nat) :
  (∀ st, step (shift d st) = shift d <$> step st) →
  ∀ fuel st, star g step fuel (shift d st) = shift d <$> star g step fuel st.
Proof.
  intros Hstep. induction fuel as [|n IH]; intros st; [done|].
  cbn [star]. rewrite Hstep, flat_map_fmap.
  assert (flat_map
            ((λ st', if (length (rest st') <? length (rest (shift d st)))%nat
                     then star g step n st' else []) ∘ shift d) (step st)
          = shift d <$> flat_map
              (λ st', if (length (rest st') <? length (rest st))%nat
                      then star g step n st' else []) (step st)) as ->.
  { rewrite fmap_flat_map. apply flat_map_ext_all. intros a. unfold compose.
    cbn [shift rest]. destruct (_ <? _)%nat; [apply IH|done]. }
  destruct g; [by rewrite fmap_app|done].
Qed.

Lemma run_shift (r : re) (d : nat) :
  bol_free r = true → ∀ st, run r (shift d st) = shift d <$> run r st.
Proof.
  induction r as [|p|a IHa b IHb|a IHa b IHb|g a IHa|a IHa| |]; intros Hr st;
    cbn [bol_free] in Hr; try done.
  - cbn [run shift rest]. destruct (rest st) as [|x xs] eqn:E; [done|].
    destruct (p x); [|done]. unfold adv.
    change (rest (shift d st)) with (rest st). by rewrite E.
  - apply andb_prop in Hr as [Ha Hb]. cbn [run].
    rewrite IHa, flat_map_fmap, fmap_flat_map by done.
    apply flat_map_ext_all. intros s. by apply IHb.
  - apply andb_prop in Hr as [Ha Hb]. cbn [run].
    by rewrite IHa, IHb, fmap_app.
  - cbn [run]. change (rest (shift d st)) with (rest st).
    apply star_shift. by apply IHa.
  - cbn [run]. rewrite IHa by done. rewrite <- !list_fmap_compose.
    apply list_fmap_ext. intros _ s _. unfold compose, close, shift. cbn [idx rest cap].
    do 3 f_equal. lia.
  - cbn [run shift rest]. by destruct (rest st).
Qed.

Lemma scan_shift (r : re) (d : nat) :
  bol_free r = true →
  ∀ n i s, scan r n (i + d) s = shift_item d <$> scan r n i s.
Proof.
  intros Hr. induction n as [|n IH]; intros i s; [done|]. cbn [scan].
  change (St (i + d) s None) with (shift d (St i s None)).
  rewrite run_shift by done.
  destruct (run r (St i s None)) as [|st l].
  - destruct s as [|x xs]; [done|]. rewrite fmap_cons. cbn [fmap list_fmap shift_item].
    f_equal. apply (IH (S i)).
  - rewrite fmap_cons. cbn [shift idx rest].
    destruct (Nat.eqb_spec (idx st) i) as [->|Hne].
    + rewrite Nat.eqb_refl. destruct s as [|x xs]; [done|].
      rewrite !fmap_cons. cbn [shift_item]. do 2 f_equal. apply (IH (S i)).
    + destruct (Nat.eqb_spec (idx st + d) (i + d)); [lia|].
      rewrite fmap_cons. cbn [shift_item]. f_equal. apply IH.
Qed.

Lemma captures_anywhere (r : re) (n i : nat) (s : list Z) :
  bol_free r = true → (length s < n)%nat →
  (λ st, default [] (cap st)) <$> matched (scan r n i s) = captures r s.
Proof.
  intros Hr Hn. unfold captures, matches.
  rewrite (scan_fuel r n (S (length s)) s i) by lia.
  change i with (0 + i)%nat. rewrite scan_shift by done.
  generalize (scan r (S (length s)) 0 s). intros its.
  induction its as [|[x|st] its IH]; [done|..].
  - rewrite fmap_cons. cbn [shift_item]. by rewrite !matched_unit.
  - rewrite fmap_cons. cbn [shift_item]. rewrite !matched_match, !fmap_cons.
    by rewrite IH.
Qed.
(** ** Flight chunks *)

Lemma startsWith_app (w s t : list Z) :
  (length w ≤ length s)%nat → startsWith w (s ++ t) = startsWith w s.
Proof.
  revert s. induction w as [|a w IH]; intros s H; [done|].
  destruct s as [|x s]; [simpl in H; lia|]. cbn [app startsWith].
  rewrite IH; [done|]. simpl in H. lia.
Qed.

Lemma positions_only (w s : list Z) (n k : nat) :
  positions (lit w) s = [n] → (k ≤ length s)%nat → k ≠ n →
  startsWith w (drop k s) = false.
Proof.
  intros Hpos Hk Hne. destruct (startsWith w (drop k s)) eqn:E; [|done].
  assert (In k (positions (lit w) s)) as Hin.
  { apply positions_spec. split; [done|]. unfold matches_at. by rewrite run_lit, E. }
  rewrite Hpos in Hin. by destruct Hin as [<-|[]].
Qed.

(** A lazy iteration hands over, first of all, the shortest text that
    lets what follows match. *)
Lemma lazy_first (p : Z → bool) (F : state → list state) (c t : list Z) (cp : option (list Z)) :
  Forall (λ x, p x = true) c →
  ∀ j, (∀ k, (k < length c)%nat → F (St (j + k) (drop k (c ++ t)) cp) = []) →
  ∃ tl, flat_map F (star false (run (Chr p)) (length (c ++ t)) (St j (c ++ t) cp))
        = F (St (j + length c) t cp) ++ tl.
Proof.
  induction 1 as [|x c Hx Hc IH]; intros j HF.
  - cbn [app length]. rewrite Nat.add_0_r, (star_chr false p t j cp).
    destruct t as [|y t]; [by eexists|]. destruct (p y); by eexists.
  - cbn [app]. rewrite (star_chr false p (x :: c ++ t) j cp), Hx. cbn [flat_map].
    pose proof (HF 0%nat ltac:(simpl; lia)) as H0.
    cbn [drop app] in H0. rewrite Nat.add_0_r in H0. rewrite H0. cbn [app].
    destruct (IH (S j)) as [tl Htl].
    { intros k Hk. specialize (HF (S k)). cbn [drop app] in HF.
      replace (S j + k)%nat with (j + S k)%nat by lia. apply HF. simpl. lia. }
    exists tl. rewrite Htl. cbn [length].
    by replace (S j + length c)%nat with (j + S (length c))%nat by lia.
Qed.

Lemma run_group (a : re) (st : state) : run (Group a) st = close st <$> run a st.
Proof. done. Qed.

Lemma run_star (g : bool) (a : re) (st : state) :
  run (Star g a) st = star g (run a) (length (rest st)) st.
Proof. done. Qed.

Lemma run_flight_chunk_miss (s : list Z) (i : nat) :
  startsWith flight_open s = false → run flight_chunk (St i s None) = [].
Proof.
  intros H. unfold flight_chunk. rewrite run_seq_of_cons.
  change (js "self.__next_f.push([1," ++ [dquote]) with flight_open.
  by rewrite run_lit, H.
Qed.

Lemma run_flight_chunk_hit (c post : list Z) (i : nat) :
  positions (lit flight_close) (c ++ flight_close) = [length c] →
  ∃ tl, run flight_chunk (St i (flight_open ++ c ++ flight_close ++ post) None)
        = St (i + 23 + length c + 12) post (Some c) :: tl.
Proof.
  intros Hpos. unfold flight_chunk. rewrite run_seq_of_cons.
  change (js "self.__next_f.push([1," ++ [dquote]) with flight_open.
  change (dquote :: js "])</script>") with flight_close.
  rewrite run_lit.
  replace (startsWith flight_open (flight_open ++ c ++ flight_close ++ post)) with true
    by (symmetry; apply startsWith_spec; by eexists).
  rewrite drop_app_length, flat_map_single, run_seq_of_cons.
  change (seq_of [lit flight_close]) with (lit flight_close).
  rewrite run_group, run_star, flat_map_fmap. cbn [rest].
  destruct (lazy_first (λ _, true)
              (run (lit flight_close) ∘ close (St (i + length flight_open)
                                                 (c ++ flight_close ++ post) None))
              c (flight_close ++ post) None) with (j := (i + length flight_open)%nat)
    as [tl Htl].
  - by apply Forall_forall.
  - intros k Hk. unfold compose, close. cbn [idx rest]. rewrite run_lit.
    replace (startsWith flight_close (drop k (c ++ flight_close ++ post))) with false; [done|].
    symmetry. rewrite app_assoc, drop_app_le by (rewrite length_app; lia).
    rewrite startsWith_app by (rewrite length_drop, length_app; cbn; lia).
    eapply positions_only; [exact Hpos| |lia]. rewrite length_app. lia.
  - rewrite Htl. unfold compose, close. cbn [idx rest]. rewrite run_lit.
    replace (startsWith flight_close (flight_close ++ post)) with true
      by (symmetry; apply startsWith_spec; by eexists).
    rewrite drop_app_length. eexists. cbn [app]. f_equal.
    replace (i + length flight_open + length c - (i + length flight_open))%nat
      with (length c) by lia.
    rewrite take_app_length. by f_equal.
Qed.

Lemma matched_scan_skip (r : re) (pre s : list Z) :
  ∀ n i, (∀ k, (k < length pre)%nat → run r (St (i + k) (drop k (pre ++ s)) None) = []) →
  (length (pre ++ s) < n)%nat →
  matched (scan r n i (pre ++ s)) = matched (scan r (n - length pre) (i + length pre) s).
Proof.
  induction pre as [|x pre IH]; intros n i Hrun Hn.
  - cbn [app length]. by rewrite Nat.sub_0_r, Nat.add_0_r.
  - destruct n as [|n]; [lia|]. cbn [app scan length].
    pose proof (Hrun 0%nat ltac:(simpl; lia)) as H0. cbn [drop app] in H0.
    rewrite Nat.add_0_r in H0. rewrite H0, matched_unit.
    rewrite IH.
    + f_equal. f_equal; lia.
    + intros k Hk. specialize (Hrun (S k)). cbn [drop app] in Hrun.
      replace (S i + k)%nat with (i + S k)%nat by lia. apply Hrun. simpl. lia.
    + simpl in Hn. lia.
Qed.

(** X22 (extractSunoFlightChunks): the chunks come in the order of the
    page.  The opening text of a push is [flight_open], that is
    [self.__next_f.push([1,] and a double quote; its closing text is
    [flight_close], a double quote, [])] and [</script>]: a double
    quote and [])] that [</script>] does not follow close nothing.  When
    the first occurrence of the opening text is followed by a text [c]
    and the closing text, and [c] with the closing text holds the
    closing text at its end only, then [c], with its escapes read back,
    is the first chunk, and the others are the chunks of what comes
    after that closing text. *)
Theorem extractSunoFlightChunks_first (pre c post : list Z) :
  positions (lit flight_open) (pre ++ flight_open) = [length pre] →
  positions (lit flight_close) (c ++ flight_close) = [length c] →
  extractSunoFlightChunks (pre ++ flight_open ++ c ++ flight_close ++ post)
  = normaliseSunoEscapes c :: extractSunoFlightChunks post.
Proof.
  intros Hpre Hc. unfold extractSunoFlightChunks.
  assert (captures flight_chunk (pre ++ flight_open ++ c ++ flight_close ++ post)
          = c :: captures flight_chunk post) as ->; [|done].
  unfold captures at 1. unfold matches.
  rewrite matched_scan_skip.
  - destruct (run_flight_chunk_hit c post (0 + length pre) Hc) as [tl Htl].
    remember (S (length (pre ++ flight_open ++ c ++ flight_close ++ post)) - length pre)%nat
      as n eqn:Hn.
    destruct n as [|n].
    { rewrite !length_app in Hn. lia. }
    cbn [scan]. rewrite Htl. cbn [idx rest].
    destruct (Nat.eqb_spec (0 + length pre + 23 + length c + 12) (0 + length pre)); [lia|].
    rewrite matched_match, fmap_cons. cbn [cap default from_option id]. f_equal.
    apply captures_anywhere; [done|]. rewrite !length_app in Hn.
    change (length flight_open) with 23%nat in Hn. lia.
  - intros k Hk. apply run_flight_chunk_miss.
    rewrite app_assoc, drop_app_le by (rewrite length_app; lia).
    rewrite startsWith_app by (rewrite length_drop, length_app; cbn; lia).
    eapply positions_only; [exact Hpre| |lia]. rewrite length_app. lia.
  - lia.
Qed.

Lemma extractSunoFlightChunks_first_witness :
  extractSunoFlightChunks
    (js "<script>" ++ flight_open ++ jsq "5:[\`$\`,\`p\`]\n" ++ flight_close
     ++ js "<script>self.__next_f.push([2])</script>")
  = normaliseSunoEscapes (jsq "5:[\`$\`,\`p\`]\n")
    :: extractSunoFlightChunks (js "<script>self.__next_f.push([2])</script>").
Proof.
  apply (extractSunoFlightChunks_first (js "<script>") (jsq "5:[\`$\`,\`p\`]\n")).
  - vm_compute. reflexivity.
  - vm_compute. reflexivity.
Defined.
(** ** Artists *)

Lemma star_recap (g : bool) (step : state → list state) (c : option (list Z)) :
  (∀ st, step (recap c st) = recap c <$> step st) →
  ∀ fuel st, star g step fuel (recap c st) = recap c <$> star g step fuel st.
Proof.
  intros Hstep. induction fuel as [|n IH]; intros st; [done|].
  cbn [star]. rewrite Hstep, flat_map_fmap.
  assert (flat_map
            ((λ st', if (length (rest st') <? length (rest (recap c st)))%nat
                     then star g step n st' else []) ∘ recap c) (step st)
          = recap c <$> flat_map
              (λ st', if (length (rest st') <? length (rest st))%nat
                      then star g step n st' else []) (step st)) as ->.
  { rewrite fmap_flat_map. apply flat_map_ext_all. intros a. unfold compose.
    cbn [recap rest]. destruct (_ <? _)%nat; [apply IH|done]. }
  destruct g; [by rewrite fmap_app|done].
Qed.

Lemma run_recap (r : re) (c : option (list Z)) :
  group_free r = true → ∀ st, run r (recap c st) = recap c <$> run r st.
Proof.
  induction r as [|p|a IHa b IHb|a IHa b IHb|g a IHa|a IHa| |]; intros Hr st;
    cbn [group_free] in Hr; try done.
  - cbn [run]. change (rest (recap c st)) with (rest st).
    destruct (rest st) as [|x xs] eqn:E; [done|].
    destruct (p x); [|done]. unfold adv.
    change (rest (recap c st)) with (rest st). by rewrite E.
  - apply andb_prop in Hr as [Ha Hb]. cbn [run].
    rewrite IHa, flat_map_fmap, fmap_flat_map by done.
    apply flat_map_ext_all. intros s. by apply IHb.
  - apply andb_prop in Hr as [Ha Hb]. cbn [run].
    by rewrite IHa, IHb, fmap_app.
  - cbn [run]. change (rest (recap c st)) with (rest st).
    apply star_recap. by apply IHa.
  - cbn [run recap idx]. by destruct (_ =? _)%nat.
  - cbn [run]. change (rest (recap c st)) with (rest st). by destruct (rest st).
Qed.

(** Whether a pattern without [^] and without a group matches depends
    on the input ahead alone. *)
Lemma run_nil_anywhere (r : re) (s : list Z) (i j : nat) (c c' : option (list Z)) :
  bol_free r = true → group_free r = true →
  run r (St i s c) = [] → run r (St j s c') = [].
Proof.
  intros Hb Hg H.
  assert (run r (St 0 s c) = []) as H0.
  { change (St i s c) with (shift i (St 0 s c)) in H. rewrite run_shift in H by done.
    by destruct (run r (St 0 s c)). }
  change (St j s c') with (shift j (recap c' (St 0 s c))).
  by rewrite run_shift, run_recap, H0.
Qed.

Lemma run_cap_free (r : re) (st st' : state) :
  group_free r = true → In st' (run r st) → cap st' = cap st.
Proof.
  intros Hg Hin.
  assert (recap (cap st) st = st) as E by (by destruct st).
  rewrite <- E, run_recap in Hin by done.
  apply in_map_iff in Hin as (s & <- & _). done.
Qed.

Lemma run_lit_i (w s : list Z) (i : nat) (c : option (list Z)) :
  run (lit_i w) (St i s c) =
    if startsWith_i w s then [St (i + length w) (drop (length w) s) c] else [].
Proof.
  revert s i. induction w as [|a w IH]; intros s i.
  - simpl. by rewrite Nat.add_0_r, drop_0.
  - unfold lit_i in *. rewrite fmap_cons, run_seq_of_cons.
    change ((Chr ∘ eqc_i) a) with (Chr (eqc_i a)).
    destruct s as [|x s]; [by rewrite run_chr_nil|].
    rewrite run_chr_cons. unfold eqc_i. cbn [startsWith_i].
    destruct (upperAscii x =? upperAscii a); [|done].
    rewrite flat_map_single, IH. cbn [andb length drop].
    by replace (S i + length w)%nat with (i + S (length w))%nat by lia.
Qed.

Lemma startsWith_i_same (w k t : list Z) :
  startsWith_i w (k ++ t) = true → length k = length w → same_i w k.
Proof.
  revert k. induction w as [|a w IH]; intros k H L.
  - destruct k; [constructor|done].
  - destruct k as [|x k]; [done|]. cbn [app startsWith_i] in H.
    apply andb_prop in H as [Hx H]. apply Z.eqb_eq in Hx.
    constructor; [done|]. apply IH; [done|]. simpl in L. lia.
Qed.

Lemma run_artist_re (s : list Z) (i : nat) :
  run artist_re (St i s None) =
    if startsWith_i (js "by") s
    then flat_map (run (Seq (Group (Seq (Chr not_handle) (Star false (Chr not_handle))))
                          artist_end))
           (run (Plus (Chr isWhiteSpace)) (St (i + 2) (drop 2 s) None))
    else [].
Proof.
  unfold artist_re. rewrite run_seq_of_cons, run_lit_i.
  destruct (startsWith_i (js "by") s); [|done].
  by rewrite flat_map_single, run_seq_of_cons.
Qed.

Lemma by_at_false (prev : option Z) (s : list Z) (i : nat) :
  by_at prev s = false →
  (if word_boundary prev s then run artist_re (St i s None) else []) = [].
Proof.
  unfold by_at. intros H. destruct (word_boundary prev s); [|done].
  rewrite run_artist_re. destruct (startsWith_i (js "by") s); [|done].
  cbn [andb] in H. unfold Plus. rewrite run_seq.
  destruct (drop 2 s) as [|x t]; [by rewrite run_chr_nil|].
  cbn [head from_option] in H. by rewrite run_chr_cons, H.
Qed.

Lemma by_places_ge (s : list Z) :
  ∀ prev i k, In k (by_places prev i s) → (i ≤ k)%nat.
Proof.
  induction s as [|x s IH]; intros prev i k; cbn [by_places].
  - rewrite app_nil_r. destruct (by_at prev []); [|done]. by intros [<-|[]].
  - rewrite in_app_iff. intros [H|H].
    + destruct (by_at prev (x :: s)); [|done]. by destruct H as [<-|[]].
    + apply IH in H. lia.
Qed.

Lemma by_places_first (pre s : list Z) :
  ∀ prev i, head (by_places prev i (pre ++ s)) = Some (i + length pre)%nat →
  by_at (default prev (Some <$> last pre)) s = true ∧
  exec_b_from artist_re prev i (pre ++ s)
  = exec_b_from artist_re (default prev (Some <$> last pre)) (i + length pre) s.
Proof.
  induction pre as [|x pre IH]; intros prev i H.
  - cbn [app length last fmap option_fmap option_map default from_option] in *.
    rewrite Nat.add_0_r in *. split; [|done].
    destruct (by_at prev s) eqn:E; [done|].
    destruct s as [|y s]; cbn [by_places] in H; rewrite E in H; [done|].
    cbn [app] in H. destruct (by_places (Some y) (S i) s) as [|k l] eqn:Ek; [done|].
    injection H as ->. pose proof (by_places_ge s (Some y) (S i) i) as Hge.
    rewrite Ek in Hge. specialize (Hge (or_introl eq_refl)). lia.
  - cbn [app by_places length] in H.
    destruct (by_at prev (x :: pre ++ s)) eqn:E.
    { cbn [app head] in H. injection H as H. lia. }
    cbn [app] in H.
    replace (i + S (length pre))%nat with (S i + length pre)%nat in * by lia.
    destruct (IH (Some x) (S i) H) as [Hby Hex].
    assert (default prev (Some <$> last (x :: pre))
            = default (Some x) (Some <$> last pre)) as ->.
    { destruct pre as [|y pre]; [done|].
      rewrite last_cons_nonempty by done.
      destruct (last (y :: pre)) as [z|] eqn:El; [reflexivity|].
      clear -El. exfalso. revert y El. induction pre as [|y' pre IH]; intros y El; [done|].
      rewrite last_cons_nonempty in El by done. by eapply IH. }
    split; [done|]. cbn [app exec_b_from length]. rewrite (by_at_false _ _ _ E).
    by replace (i + S (length pre))%nat with (S i + length pre)%nat by lia.
Qed.

Lemma artist_end_free : bol_free artist_end = true ∧ group_free artist_end = true.
Proof. by vm_compute. Qed.

Lemma matches_at_run (r : re) (s : list Z) (k : nat) :
  matches_at r s k = false ↔ run r (St k (drop k s) None) = [].
Proof. unfold matches_at. by destruct (run r _). Qed.

(** At the word [by]: the first outcome of the pattern holds, as its
    capture, the shortest text after the whitespace that the end
    pattern can follow. *)
Lemma run_artist_first (B W A E : list Z) (i : nat) :
  same_i (js "by") B →
  W ≠ [] → Forall (λ x, isWhiteSpace x = true) W →
  A ≠ [] → (∀ x, head A = Some x → isWhiteSpace x = false) →
  Forall (λ x, not_handle x = true) A →
  (∀ k, (0 < k < length A)%nat → matches_at artist_end (A ++ E) k = false) →
  matches_at artist_end (A ++ E) (length A) = true →
  ∃ st tl, run artist_re (St i (B ++ W ++ A ++ E) None) = st :: tl ∧ cap st = Some A.
Proof.
  intros HB HWne HW HAne Ha HA Hmin Hend.
  destruct artist_end_free as [Hbf Hgf].
  rewrite run_artist_re, (startsWith_i_intro _ _ _ HB).
  pose proof (same_i_length _ _ HB) as LB. change (length (js "by")) with 2%nat in LB.
  replace (drop 2 (B ++ W ++ A ++ E)) with (W ++ A ++ E)
    by (rewrite <- LB; by rewrite drop_app_length).
  destruct W as [|w0 W]; [done|]. destruct A as [|a A]; [done|].
  inversion HW as [|? ? Hw0 HW']; subst. inversion HA as [|? ? Ha0 HA']; subst.
  pose proof (Ha a eq_refl) as Hna.
  unfold Plus at 1. rewrite run_seq. cbn [app]. rewrite run_chr_cons, Hw0, flat_map_single.
  destruct (run_star_chr_greedy isWhiteSpace (W ++ a :: A ++ E) (S (i + 2)) None)
    as (k & tl1 & ->).
  rewrite (dropWhile_stop isWhiteSpace W (A ++ E) a) by done.
  cbn [flat_map]. set (j := (S (i + 2) + k)%nat).
  destruct (lazy_first not_handle
              (run artist_end ∘ close (St j (a :: A ++ E) None)) A E None HA' (S j))
    as [tl2 Htl2].
  { intros n Hn. unfold compose, close. cbn [idx rest].
    eapply run_nil_anywhere; [done..|].
    apply (matches_at_run artist_end (a :: A ++ E) (S n)).
    apply (Hmin (S n)). simpl. lia. }
  unfold compose at 2 in Htl2. unfold close in Htl2 at 2. cbn [idx rest] in Htl2.
  replace (take (S j + length A - j) (a :: A ++ E)) with (a :: A) in Htl2.
  2:{ replace (S j + length A - j)%nat with (length (a :: A)) by (simpl; lia).
      change (a :: A ++ E) with ((a :: A) ++ E). by rewrite take_app_length. }
  destruct (run artist_end (St (S j + length A) E (Some (a :: A)))) as [|st l] eqn:Er.
  { apply (run_nil_anywhere _ _ _ (length (a :: A)) _ None Hbf Hgf) in Er.
    assert (matches_at artist_end ((a :: A) ++ E) (length (a :: A)) = false) as Hno
      by (apply matches_at_run; by rewrite drop_app_length).
    by rewrite Hno in Hend. }
  exists st. eexists. split.
  - rewrite run_seq at 1. rewrite run_group, run_seq, run_chr_cons, Ha0, flat_map_single.
    rewrite run_star, flat_map_fmap. cbn [rest]. rewrite Htl2. by list_norm.
  - apply (run_cap_free artist_end (St (S j + length A) E (Some (a :: A)))); [done|].
    rewrite Er. by left.
Qed.

Lemma not_handle_spec (x : Z) : not_handle x = true ↔ x ≠ chr "(" ∧ x ≠ chr "@".
Proof.
  unfold not_handle, none_of, one_of. change (js "(@") with [40; 64].
  change (chr "(") with 40. change (chr "@") with 64. cbn [existsb].
  destruct (Z.eqb_spec x 40), (Z.eqb_spec x 64); cbn; split; intros; (done || tauto).
Qed.

(** X23 (extractArtist): the artist is read after the first word [by],
    in any case, that whitespace follows: it is the text from the end
    of that whitespace up to the first place where the end pattern, an
    optional handle in parentheses, then dots or whitespace, then
    [Listen] or [on] and whitespace, can follow; the text is trimmed and
    its entities are decoded.  A title that holds the word [by] itself
    is therefore read as the start of the artist. *)
Theorem extractArtist_first_by (html T B W A E : list Z) :
  extractMeta html (js "description") = Some (T ++ B ++ W ++ A ++ E) →
  head (by_places None 0 (T ++ B ++ W ++ A ++ E)) = Some (length T) →
  length B = 2%nat →
  W ≠ [] → Forall (λ x, isWhiteSpace x = true) W →
  A ≠ [] → (∀ x, head A = Some x → isWhiteSpace x = false) →
  Forall (λ x, x ≠ chr "(" ∧ x ≠ chr "@") A →
  forallb (λ k, negb (matches_at artist_end (A ++ E) k)) (seq 1 (length A - 1)) = true →
  matches_at artist_end (A ++ E) (length A) = true →
  extractArtist html = decodeEntities (Some (trim A)) ≫= or_null.
Proof.
  intros Hdesc Hby LB HWne HW HAne Ha HA Hmin Hend.
  unfold extractArtist. rewrite Hdesc.
  destruct (T ++ B ++ W ++ A ++ E) as [|d0 desc] eqn:Ed.
  { apply (f_equal length) in Ed. rewrite !length_app in Ed. simpl in Ed. lia. }
  rewrite <- Ed in *. clear d0 desc Ed.
  destruct (by_places_first T (B ++ W ++ A ++ E) None 0 Hby) as [Hat ->].
  assert (same_i (js "by") B) as HB.
  { unfold by_at in Hat. apply andb_prop in Hat as [[_ Hsw]%andb_prop _].
    by eapply startsWith_i_same. }
  destruct (run_artist_first B W A E (0 + length T) HB HWne HW HAne Ha) as (st & tl & Hrun & Hcap).
  - eapply Forall_impl; [exact HA|]. intros x. apply not_handle_spec.
  - intros k Hk. rewrite forallb_forall in Hmin.
    specialize (Hmin k). rewrite in_seq in Hmin.
    destruct (matches_at artist_end (A ++ E) k); [|done].
    discriminate Hmin. lia.
  - done.
  - destruct (B ++ W ++ A ++ E) as [|b0 s] eqn:Es.
    { apply (f_equal length) in Es. rewrite !length_app in Es. simpl in Es. lia. }
    rewrite <- Es in *. clear b0 s Es.
    assert (word_boundary (default None (Some <$> last T)) (B ++ W ++ A ++ E) = true) as Hwb.
    { unfold by_at in Hat. by apply andb_prop in Hat as [[? _]%andb_prop _]. }
    destruct (B ++ W ++ A ++ E) as [|b0 s] eqn:Es.
    { apply (f_equal length) in Es. rewrite !length_app in Es. simpl in Es. lia. }
    cbn [exec_b_from]. rewrite Hwb, Hrun, Hcap. done.
Qed.

Lemma extractArtist_first_by_witness :
  extractArtist
    (jsq "<meta name=`description` content=`Stand by Me by Ben E. King (@ben) on Suno`>")
  = decodeEntities (Some (trim (js "Me by Ben E. King"))) ≫= or_null.
Proof.
  apply (extractArtist_first_by _ (js "Stand ") (js "by") (js " ") (js "Me by Ben E. King")
           (js " (@ben) on Suno")).
  - vm_compute. reflexivity.
  - vm_compute. reflexivity.
  - done.
  - done.
  - by repeat constructor.
  - done.
  - intros x [= <-]. done.
  - repeat constructor; done.
  - vm_compute. reflexivity.
  - vm_compute. reflexivity.
Defined.
